(** * AtomSpace visualizer: parser, graph transformer and layout engine

    A shallow embedding of
      - src/utils/nodeUtils.ts
      - src/services/parser/MettaParser.ts
      - src/services/graph/GraphTransformer.ts
      - the GraphEngineImpl class of
        src/components/GraphVisualizer/GraphVisualizer.tsx
      - the way of a parse result into the engine in src/App.tsx
    followed by the properties established about them.

    Conventions of the embedding.
      - A JavaScript string is a list of code units; the development covers
        the code units 0..255, so a character is an [ascii].  On that range
        [trim] and the regular expression class \s agree on the characters
        9, 10, 11, 12, 13, 32 and 160, and [toLowerCase] maps A-Z and the
        Latin-1 capitals (192..222 except 215) to their lower case.
      - A JavaScript number that holds a coordinate is a real number [R]:
        rounding is not modelled.  Counters, lengths and columns are [nat]
        or [Z].
      - An object that the code mutates through a reference (a graph node
        held in the [nodes] array) is addressed by its index in that array.
      - A [Map] is an association list in insertion order; [set] on an
        existing key overwrites the value in place, as the iteration order of
        a JavaScript Map requires. *)

From Stdlib Require Import Ascii String.
From Stdlib Require Import List ZArith Bool Arith Lia.
From Stdlib Require Import Permutation.
From Stdlib Require Import Reals Lra.
From Stdlib Require Import DecimalString.
Import ListNotations.

Close Scope R_scope.
Open Scope nat_scope.
Open Scope list_scope.

Set Implicit Arguments.

(** ** Strings *)

Module Str.

Definition str := list ascii.

Definition lit (s : string) : str := list_ascii_of_string s.

Definition code (c : ascii) : nat := nat_of_ascii c.

Fixpoint eqb (a b : str) : bool :=
  match a, b with
  | [], [] => true
  | x :: a', y :: b' => Ascii.eqb x y && eqb a' b'
  | _, _ => false
  end.

(** White space as [String.prototype.trim] and \s see it. *)
Definition isWhite (c : ascii) : bool :=
  let n := code c in
  ((9 <=? n) && (n <=? 13)) || (n =? 32) || (n =? 160).

Definition isUpperAZ (c : ascii) : bool := (65 <=? code c) && (code c <=? 90).
Definition isLowerAZ (c : ascii) : bool := (97 <=? code c) && (code c <=? 122).
Definition isDigit (c : ascii) : bool := (48 <=? code c) && (code c <=? 57).

Definition lowerChar (c : ascii) : ascii :=
  let n := code c in
  if isUpperAZ c then ascii_of_nat (n + 32)
  else if (192 <=? n) && (n <=? 222) && negb (n =? 215) then ascii_of_nat (n + 32)
  else c.

Definition toLowerCase (s : str) : str := map lowerChar s.

Fixpoint dropWhite (s : str) : str :=
  match s with
  | c :: s' => if isWhite c then dropWhite s' else s
  | [] => []
  end.

Definition trim (s : str) : str := rev (dropWhite (rev (dropWhite s))).

(** [s.charAt(0) === c] and [s.charAt(s.length - 1) === c]. *)
Definition firstIs (c : ascii) (s : str) : bool :=
  match s with
  | x :: _ => Ascii.eqb x c
  | [] => false
  end.

Definition lastIs (c : ascii) (s : str) : bool := firstIs c (rev s).

(** [s.slice(1, -1)]. *)
Definition slice1 (s : str) : str := removelast (tl s).

(** [s.split(sep)] for a one-character separator. *)
Fixpoint splitOn (sep : ascii) (cur : str) (s : str) : list str :=
  match s with
  | [] => [cur]
  | c :: s' =>
      if Ascii.eqb c sep then cur :: splitOn sep [] s'
      else splitOn sep (cur ++ [c]) s'
  end.

Definition lines (text : str) : list str := splitOn "010"%char [] text.

(** [s.split(/\s+/)]: [inRun] tells that the previous character was white. *)
Fixpoint splitWhiteFrom (cur : str) (inRun : bool) (s : str) : list str :=
  match s with
  | [] => [cur]
  | c :: s' =>
      if isWhite c then
        if inRun then splitWhiteFrom [] true s'
        else cur :: splitWhiteFrom [] true s'
      else splitWhiteFrom (cur ++ [c]) false s'
  end.

Definition splitWhite (s : str) : list str := splitWhiteFrom [] false s.

(** Decimal rendering of a number inside a template literal. *)
Definition ofNat (n : nat) : str :=
  lit (NilZero.string_of_uint (Nat.to_uint n)).

Definition ofZ (z : Z) : str :=
  lit (NilZero.string_of_int (Z.to_int z)).

(** [[a, b].sort()] on strings orders by code units. *)
Fixpoint ltb (a b : str) : bool :=
  match a, b with
  | [], [] => false
  | [], _ :: _ => true
  | _ :: _, [] => false
  | x :: a', y :: b' =>
      if code x <? code y then true
      else if code y <? code x then false
      else ltb a' b'
  end.

Fixpoint join (sep : str) (l : list str) : str :=
  match l with
  | [] => []
  | [a] => a
  | a :: l' => a ++ sep ++ join sep l'
  end.

End Str.

Import Str.

Declare Scope js_scope.
Delimit Scope js_scope with js.
Notation "'#' s" := (lit s) (at level 1, format "'#' s") : js_scope.
Open Scope js_scope.

(** ** Data model (the interfaces of the types module) *)

Module Point.
Record Point := mk { x : R; y : R }.
End Point.
Abbreviation Point := Point.Point.

Module NodeType.
Inductive NodeType := entity | predicate | value | hypergraph.

Definition eqb (a b : NodeType) : bool :=
  match a, b with
  | entity, entity | predicate, predicate
  | value, value | hypergraph, hypergraph => true
  | _, _ => false
  end.
End NodeType.
Abbreviation NodeType := NodeType.NodeType.

Module EdgeType.
Inductive EdgeType := relation | hypergraph_connection.
End EdgeType.
Abbreviation EdgeType := EdgeType.EdgeType.

Module Meta.
Record NodeMetadata := mk {
  originalExpression : option str;
  occurrences : option nat;
  isGenerated : option bool
}.
End Meta.
Abbreviation NodeMetadata := Meta.NodeMetadata.

Module Node.
Record GraphNode := mk {
  id : str;
  label : str;
  type : NodeType;
  position : Point;
  color : option str;
  size : option R;
  isHypergraph : option bool;
  metadata : NodeMetadata
}.

Definition setOccurrences (k : nat) (n : GraphNode) : GraphNode :=
  mk (id n) (label n) (type n) (position n) (color n) (size n) (isHypergraph n)
     (Meta.mk (Meta.originalExpression (metadata n)) (Some k)
              (Meta.isGenerated (metadata n))).

Definition setColor (c : str) (n : GraphNode) : GraphNode :=
  mk (id n) (label n) (type n) (position n) (Some c) (size n) (isHypergraph n)
     (metadata n).

Definition setType (t : NodeType) (n : GraphNode) : GraphNode :=
  mk (id n) (label n) t (position n) (color n) (size n) (isHypergraph n)
     (metadata n).

Definition setPosition (p : Point) (n : GraphNode) : GraphNode :=
  mk (id n) (label n) (type n) p (color n) (size n) (isHypergraph n)
     (metadata n).
End Node.
Abbreviation GraphNode := Node.GraphNode.

Module Edge.
Record GraphEdge := mk {
  id : str;
  source : str;
  target : str;
  label : str;
  directed : bool;
  type : EdgeType;
  color : option str;
  weight : option R
}.
End Edge.
Abbreviation GraphEdge := Edge.GraphEdge.

Module Hyper.
Record HypergraphStructure := mk {
  id : str;
  predicate : str;
  subjects : list str;
  objects : list str;
  intermediateNodeId : option str
}.
End Hyper.
Abbreviation HypergraphStructure := Hyper.HypergraphStructure.

(** [string | string[]] *)
Inductive StrOrArr :=
| One (s : str)
| Many (l : list str).

Module Triple.
Record Triple := mk {
  predicate : str;
  subject : StrOrArr;
  object : StrOrArr;
  isHypergraph : bool
}.
End Triple.
Abbreviation Triple := Triple.Triple.

Module Severity.
Inductive Severity := error | warning.
End Severity.
Abbreviation Severity := Severity.Severity.

Module PErr.
Record ParseError := mk {
  line : Z;
  column : Z;
  message : str;
  severity : Severity
}.
End PErr.
Abbreviation ParseError := PErr.ParseError.

Module Validation.
Record ValidationResult := mk {
  isValid : bool;
  errors : list ParseError;
  warnings : list ParseError
}.
End Validation.
Abbreviation ValidationResult := Validation.ValidationResult.

Module GMeta.
(** [lastUpdated] is the clock reading taken when the metadata is built. *)
Record GraphMetadata := mk {
  nodeCount : nat;
  edgeCount : nat;
  hypergraphCount : nat;
  lastUpdated : R
}.
End GMeta.
Abbreviation GraphMetadata := GMeta.GraphMetadata.

Module GData.
Record GraphData := mk {
  nodes : list GraphNode;
  edges : list GraphEdge;
  metadata : GraphMetadata;
  hypergraphs : list HypergraphStructure
}.
End GData.
Abbreviation GraphData := GData.GraphData.

Module PResult.
Record ParseResult := mk {
  nodes : list GraphNode;
  edges : list GraphEdge;
  errors : list ParseError;
  metadata : GraphMetadata
}.
End PResult.
Abbreviation ParseResult := PResult.ParseResult.

Inductive LayoutAlgorithm := force_directed | hierarchical | circular.

Module LState.
Record LayoutState := mk {
  isAnimating : bool;
  progress : R;
  algorithm : LayoutAlgorithm;
  startTime : R;
  duration : R
}.
End LState.
Abbreviation LayoutState := LState.LayoutState.

Module Transform.
Record Transform := mk { x : R; y : R; scale : R }.
End Transform.
Abbreviation Transform := Transform.Transform.

(** ** nodeUtils.ts *)

Module NodeUtils.

(** The three [replace] calls of [generateNodeId], in order. *)
Definition isAlnumLower (c : ascii) : bool := isLowerAZ c || isDigit c.

Definition hyphen : ascii := "-"%char.

Definition replaceNonAlnum (s : str) : str :=
  map (fun c => if isAlnumLower c then c else hyphen) s.

Fixpoint collapseHyphens (s : str) : str :=
  match s with
  | c :: s' =>
      if Ascii.eqb c hyphen then
        match s' with
        | d :: _ => if Ascii.eqb d hyphen then collapseHyphens s'
                    else c :: collapseHyphens s'
        | [] => [c]
        end
      else c :: collapseHyphens s'
  | [] => []
  end.

(** [replace(/^-|-$/g, '')]: one hyphen at the start and one at the end. *)
Definition stripEnds (s : str) : str :=
  let s1 := match s with
            | c :: s' => if Ascii.eqb c hyphen then s' else s
            | [] => []
            end in
  if lastIs hyphen s1 then removelast s1 else s1.

Definition generateNodeId (label : str) : str :=
  stripEnds (collapseHyphens (replaceNonAlnum (toLowerCase label))).

(** Index of the first node whose id is [nodeId]. *)
Fixpoint findIndex (nodes : list GraphNode) (nodeId : str) (i : nat) : option nat :=
  match nodes with
  | n :: rest => if Str.eqb (Node.id n) nodeId then Some i
                 else findIndex rest nodeId (S i)
  | [] => None
  end.

Fixpoint updateAt (A : Type) (i : nat) (f : A -> A) (l : list A) : list A :=
  match l, i with
  | a :: l', 0 => f a :: l'
  | a :: l', S i' => a :: updateAt i' f l'
  | [], _ => []
  end.

(** [createOrUpdateNode]: the node returned is the one at the index
    returned, in the array returned. *)
Definition createOrUpdateNode (nodes : list GraphNode) (label : str)
    (position : option Point) : list GraphNode * nat :=
  let nodeId := generateNodeId label in
  match findIndex nodes nodeId 0 with
  | Some i =>
      (updateAt i (fun n =>
         Node.setOccurrences
           (match Meta.occurrences (Node.metadata n) with
            | Some k => k
            | None => 0
            end + 1) n) nodes, i)
  | None =>
      (nodes ++ [Node.mk nodeId label NodeType.entity
                   (match position with
                    | Some p => p
                    | None => Point.mk 0%R 0%R
                    end)
                   None None None
                   (Meta.mk None (Some 1) None)],
       length nodes)
  end.

(** The string hash of [getNodeColor] and [getEdgeColor].  [hash << 5]
    converts to a 32-bit integer first; the subtraction and the addition are
    on numbers and do not wrap (they are exact as long as the hash stays
    below 2^53 in absolute value, that is for every label of less than two
    million characters). *)
Definition toInt32 (z : Z) : Z := ((z + 2 ^ 31) mod 2 ^ 32 - 2 ^ 31)%Z.

Definition hashStep (hash : Z) (c : ascii) : Z :=
  (Z.of_nat (code c) + (toInt32 (toInt32 hash * 32) - hash))%Z.

Definition hashOf (s : str) : Z := fold_left hashStep s 0%Z.

Definition getNodeColor (label : str) : str :=
  let hue := (Z.abs (hashOf label) mod 360)%Z in
  #"hsla(" ++ ofZ hue ++ #", 65%, 70%, 0.7)".

Definition getEdgeColor (predicate : str) : str :=
  let hue := ((Z.abs (hashOf predicate) + 180) mod 360)%Z in
  #"hsla(" ++ ofZ hue ++ #", 60%, 65%, 0.6)".


(** [parseMettaExpression]: the predicate and the arguments, [None] for
    [null]. *)
Definition parseMettaExpression (expression : str) : option (str * list str) :=
  let trimmed := trim expression in
  if negb (firstIs "("%char trimmed) || negb (lastIs ")"%char trimmed) then None
  else
    let content := trim (slice1 trimmed) in
    let parts := splitWhite content in
    if length parts <? 2 then None
    else Some (hd [] parts, tl parts).

End NodeUtils.

(** ** MettaParser.ts *)

Module MettaParser.

(** [ParsedExpression]: an argument is a string or a nested expression. *)
Inductive ParsedExpression :=
  | Expr (predicate : str) (args : list Arg)
with Arg :=
  | Atom (s : str)
  | Nested (e : ParsedExpression).

Definition predicateOf (e : ParsedExpression) : str :=
  match e with Expr p _ => p end.

Definition argsOf (e : ParsedExpression) : list Arg :=
  match e with Expr _ a => a end.

Definition lparen : ascii := "("%char.
Definition rparen : ascii := ")"%char.
Definition space : ascii := " "%char.
Definition semicolon : ascii := ";"%char.

(** *** levenshteinDistance

    Row [j] of the matrix is built from row [j - 1]: [left] is
    [matrix[j][i - 1]], [diag] is [matrix[j - 1][i - 1]] and the head of
    [above] is [matrix[j - 1][i]]. *)
Fixpoint levRow (c2 : ascii) (str1 : str) (diag : nat) (above : list nat)
    (left : nat) : list nat :=
  match str1, above with
  | c1 :: str1', up :: above' =>
      let indicator := if Ascii.eqb c1 c2 then 0 else 1 in
      let v := Nat.min (left + 1) (Nat.min (up + 1) (diag + indicator)) in
      v :: levRow c2 str1' up above' v
  | _, _ => []
  end.

Fixpoint levRows (str1 str2 : str) (j : nat) (prev : list nat) : list nat :=
  match str2 with
  | c2 :: str2' =>
      match prev with
      | diag :: above => levRows str1 str2' (S j) (j :: levRow c2 str1 diag above j)
      | [] => []
      end
  | [] => prev
  end.

Definition levenshteinDistance (str1 str2 : str) : nat :=
  last (levRows str1 str2 1 (seq 0 (S (length str1)))) 0.

(** *** validateSyntax *)

Definition commonPredicates : list str :=
  [#"gender"; #"is-parent"; #"is-brother"; #"is-sister"; #"age"; #"name"].

(** The scan of one line for balance.  The result is the column of an
    unmatched closing parenthesis, if the scan broke on one, and the final
    [parenCount] and [lastOpenParen]. *)
Fixpoint scanParens (chars : str) (j : Z) (parenCount lastOpenParen : Z)
    : option Z * Z * Z :=
  match chars with
  | c :: rest =>
      if Ascii.eqb c lparen then scanParens rest (j + 1) (parenCount + 1) j
      else if Ascii.eqb c rparen then
        if (parenCount - 1 <? 0)%Z then (Some (j + 1)%Z, (parenCount - 1)%Z, lastOpenParen)
        else scanParens rest (j + 1) (parenCount - 1) lastOpenParen
      else scanParens rest (j + 1) parenCount lastOpenParen
  | [] => (None, parenCount, lastOpenParen)
  end.

(** The first common predicate at distance exactly 1. *)
Fixpoint similarTo (predicate : str) (candidates : list str) : option str :=
  match candidates with
  | c :: rest =>
      if levenshteinDistance (toLowerCase predicate) c =? 1 then Some c
      else similarTo predicate rest
  | [] => None
  end.

Definition msgEnclosed : str := #"Expression must be enclosed in parentheses".
Definition msgClosing : str := #"Unmatched closing parenthesis".
Definition msgOpening : str := #"Unmatched opening parenthesis".
Definition msgMinimum : str :=
  #"Expression must have at least a predicate and one argument".

Definition quote : str := [ascii_of_nat 34].

Definition msgDidYouMean (similar predicate : str) : str :=
  #"Did you mean " ++ quote ++ similar ++ quote ++ #"? Found " ++ quote
    ++ predicate ++ quote.

(** The body of the loop over lines: the errors and the warnings that line
    [i] (counted from 0) pushes. *)
Definition validateLine (i : Z) (raw : str) : list ParseError * list ParseError :=
  let line := trim raw in
  if (length line =? 0) || firstIs semicolon line then ([], [])
  else
    let hasOpenParen := firstIs lparen line in
    let hasCloseParen := lastIs rparen line in
    if negb hasOpenParen || (negb hasCloseParen && negb hasOpenParen) then
      ([PErr.mk (i + 1) 0 msgEnclosed Severity.error], [])
    else
      let '(closing, parenCount, lastOpenParen) := scanParens line 0 0 (-1) in
      let errs1 :=
        match closing with
        | Some col => [PErr.mk (i + 1) col msgClosing Severity.error]
        | None => []
        end in
      let errs2 :=
        if (0 <? parenCount)%Z
        then [PErr.mk (i + 1) (lastOpenParen + 1) msgOpening Severity.error]
        else [] in
      let hasUnbalancedParens :=
        match closing with Some _ => true | None => (0 <? parenCount)%Z end in
      if hasUnbalancedParens then (errs1 ++ errs2, [])
      else if 2 <? length line then
        let content := trim (slice1 line) in
        let parts := splitWhite content in
        let errs3 :=
          if length parts <? 2 then [PErr.mk (i + 1) 1 msgMinimum Severity.error] else [] in
        let warns :=
          if 2 <=? length parts then
            let predicate := hd [] parts in
            match similarTo predicate commonPredicates with
            | Some similarPredicate =>
                if negb (Str.eqb predicate similarPredicate)
                then [PErr.mk (i + 1) 1 (msgDidYouMean similarPredicate predicate)
                        Severity.warning]
                else []
            | None => []
            end
          else [] in
        (errs3, warns)
      else ([], []).

Fixpoint validateLines (i : Z) (ls : list str)
    (errors warnings : list ParseError) : list ParseError * list ParseError :=
  match ls with
  | raw :: rest =>
      let '(e, w) := validateLine i raw in
      validateLines (i + 1) rest (errors ++ e) (warnings ++ w)
  | [] => (errors, warnings)
  end.

Definition validateSyntax (mettaText : str) : ValidationResult :=
  let '(errors, warnings) := validateLines 0 (lines mettaText) [] [] in
  Validation.mk (length errors =? 0) errors warnings.

(** *** tokenize *)

Record TokState := mkTok {
  tokens : list str;
  current : str;
  parenDepth : Z;
  inToken : bool
}.

Definition nonBlank (s : str) : bool := negb (length (trim s) =? 0).

Definition tokStep (st : TokState) (char : ascii) : TokState :=
  if Ascii.eqb char lparen then
    mkTok (tokens st) (current st ++ [char]) (parenDepth st + 1) true
  else if Ascii.eqb char rparen then
    let depth := (parenDepth st - 1)%Z in
    let cur := current st ++ [char] in
    if (depth =? 0)%Z && inToken st
    then mkTok (tokens st ++ [trim cur]) [] depth false
    else mkTok (tokens st) cur depth (inToken st)
  else if Ascii.eqb char space && (parenDepth st =? 0)%Z then
    if nonBlank (current st)
    then mkTok (tokens st ++ [trim (current st)]) [] (parenDepth st) false
    else mkTok (tokens st) (current st) (parenDepth st) false
  else mkTok (tokens st) (current st ++ [char]) (parenDepth st) true.

Definition tokenize (content : str) : list str :=
  let st := fold_left tokStep content (mkTok [] [] 0 false) in
  if nonBlank (current st) then tokens st ++ [trim (current st)] else tokens st.

(** *** parseExpression

    The recursion is on tokens of the expression, so the function is written
    with a recursion budget: the outer [None] tells that the budget ran out,
    [Some None] is the [null] of the source.  The budget is the number of
    nested calls of [parseExpression] that the call stack of the host still
    holds: the source calls itself once for every level of nesting, without
    a guard on the depth, and a host whose stack is used up throws a
    RangeError (see [extractTriplesOn]). *)
Definition isWrapped (token : str) : bool :=
  firstIs lparen token && lastIs rparen token.

Fixpoint parseArgs (rec : str -> option (option ParsedExpression))
    (toks : list str) : option (list Arg) :=
  match toks with
  | token :: rest =>
      if isWrapped token then
        match rec token with
        | None => None
        | Some nested =>
            match parseArgs rec rest with
            | None => None
            | Some args =>
                Some (match nested with
                      | Some e => Nested e :: args
                      | None => args
                      end)
            end
        end
      else
        match parseArgs rec rest with
        | None => None
        | Some args => Some (Atom token :: args)
        end
  | [] => Some []
  end.

Fixpoint parseExpressionFuel (fuel : nat) (expression : str)
    : option (option ParsedExpression) :=
  match fuel with
  | 0 => None
  | S fuel' =>
      let trimmed := trim expression in
      if negb (firstIs lparen trimmed) || negb (lastIs rparen trimmed)
      then Some None
      else
        let content := trim (slice1 trimmed) in
        let toks := tokenize content in
        if length toks <? 2 then Some None
        else
          match toks with
          | predicate :: rest =>
              match parseArgs (parseExpressionFuel fuel') rest with
              | None => None
              | Some args => Some (Some (Expr predicate args))
              end
          | [] => Some None
          end
  end.

(** *** expressionToTriple *)

Definition isNested (a : Arg) : bool :=
  match a with Nested _ => true | Atom _ => false end.

Definition stringsOf (args : list Arg) : list str :=
  flat_map (fun a => match a with Atom s => [s] | Nested _ => [] end) args.

(** What a nested argument pushes into [objects]. *)
Definition objectsOf (args : list Arg) : list str :=
  flat_map (fun a => match a with
                     | Atom _ => []
                     | Nested e => predicateOf e :: stringsOf (argsOf e)
                     end) args.

Definition oneOrMany (l : list str) : StrOrArr :=
  match l with
  | [s] => One s
  | _ => Many l
  end.

Definition expressionToTriple (parsed : ParsedExpression) : option Triple :=
  let predicate := predicateOf parsed in
  let args := argsOf parsed in
  if existsb isNested args then
    Some (Triple.mk predicate (oneOrMany (stringsOf args))
            (oneOrMany (objectsOf args)) true)
  else
    let stringArgs := stringsOf args in
    match stringArgs with
    | s0 :: rest =>
        if 2 <=? length stringArgs
        then Some (Triple.mk predicate (One s0) (oneOrMany rest) false)
        else None
    | [] => None
    end.

(** *** extractTriples *)

Definition skipLine (trimmedLine : str) : bool :=
  (length trimmedLine =? 0) || firstIs semicolon trimmedLine.

Fixpoint extractLines (fuel : nat) (ls : list str) : option (list Triple) :=
  match ls with
  | line :: rest =>
      let trimmedLine := trim line in
      if skipLine trimmedLine then extractLines fuel rest
      else
        match parseExpressionFuel fuel trimmedLine with
        | None => None
        | Some parsed =>
            match extractLines fuel rest with
            | None => None
            | Some triples =>
                Some (match parsed with
                      | Some e =>
                          match expressionToTriple e with
                          | Some triple => triple :: triples
                          | None => triples
                          end
                      | None => triples
                      end)
            end
        end
  | [] => Some []
  end.

Definition extractTriplesFuel (fuel : nat) (mettaText : str) : option (list Triple) :=
  extractLines fuel (lines mettaText).

(** The budget [S (length mettaText)] is enough for every text (see
    [extractTriples_total] below); the default is never reached. *)
Definition extractTriples (mettaText : str) : list Triple :=
  match extractTriplesFuel (S (length mettaText)) mettaText with
  | Some triples => triples
  | None => []
  end.


(** [parseExpression] with the budget that [extractTriples] gives it. *)
Definition parseExpression (expression : str) : option ParsedExpression :=
  match parseExpressionFuel (S (length expression)) expression with
  | Some parsed => parsed
  | None => None
  end.


(** *** The call stack

    What [extractTriples] does on a host whose call stack holds [stack]
    nested calls of [parseExpression]: it returns its triples, or the
    RangeError ("Maximum call stack size exceeded") that the host throws
    leaves it; nothing in the parser catches it.  [extractTriples] above is
    what is returned when the stack is deep enough. *)
Inductive Outcome (A : Type) : Type :=
| Returned (a : A)
| RangeError.

Arguments RangeError {A}.

Definition extractTriplesOn (stack : nat) (mettaText : str)
    : Outcome (list Triple) :=
  match extractTriplesFuel stack mettaText with
  | Some triples => Returned triples
  | None => RangeError
  end.

End MettaParser.

(** ** GraphTransformer.ts *)

Module GraphTransformer.

Import NodeUtils.

(** The fields of a [GraphTransformerImpl] instance. *)
Record State := mkState {
  hypergraphCounter : nat;
  bidirectionalEdges : list str
}.

Definition initial : State := mkState 0 [].

Definition toArray (v : StrOrArr) : list str :=
  match v with
  | One s => [s]
  | Many l => l
  end.

Definition dash : str := #"-".

(** *** determineNodeType and setNodeProperties *)

Definition isProperName (label : str) : bool :=
  match label with
  | c :: rest => isUpperAZ c && negb (length rest =? 0) && forallb isLowerAZ rest
  | [] => false
  end.

Definition isNumber (label : str) : bool :=
  negb (length label =? 0) && forallb isDigit label.

Definition isGenderMarker (label : str) : bool :=
  Str.eqb label #"M" || Str.eqb label #"F".

Definition isBoolean (label : str) : bool :=
  Str.eqb (toLowerCase label) #"true" || Str.eqb (toLowerCase label) #"false".

Definition determineNodeType (label predicate : str) : NodeType :=
  if isProperName label then NodeType.entity
  else if isNumber label || isGenderMarker label || isBoolean label
  then NodeType.value
  else if Str.eqb predicate label then NodeType.predicate
  else NodeType.entity.

Definition setProperties (predicate : str) (node : GraphNode) : GraphNode :=
  let node1 :=
    match Node.color node with
    | None => Node.setColor (getNodeColor (Node.label node)) node
    | Some _ => node
    end in
  if NodeType.eqb (Node.type node1) NodeType.entity
  then Node.setType (determineNodeType (Node.label node1) predicate) node1
  else node1.

(** [refs] are the indices of the nodes the source holds references to. *)
Definition setNodeProperties (refs : list nat) (predicate : str)
    (nodes : list GraphNode) : list GraphNode :=
  fold_left (fun ns r => updateAt r (setProperties predicate) ns) refs nodes.

(** *** Edges *)

Definition edgeExists (edges : list GraphEdge) (edgeId : str) : bool :=
  existsb (fun edge => Str.eqb (Edge.id edge) edgeId) edges.

Definition idAt (nodes : list GraphNode) (r : nat) : str :=
  match nth_error nodes r with
  | Some n => Node.id n
  | None => []
  end.

Definition addEdge (predicate : str) (directed : bool) (type : EdgeType)
    (sourceId targetId : str) (edges : list GraphEdge) : list GraphEdge :=
  let edgeId := predicate ++ dash ++ sourceId ++ dash ++ targetId in
  if edgeExists edges edgeId then edges
  else edges ++ [Edge.mk edgeId sourceId targetId predicate directed type
                   (Some (getEdgeColor predicate)) None].

Definition createEdgesBetweenNodes (nodes : list GraphNode)
    (sourceNodes targetNodes : list nat) (triple : Triple)
    (edges : list GraphEdge) : list GraphEdge :=
  fold_left
    (fun es sourceNode =>
       fold_left
         (fun es' targetNode =>
            addEdge (Triple.predicate triple) true EdgeType.relation
              (idAt nodes sourceNode) (idAt nodes targetNode) es')
         targetNodes es)
    sourceNodes edges.

Definition createHypergraphConnections (nodes : list GraphNode)
    (entityNodes : list nat) (intermediateNode : GraphNode) (triple : Triple)
    (edges : list GraphEdge) : list GraphEdge :=
  fold_left
    (fun es entityNode =>
       addEdge (Triple.predicate triple) false EdgeType.hypergraph_connection
         (idAt nodes entityNode) (Node.id intermediateNode) es)
    entityNodes edges.

(** *** Nodes of a triple

    [labels.map((label, i) => createOrUpdateNode(nodes, label, pos(i)))]:
    the array after the calls and the references they returned. *)
Fixpoint createNodes (pos : nat -> Point) (i : nat) (labels : list str)
    (nodes : list GraphNode) : list GraphNode * list nat :=
  match labels with
  | label :: rest =>
      let '(nodes1, r) := createOrUpdateNode nodes label (Some (pos i)) in
      let '(nodes2, refs) := createNodes pos (S i) rest nodes1 in
      (nodes2, r :: refs)
  | [] => (nodes, [])
  end.

Definition processSimpleTriple (triple : Triple) (nodes : list GraphNode)
    (edges : list GraphEdge) (index : nat) : list GraphNode * list GraphEdge :=
  let subjects := toArray (Triple.subject triple) in
  let objects := toArray (Triple.object triple) in
  let '(nodes1, subjectNodes) :=
    createNodes
      (fun i => Point.mk (INR i * 120 - (INR (length subjects) - 1) * 60)%R
                         (INR index * 100)%R)
      0 subjects nodes in
  let '(nodes2, objectNodes) :=
    createNodes
      (fun i => Point.mk
                  ((INR (length subjects) + INR i) * 120
                   - (INR (length subjects) - 1) * 60)%R
                  (INR index * 100)%R)
      0 objects nodes1 in
  let nodes3 :=
    setNodeProperties (subjectNodes ++ objectNodes) (Triple.predicate triple) nodes2 in
  (nodes3, createEdgesBetweenNodes nodes3 subjectNodes objectNodes triple edges).

Definition createIntermediateNode (predicate : str) (counter : nat)
    (position : Point) : GraphNode :=
  let intermediateNodeId := predicate ++ #"-group-" ++ ofNat counter in
  Node.mk intermediateNodeId (predicate ++ #" group") NodeType.hypergraph position
    (Some (getNodeColor predicate)) (Some (12 / 10)%R) (Some true)
    (Meta.mk (Some (predicate ++ #" hypergraph")) (Some 1) (Some true)).

Definition createHypergraphStructures (st : State) (triple : Triple)
    : list HypergraphStructure * State :=
  let subjects := toArray (Triple.subject triple) in
  let objects := toArray (Triple.object triple) in
  let counter := S (hypergraphCounter st) in
  ([Hyper.mk (#"hypergraph-" ++ ofNat counter) (Triple.predicate triple)
      subjects objects
      (Some (Triple.predicate triple ++ #"-group-" ++ ofNat counter))],
   mkState counter (bidirectionalEdges st)).

(** [hypergraph && hypergraph.intermediateNodeId] for the last element. *)
Definition hasIntermediate (hypergraphs : list HypergraphStructure) : bool :=
  match rev hypergraphs with
  | h :: _ =>
      match Hyper.intermediateNodeId h with
      | Some s => negb (length s =? 0)
      | None => false
      end
  | [] => false
  end.

Definition processHypergraphTriple (st : State) (triple : Triple)
    (nodes : list GraphNode) (edges : list GraphEdge)
    (hypergraphs : list HypergraphStructure) (index : nat)
    : list GraphNode * list GraphEdge :=
  let subjects := toArray (Triple.subject triple) in
  let objects := toArray (Triple.object triple) in
  let allEntities := subjects ++ objects in
  let centerX := 0%R in
  let centerY := (INR index * 150)%R in
  let radius := Rmax 80 (INR (length allEntities) * 20) in
  let '(nodes1, entityNodes) :=
    createNodes
      (fun i =>
         let angle := (2 * PI * INR i / INR (length allEntities))%R in
         Point.mk (centerX + radius * cos angle)%R (centerY + radius * sin angle)%R)
      0 allEntities nodes in
  let '(nodes2, edges2) :=
    if hasIntermediate hypergraphs then
      let intermediateNode :=
        createIntermediateNode (Triple.predicate triple) (hypergraphCounter st)
          (Point.mk centerX centerY) in
      let nodes' := nodes1 ++ [intermediateNode] in
      (nodes', createHypergraphConnections nodes' entityNodes intermediateNode
                 triple edges)
    else (nodes1, edges) in
  (setNodeProperties entityNodes (Triple.predicate triple) nodes2, edges2).

(** *** detectBidirectionalRelationships *)

Definition forwardKey (edge : GraphEdge) : str :=
  Edge.source edge ++ dash ++ Edge.target edge ++ dash ++ Edge.label edge.

Definition reverseKey (edge : GraphEdge) : str :=
  Edge.target edge ++ dash ++ Edge.source edge ++ dash ++ Edge.label edge.

(** [[forwardKey, reverseKey].sort().join('|')] *)
Definition pairKey (edge : GraphEdge) : str :=
  let f := forwardKey edge in
  let r := reverseKey edge in
  Str.join #"|" (if Str.ltb r f then [r; f] else [f; r]).

Definition hasKey (keys : list str) (k : str) : bool :=
  existsb (Str.eqb k) keys.

Definition addKey (keys : list str) (k : str) : list str :=
  if hasKey keys k then keys else keys ++ [k].

(** First pass: the keys of [edgeMap] and the set [bidirectionalPairs]. *)
Fixpoint firstPass (edges : list GraphEdge) (edgeMap pairs : list str)
    : list str * list str :=
  match edges with
  | edge :: rest =>
      let edgeMap1 := addKey edgeMap (forwardKey edge) in
      let pairs1 :=
        if hasKey edgeMap1 (reverseKey edge) then addKey pairs (pairKey edge)
        else pairs in
      firstPass rest edgeMap1 pairs1
  | [] => (edgeMap, pairs)
  end.

Definition bidirectionalPairs (edges : list GraphEdge) : list str :=
  snd (firstPass edges [] []).

(** Second pass: [processedEdges] and [processedEdgeIds]. *)
Fixpoint secondPass (edges : list GraphEdge) (processedEdges : list GraphEdge)
    (processedEdgeIds : list str) : list GraphEdge :=
  match edges with
  | edge :: rest =>
      if hasKey processedEdgeIds (forwardKey edge)
      then secondPass rest processedEdges processedEdgeIds
      else secondPass rest (processedEdges ++ [edge])
             (processedEdgeIds ++ [forwardKey edge])
  | [] => processedEdges
  end.

Definition detectBidirectionalRelationships (edges : list GraphEdge)
    : list GraphEdge :=
  secondPass edges [] [].

(** *** transformTriplestoGraph *)

Definition createGraphMetadata (now : R) (nodes : list GraphNode)
    (edges : list GraphEdge) (hypergraphs : list HypergraphStructure)
    : GraphMetadata :=
  GMeta.mk (length nodes) (length edges) (length hypergraphs) now.

Record Acc := mkAcc {
  accNodes : list GraphNode;
  accEdges : list GraphEdge;
  accHypergraphs : list HypergraphStructure;
  accState : State
}.

Definition processTriple (acc : Acc) (index : nat) (triple : Triple) : Acc :=
  if Triple.isHypergraph triple then
    let '(hypergraphStructures, st1) :=
      createHypergraphStructures (accState acc) triple in
    let hypergraphs := accHypergraphs acc ++ hypergraphStructures in
    let '(nodes, edges) :=
      processHypergraphTriple st1 triple (accNodes acc) (accEdges acc)
        hypergraphs index in
    mkAcc nodes edges hypergraphs st1
  else
    let '(nodes, edges) :=
      processSimpleTriple triple (accNodes acc) (accEdges acc) index in
    mkAcc nodes edges (accHypergraphs acc) (accState acc).

Fixpoint processTriples (triples : list Triple) (index : nat) (acc : Acc) : Acc :=
  match triples with
  | triple :: rest => processTriples rest (S index) (processTriple acc index triple)
  | [] => acc
  end.

(** [now] is what [new Date()] reads when the metadata is built. *)
Definition transformTriplestoGraph (now : R) (st : State) (triples : list Triple)
    : GraphData * State :=
  let acc := processTriples triples 0 (mkAcc [] [] [] st) in
  let processedEdges := detectBidirectionalRelationships (accEdges acc) in
  (GData.mk (accNodes acc) processedEdges
     (createGraphMetadata now (accNodes acc) processedEdges (accHypergraphs acc))
     (accHypergraphs acc),
   accState acc).

End GraphTransformer.

(** ** The parser object: [MettaParserImpl.parse] *)

Module Parser.

(** The fields of a [MettaParserImpl] instance.  [hypergraphCounter] is the
    parser's own counter, which only [handleHypergraph] advances; [parse]
    leaves it alone and works with the counter of its transformer. *)
Record State := mkState {
  hypergraphCounter : nat;
  graphTransformer : GraphTransformer.State
}.

Definition initial : State := mkState 0 GraphTransformer.initial.

Definition parse (now : R) (st : State) (mettaText : str) : ParseResult * State :=
  let validation := MettaParser.validateSyntax mettaText in
  let errors := Validation.errors validation ++ Validation.warnings validation in
  let triples := MettaParser.extractTriples mettaText in
  let '(graphData, gt) :=
    GraphTransformer.transformTriplestoGraph now (graphTransformer st) triples in
  (PResult.mk (GData.nodes graphData) (GData.edges graphData) errors
     (GData.metadata graphData),
   mkState (hypergraphCounter st) gt).


(** [handleHypergraph]: the structures and the parser after the call. *)
Definition handleHypergraph (st : State) (expression : str)
    : list HypergraphStructure * State :=
  match MettaParser.parseExpression expression with
  | None => ([], st)
  | Some parsed =>
      let predicate := MettaParser.predicateOf parsed in
      let nestedExpressions :=
        filter MettaParser.isNested (MettaParser.argsOf parsed) in
      if 0 <? length nestedExpressions then
        let subjects := MettaParser.stringsOf (MettaParser.argsOf parsed) in
        let objects := MettaParser.objectsOf (MettaParser.argsOf parsed) in
        let counter := S (hypergraphCounter st) in
        ([Hyper.mk (#"hypergraph-" ++ ofNat counter) predicate subjects objects
            (Some (predicate ++ #"-group-" ++ ofNat counter))],
         mkState counter (graphTransformer st))
      else ([], st)
  end.

(** [parse] on a host whose call stack holds [stack] nested calls of
    [parseExpression]: the RangeError of [extractTriples] leaves [parse]
    before the transformer is reached. *)
Definition parseOn (stack : nat) (now : R) (st : State) (mettaText : str)
    : MettaParser.Outcome (ParseResult * State) :=
  match MettaParser.extractTriplesOn stack mettaText with
  | MettaParser.Returned _ => MettaParser.Returned (parse now st mettaText)
  | MettaParser.RangeError => MettaParser.RangeError
  end.

End Parser.

(** ** GraphEngineImpl (GraphVisualizer.tsx)

    The state of the engine and its methods [setData], [applyLayout],
    [handleNodeDrag], [getNodeAtPosition], [getLayoutState], [stopLayout],
    the two coordinate transformations, [centerLayoutPositions], the
    force-directed, the hierarchical and the circular layout, and
    [startLayoutAnimation] with its [animate] callback.  Drawing is not
    embedded.

    Coordinates are real numbers: sums, products, quotients and square
    roots are the exact ones, where the source rounds to binary64.  A
    quotient by zero, which the source evaluates to NaN or to an infinity,
    has no counterpart here (the quotient of the real numbers is total and
    gives 0), so the properties that rest on a quotient by the scale of a
    transform, by the duration of an animation or by the spring length of
    the force-directed layout are stated for values other than zero. *)

Module GraphEngine.

(** A [Map<string, V>] in insertion order. *)
Definition Map (V : Type) := list (str * V).

Fixpoint mapGet (V : Type) (k : str) (m : Map V) : option V :=
  match m with
  | (k', v) :: m' => if Str.eqb k' k then Some v else mapGet k m'
  | [] => None
  end.

Fixpoint mapSet (V : Type) (k : str) (v : V) (m : Map V) : Map V :=
  match m with
  | (k', v') :: m' => if Str.eqb k' k then (k', v) :: m' else (k', v') :: mapSet k v m'
  | [] => [(k, v)]
  end.

(** What the [animate] closure of [startLayoutAnimation] captures besides
    the engine itself.  Its [targetPositions] is the very Map the engine
    holds in its field of that name, so the closure reads the field. *)
Record Animation := mkAnimation {
  animStart : R;
  animDuration : R;
  initialPositions : Map Point
}.

(** The fields of a [GraphEngineImpl] instance, and the callbacks the host
    holds for it: [frames] are the callbacks registered with
    [requestAnimationFrame] and not yet run or cancelled, [nextFrameId] is
    the id the next registration returns. *)
Record Engine := mkEngine {
  nodes : list GraphNode;
  edges : list GraphEdge;
  layoutState : LayoutState;
  animationFrameId : option nat;
  targetPositions : Map Point;
  frames : list (nat * Animation);
  nextFrameId : nat
}.

Definition initial : Engine :=
  mkEngine [] [] (LState.mk false 0 force_directed 0 0) None [] [] 1.

Definition setData (ns : list GraphNode) (es : list GraphEdge) (e : Engine) : Engine :=
  mkEngine ns es (layoutState e) (animationFrameId e) (targetPositions e)
    (frames e) (nextFrameId e).

Fixpoint dragFirst (nodeId : str) (position : Point) (ns : list GraphNode)
    : list GraphNode :=
  match ns with
  | n :: rest =>
      if Str.eqb (Node.id n) nodeId then Node.setPosition position n :: rest
      else n :: dragFirst nodeId position rest
  | [] => []
  end.

Definition handleNodeDrag (nodeId : str) (position : Point) (e : Engine) : Engine :=
  mkEngine (dragFirst nodeId position (nodes e)) (edges e) (layoutState e)
    (animationFrameId e) (targetPositions e) (frames e) (nextFrameId e).

Definition screenToWorld (screenPoint : Point) (transform : Transform) : Point :=
  Point.mk ((Point.x screenPoint - Transform.x transform) / Transform.scale transform)%R
           ((Point.y screenPoint - Transform.y transform) / Transform.scale transform)%R.

Definition nodeRadius : R := 20%R.

Definition distanceTo (worldPos : Point) (node : GraphNode) : R :=
  let dx := (Point.x worldPos - Point.x (Node.position node))%R in
  let dy := (Point.y worldPos - Point.y (Node.position node))%R in
  sqrt (dx * dx + dy * dy).

Fixpoint firstWithin (worldPos : Point) (ns : list GraphNode) : option GraphNode :=
  match ns with
  | node :: rest =>
      if Rle_dec (distanceTo worldPos node) nodeRadius then Some node
      else firstWithin worldPos rest
  | [] => None
  end.

Definition getNodeAtPosition (e : Engine) (position : Point) (transform : Transform)
    : option GraphNode :=
  firstWithin (screenToWorld position transform) (nodes e).

Definition getLayoutState (e : Engine) : LayoutState := layoutState e.

Definition setAnimating (b : bool) (s : LayoutState) : LayoutState :=
  LState.mk b (LState.progress s) (LState.algorithm s) (LState.startTime s)
    (LState.duration s).

Definition setProgress (p : R) (s : LayoutState) : LayoutState :=
  LState.mk (LState.isAnimating s) p (LState.algorithm s) (LState.startTime s)
    (LState.duration s).

(** [cancelAnimationFrame(id)] *)
Definition cancelFrame (id : nat) (fs : list (nat * Animation))
    : list (nat * Animation) :=
  filter (fun f => negb (fst f =? id)) fs.

Definition stopLayout (e : Engine) : Engine :=
  let fs :=
    match animationFrameId e with
    | Some id => cancelFrame id (frames e)
    | None => frames e
    end in
  mkEngine (nodes e) (edges e) (setAnimating false (layoutState e)) None [] fs
    (nextFrameId e).

(** *** centerLayoutPositions *)

Definition sumX (ps : list Point) : R := fold_left (fun a p => (a + Point.x p)%R) ps 0%R.
Definition sumY (ps : list Point) : R := fold_left (fun a p => (a + Point.y p)%R) ps 0%R.

Definition centerLayoutPositions (ns : list GraphNode) (positions : Map Point)
    : Map Point :=
  if length positions =? 0 then positions
  else
    let currentCenterX := (sumX (map Node.position ns) / INR (length ns))%R in
    let currentCenterY := (sumY (map Node.position ns) / INR (length ns))%R in
    let newCenterX := (sumX (map snd positions) / INR (length positions))%R in
    let newCenterY := (sumY (map snd positions) / INR (length positions))%R in
    let offsetX := (currentCenterX - newCenterX)%R in
    let offsetY := (currentCenterY - newCenterY)%R in
    fold_left
      (fun centered kv =>
         mapSet (fst kv)
           (Point.mk (Point.x (snd kv) + offsetX)%R (Point.y (snd kv) + offsetY)%R)
           centered)
      positions [].

(** *** calculateCircularLayout *)

Fixpoint addToGroup (key : NodeType) (nodeId : str)
    (groups : list (NodeType * list str)) : list (NodeType * list str) :=
  match groups with
  | (k, ids) :: rest =>
      if NodeType.eqb k key then (k, ids ++ [nodeId]) :: rest
      else (k, ids) :: addToGroup key nodeId rest
  | [] => [(key, [nodeId])]
  end.

Definition nodeGroups (ns : list GraphNode) : list (NodeType * list str) :=
  fold_left (fun g node => addToGroup (Node.type node) (Node.id node) g) ns [].

(** One group on its circle: [nodeIds.forEach((nodeId, index) => ...)]. *)
Fixpoint placeOnCircle (radius : R) (count : nat) (index : nat)
    (nodeIds : list str) (positions : Map Point) : Map Point :=
  match nodeIds with
  | nodeId :: rest =>
      let angle := (2 * PI * INR index / INR count)%R in
      placeOnCircle radius count (S index) rest
        (mapSet nodeId (Point.mk (cos angle * radius)%R (sin angle * radius)%R)
           positions)
  | [] => positions
  end.

Fixpoint placeGroups (groups : list (list str)) (groupIndex : nat)
    (positions : Map Point) : Map Point :=
  match groups with
  | nodeIds :: rest =>
      let radius := (130 + INR groupIndex * 100)%R in
      placeGroups rest (S groupIndex)
        (placeOnCircle radius (length nodeIds) 0 nodeIds positions)
  | [] => positions
  end.

Definition calculateCircularLayout (ns : list GraphNode) : Map Point :=
  match ns with
  | [] => []
  | [node] => [(Node.id node, Point.mk 0 0)]
  | _ =>
      let groups := map snd (nodeGroups ns) in
      let positions :=
        match groups with
        | [nodeIds] =>
            let radius := Rmax 130 (INR (length nodeIds) * 15) in
            placeOnCircle radius (length nodeIds) 0 nodeIds []
        | _ => placeGroups groups 0 []
        end in
      centerLayoutPositions ns positions
  end.

(** *** startLayoutAnimation and its [animate] callback *)

Definition requestFrame (a : Animation) (e : Engine) : Engine :=
  mkEngine (nodes e) (edges e) (layoutState e) (Some (nextFrameId e))
    (targetPositions e) (frames e ++ [(nextFrameId e, a)]) (S (nextFrameId e)).

(** [now] is what [performance.now()] reads. *)
Definition startLayoutAnimation (now : R) (algorithm : LayoutAlgorithm)
    (targets : Map Point) (duration : R) (e : Engine) : Engine :=
  let initial :=
    fold_left (fun m node => mapSet (Node.id node) (Node.position node) m)
      (nodes e) [] in
  requestFrame (mkAnimation now duration initial)
    (mkEngine (nodes e) (edges e) (LState.mk true 0 algorithm now duration)
       (animationFrameId e) targets (frames e) (nextFrameId e)).

Definition interpolate (a : Animation) (targets : Map Point) (easedProgress : R)
    (node : GraphNode) : GraphNode :=
  match mapGet (Node.id node) (initialPositions a), mapGet (Node.id node) targets with
  | Some initial, Some target =>
      Node.setPosition
        (Point.mk
           (Point.x initial + (Point.x target - Point.x initial) * easedProgress)%R
           (Point.y initial + (Point.y target - Point.y initial) * easedProgress)%R)
        node
  | _, _ => node
  end.

Definition animate (a : Animation) (currentTime : R) (e : Engine) : Engine :=
  let elapsed := (currentTime - animStart a)%R in
  let progress := Rmax 0 (Rmin (elapsed / animDuration a) 1) in
  let easedProgress := (1 - (1 - progress) ^ 3)%R in
  let ns := map (interpolate a (targetPositions e) easedProgress) (nodes e) in
  let e1 :=
    mkEngine ns (edges e) (setProgress progress (layoutState e))
      (animationFrameId e) (targetPositions e) (frames e) (nextFrameId e) in
  if (if Rlt_dec progress 1 then true else false)
     && LState.isAnimating (layoutState e1)
  then requestFrame a e1
  else
    mkEngine ns (edges e) (setProgress 1 (setAnimating false (layoutState e1)))
      None [] (frames e) (nextFrameId e).

(** The host runs the callbacks registered for this frame. *)
Definition runFrame (currentTime : R) (e : Engine) : Engine :=
  fold_left (fun e' f => animate (snd f) currentTime e') (frames e)
    (mkEngine (nodes e) (edges e) (layoutState e) (animationFrameId e)
       (targetPositions e) [] (nextFrameId e)).

Definition worldToScreen (worldPoint : Point) (transform : Transform) : Point :=
  Point.mk (Point.x worldPoint * Transform.scale transform + Transform.x transform)%R
           (Point.y worldPoint * Transform.scale transform + Transform.y transform)%R.

(** *** LayoutOptions

    [None] is a property the caller left out; [withDefaults] is the object
    literal of [applyLayout] that spreads [options] over the defaults. *)

Record LayoutOptions := mkOptions {
  iterations : option R;
  springLength : option R;
  springStrength : option R;
  repulsionStrength : option R;
  damping : option R;
  animationDuration : option R;
  centerForce : option R
}.

Record RequiredOptions := mkRequired {
  reqIterations : R;
  reqSpringLength : R;
  reqSpringStrength : R;
  reqRepulsionStrength : R;
  reqDamping : R;
  reqAnimationDuration : R;
  reqCenterForce : R
}.

Definition orDefault (d : R) (o : option R) : R :=
  match o with Some v => v | None => d end.

Definition withDefaults (options : option LayoutOptions) : RequiredOptions :=
  match options with
  | Some o =>
      mkRequired (orDefault 300 (iterations o)) (orDefault 200 (springLength o))
        (orDefault (1 / 10) (springStrength o))
        (orDefault 1000 (repulsionStrength o)) (orDefault (9 / 10) (damping o))
        (orDefault 1500 (animationDuration o))
        (orDefault (1 / 100) (centerForce o))
  | None => mkRequired 300 200 (1 / 10) 1000 (9 / 10) 1500 (1 / 100)
  end.

(** *** calculateForceDirectedLayout

    [positions] and [velocities] hold one object per key, made when the
    key is set and changed in place afterwards, so a change through
    [posA], [velA] and the like is a change of the entry of that key. *)

(** [positions.get(id)!]: every id read was set when the Maps were filled. *)
Definition lookup (k : str) (m : Map Point) : Point :=
  match mapGet k m with
  | Some p => p
  | None => Point.mk 0 0
  end.

Definition addTo (k : str) (dx dy : R) (m : Map Point) : Map Point :=
  match mapGet k m with
  | Some p => mapSet k (Point.mk (Point.x p + dx)%R (Point.y p + dy)%R) m
  | None => m
  end.

(** [Math.sqrt(dx * dx + dy * dy) || 0.1] *)
Definition distanceOrTenth (dx dy : R) : R :=
  let d := sqrt (dx * dx + dy * dy) in
  if Req_dec_T d 0 then (1 / 10)%R else d.

Definition repel (options : RequiredOptions) (positions : Map Point)
    (nodeA : GraphNode) (velocities : Map Point) (nodeB : GraphNode)
    : Map Point :=
  let posA := lookup (Node.id nodeA) positions in
  let posB := lookup (Node.id nodeB) positions in
  let dx := (Point.x posA - Point.x posB)%R in
  let dy := (Point.y posA - Point.y posB)%R in
  let distance := distanceOrTenth dx dy in
  let repulsiveForce := (reqRepulsionStrength options / (distance * distance))%R in
  let fx := (dx / distance * repulsiveForce * 20)%R in
  let fy := (dy / distance * repulsiveForce * 20)%R in
  addTo (Node.id nodeB) (- fx) (- fy) (addTo (Node.id nodeA) fx fy velocities).

(** The two nested loops over [i] and [j > i]. *)
Fixpoint repelAll (options : RequiredOptions) (positions : Map Point)
    (ns : list GraphNode) (velocities : Map Point) : Map Point :=
  match ns with
  | nodeA :: rest =>
      repelAll options positions rest
        (fold_left (repel options positions nodeA) rest velocities)
  | [] => velocities
  end.

Definition attract (options : RequiredOptions) (positions : Map Point)
    (velocities : Map Point) (edge : GraphEdge) : Map Point :=
  match mapGet (Edge.source edge) positions, mapGet (Edge.target edge) positions,
        mapGet (Edge.source edge) velocities, mapGet (Edge.target edge) velocities
  with
  | Some sourcePos, Some targetPos, Some _, Some _ =>
      let dx := (Point.x targetPos - Point.x sourcePos)%R in
      let dy := (Point.y targetPos - Point.y sourcePos)%R in
      let distance := distanceOrTenth dx dy in
      let attractiveForce :=
        (distance * distance / reqSpringLength options
         * reqSpringStrength options)%R in
      let fx := (dx / distance * attractiveForce)%R in
      let fy := (dy / distance * attractiveForce)%R in
      addTo (Edge.target edge) (- fx) (- fy)
        (addTo (Edge.source edge) fx fy velocities)
  | _, _, _, _ => velocities
  end.

Definition pullToCenter (options : RequiredOptions) (positions : Map Point)
    (velocities : Map Point) (node : GraphNode) : Map Point :=
  let pos := lookup (Node.id node) positions in
  addTo (Node.id node) (- (Point.x pos * reqCenterForce options))
    (- (Point.y pos * reqCenterForce options)) velocities.

(** One node of the last loop of an iteration: the velocity is limited by
    the temperature, added to the position and damped. *)
Definition move (options : RequiredOptions) (temperature : R)
    (pv : Map Point * Map Point) (node : GraphNode) : Map Point * Map Point :=
  let vel := lookup (Node.id node) (snd pv) in
  let speed := sqrt (Point.x vel * Point.x vel + Point.y vel * Point.y vel) in
  let limited :=
    if Rgt_dec speed temperature
    then Point.mk (Point.x vel / speed * temperature)%R
                  (Point.y vel / speed * temperature)%R
    else vel in
  (addTo (Node.id node) (Point.x limited) (Point.y limited) (fst pv),
   match mapGet (Node.id node) (snd pv) with
   | Some _ =>
       mapSet (Node.id node)
         (Point.mk (Point.x limited * reqDamping options)%R
                   (Point.y limited * reqDamping options)%R) (snd pv)
   | None => snd pv
   end).

Definition iteration (options : RequiredOptions) (ns : list GraphNode)
    (es : list GraphEdge) (temperature : R) (pv : Map Point * Map Point)
    : Map Point * Map Point :=
  let positions := fst pv in
  let v1 := repelAll options positions ns (snd pv) in
  let v2 := fold_left (attract options positions) es v1 in
  let v3 := fold_left (pullToCenter options positions) ns v2 in
  fold_left (move options temperature) ns (positions, v3).

Fixpoint iterate (count : nat) (options : RequiredOptions) (ns : list GraphNode)
    (es : list GraphEdge) (cooling temperature : R) (pv : Map Point * Map Point)
    : Map Point * Map Point :=
  match count with
  | S count' =>
      iterate count' options ns es cooling
        (Rmax (1 / 10) (temperature - cooling))
        (iteration options ns es temperature pv)
  | O => pv
  end.

(** How often [for (let iteration = 0; iteration < n; iteration++)] runs
    its body: the least natural number that is not below [n]. *)
Definition loopCount (n : R) : nat := Z.to_nat (1 - up (- n)).

Definition calculateForceDirectedLayout (ns : list GraphNode)
    (es : list GraphEdge) (options : RequiredOptions) : Map Point :=
  let positions :=
    fold_left (fun m node => mapSet (Node.id node) (Node.position node) m) ns [] in
  let velocities :=
    fold_left (fun m node => mapSet (Node.id node) (Point.mk 0 0) m) ns [] in
  let area := Rmax 800 (sqrt (INR (length ns)) * 100) in
  let temperature := (area / 10)%R in
  let cooling := (temperature / reqIterations options)%R in
  centerLayoutPositions ns
    (fst (iterate (loopCount (reqIterations options)) options ns es cooling
            temperature (positions, velocities))).

(** *** calculateHierarchicalLayout *)

Definition setHas (k : str) (s : list str) : bool := existsb (Str.eqb k) s.

Definition setAdd (k : str) (s : list str) : list str :=
  if setHas k s then s else s ++ [k].

(** [m.get(k) || 0] *)
Definition getOrZero (k : str) (m : Map nat) : nat :=
  match mapGet k m with
  | Some n => n
  | None => 0
  end.

Definition increment (k : str) (m : Map nat) : Map nat :=
  mapSet k (getOrZero k m + 1) m.

Definition zeroDegrees (ns : list GraphNode) : Map nat :=
  fold_left (fun m node => mapSet (Node.id node) 0 m) ns [].

Definition inDegrees (ns : list GraphNode) (es : list GraphEdge) : Map nat :=
  fold_left (fun m edge => increment (Edge.target edge) m) es (zeroDegrees ns).

Definition outDegrees (ns : list GraphNode) (es : list GraphEdge) : Map nat :=
  fold_left (fun m edge => increment (Edge.source edge) m) es (zeroDegrees ns).

(** [levels], [queue] and [visited] of the breadth-first search. *)
Record Search := mkSearch {
  levels : Map nat;
  queue : list str;
  visited : list str
}.

Definition enqueue (nodeId : str) (level : nat) (s : Search) : Search :=
  mkSearch (mapSet nodeId level (levels s)) (queue s ++ [nodeId])
    (setAdd nodeId (visited s)).

Definition rootNodes (inDegree : Map nat) (ns : list GraphNode) : Search :=
  fold_left
    (fun s node =>
       match mapGet (Node.id node) inDegree with
       | Some O => enqueue (Node.id node) 0 s
       | _ => s
       end)
    ns (mkSearch [] [] []).

(** The node with the most outgoing edges, the first of them among equals;
    the empty string when there is no node. *)
Definition busiestNode (outDegree : Map nat) (ns : list GraphNode) : str :=
  snd (fold_left
         (fun best node =>
            let degree := Z.of_nat (getOrZero (Node.id node) outDegree) in
            if (fst best <? degree)%Z then (degree, Node.id node) else best)
         ns ((-1)%Z, [])).

Definition startNodes (ns : list GraphNode) (es : list GraphEdge) : Search :=
  let s := rootNodes (inDegrees ns es) ns in
  if length (queue s) =? 0 then
    let rootNode := busiestNode (outDegrees ns es) ns in
    if negb (length rootNode =? 0) then enqueue rootNode 0 s else s
  else s.

(** The body of the [while] loop after [queue.shift()]. *)
Definition visitFrom (currentNode : str) (currentLevel : nat)
    (es : list GraphEdge) (s : Search) : Search :=
  fold_left
    (fun s' edge =>
       if Str.eqb (Edge.source edge) currentNode
          && negb (setHas (Edge.target edge) (visited s'))
       then enqueue (Edge.target edge) (currentLevel + 1) s'
       else s')
    es s.

(** [while (queue.length > 0)], at most [fuel] times round. *)
Fixpoint search (fuel : nat) (es : list GraphEdge) (s : Search) : Search :=
  match fuel with
  | S fuel' =>
      match queue s with
      | currentNode :: rest =>
          search fuel' es
            (visitFrom currentNode (getOrZero currentNode (levels s)) es
               (mkSearch (levels s) rest (visited s)))
      | [] => s
      end
  | O => s
  end.

(** Every pass of the loop takes one id off the queue, and an id is put on
    the queue once per node at the start and afterwards only when it is
    new to [visited], which an edge target can be once. *)
Definition searchBudget (ns : list GraphNode) (es : list GraphEdge) : nat :=
  S (length ns + length es).

Definition unvisitedNodes (ns : list GraphNode) (s : Search) : Map nat :=
  fold_left
    (fun lv node =>
       if setHas (Node.id node) (visited s) then lv
       else mapSet (Node.id node) 0 lv)
    ns (levels s).

Fixpoint addToLevel (level : nat) (nodeId : str)
    (groups : list (nat * list str)) : list (nat * list str) :=
  match groups with
  | (l, ids) :: rest =>
      if l =? level then (l, ids ++ [nodeId]) :: rest
      else (l, ids) :: addToLevel level nodeId rest
  | [] => [(level, [nodeId])]
  end.

Definition levelGroups (lv : Map nat) : list (nat * list str) :=
  fold_left (fun g kv => addToLevel (snd kv) (fst kv) g) lv [].

(** [Math.max(...levels.values())], read only when there is a level. *)
Definition maxLevel (lv : Map nat) : nat :=
  fold_left Nat.max (map snd lv) 0.

Fixpoint placeInRow (y startX : R) (index : nat) (nodeIds : list str)
    (positions : Map Point) : Map Point :=
  match nodeIds with
  | nodeId :: rest =>
      placeInRow y startX (S index) rest
        (mapSet nodeId (Point.mk (startX + INR index * 120 + 120 / 2)%R y)
           positions)
  | [] => positions
  end.

Definition placeLevels (top : nat) (groups : list (nat * list str))
    : Map Point :=
  fold_left
    (fun positions g =>
       let y := ((INR (fst g) - INR top / 2) * 170)%R in
       let totalWidth := (INR (length (snd g)) * 120)%R in
       placeInRow y (- totalWidth / 2)%R 0 (snd g) positions)
    groups [].

Definition calculateHierarchicalLayout (ns : list GraphNode)
    (es : list GraphEdge) : Map Point :=
  let s := search (searchBudget ns es) es (startNodes ns es) in
  let lv := unvisitedNodes ns s in
  centerLayoutPositions ns (placeLevels (maxLevel lv) (levelGroups lv)).

(** *** applyLayout *)

Definition applyLayout (now : R) (algorithm : LayoutAlgorithm)
    (options : option LayoutOptions) (e : Engine) : Engine :=
  let e1 := stopLayout e in
  if length (nodes e1) =? 0 then e1
  else
    let layoutOptions := withDefaults options in
    let targets :=
      match algorithm with
      | force_directed =>
          calculateForceDirectedLayout (nodes e1) (edges e1) layoutOptions
      | hierarchical => calculateHierarchicalLayout (nodes e1) (edges e1)
      | circular => calculateCircularLayout (nodes e1)
      end in
    startLayoutAnimation now algorithm targets
      (reqAnimationDuration layoutOptions) e1.

End GraphEngine.


(** ** App.tsx: a parse result on its way into the engine

    The effect that parses the text keeps the nodes of the parse result with
    every position multiplied by [EDGE_LENGTH_SCALE], and
    [handleApplyLayout] hands the nodes and edges it finds there to the
    engine.  The signals of the user interface are not embedded: of
    [graphData] the value is passed, and [monitorLayout], which only reads
    the layout state, is left out. *)

Module App.

Definition EDGE_LENGTH_SCALE : R := 2%R.

Definition scaledNodes (nodes : list GraphNode) : list GraphNode :=
  map (fun node =>
         Node.setPosition
           (Point.mk (Point.x (Node.position node) * EDGE_LENGTH_SCALE)%R
                     (Point.y (Node.position node) * EDGE_LENGTH_SCALE)%R)
           node)
      nodes.

(** The argument of [setGraphData] after a parse. *)
Definition graphDataOf (parseResult : ParseResult) : GraphData :=
  GData.mk (scaledNodes (PResult.nodes parseResult))
    (PResult.edges parseResult) (PResult.metadata parseResult) [].

Definition handleApplyLayout (now : R) (algorithm : LayoutAlgorithm)
    (options : option GraphEngine.LayoutOptions) (currentGraphData : GraphData)
    (graphEngine : GraphEngine.Engine) : GraphEngine.Engine :=
  if length (GData.nodes currentGraphData) =? 0 then graphEngine
  else
    GraphEngine.applyLayout now algorithm options
      (GraphEngine.setData (GData.nodes currentGraphData)
         (GData.edges currentGraphData) graphEngine).

End App.

(** * Vocabulary of the statements

    The predicates and the few functions that the properties below are
    stated with.  None of them is part of the program. *)

Module Vocabulary.

Import MettaParser.

Definition newline : ascii := "010"%char.

(** ** Validator *)

Definition isError (e : ParseError) : Prop := PErr.severity e = Severity.error.
Definition isWarning (e : ParseError) : Prop := PErr.severity e = Severity.warning.

(** Balance of parentheses, stated without the scan of the validator: the
    depth never drops below zero and ends at zero. *)
Fixpoint balancedFrom (depth : nat) (s : str) : bool :=
  match s with
  | c :: s' =>
      if Ascii.eqb c lparen then balancedFrom (S depth) s'
      else if Ascii.eqb c rparen then
        match depth with
        | S d => balancedFrom d s'
        | 0 => false
        end
      else balancedFrom depth s'
  | [] => depth =? 0
  end.

Definition balanced (s : str) : bool := balancedFrom 0 s.

Definition parenFree (s : str) : Prop := ~ In lparen s /\ ~ In rparen s.

(** ** Tokenizer *)

(** Tokens and current token are no longer than [n]. *)
Definition tokBound (n : nat) (st : TokState) : Prop :=
  Forall (fun t => length t <= n) (tokens st) /\ length (current st) <= n.

(** Tokens and current token are made of characters that satisfy [P]. *)
Definition tokChars (P : ascii -> Prop) (st : TokState) : Prop :=
  Forall (Forall P) (tokens st) /\ Forall P (current st).

(** What [tokenize] returns from the state its loop ends in. *)
Definition finish (st : TokState) : list str :=
  if nonBlank (current st) then tokens st ++ [trim (current st)] else tokens st.

(** The current token is complete but not pushed yet. *)
Definition pending (st : TokState) (inRun : bool) : nat :=
  if nonBlank (current st) && inRun then 1 else 0.

(** ** Graph *)

Definition noHypergraph (triples : list Triple) : bool :=
  forallb (fun t => negb (Triple.isHypergraph t)) triples.

Definition nodeIds (r : ParseResult) : list str := map Node.id (PResult.nodes r).
Definition edgeIds (r : ParseResult) : list str := map Edge.id (PResult.edges r).

(** How a node is addressed: a node made for a label carries the id that
    [generateNodeId] derives from the label; an intermediate node carries
    the predicate and a value [k] that the counter took, [lo < k <= hi]. *)
Definition labelAddressed (n : GraphNode) : Prop :=
  Meta.isGenerated (Node.metadata n) = None
  /\ Node.id n = NodeUtils.generateNodeId (Node.label n).

Definition counterAddressed (lo hi : nat) (n : GraphNode) : Prop :=
  Meta.isGenerated (Node.metadata n) = Some true
  /\ exists predicate k,
       lo < k <= hi
       /\ Node.id n = predicate ++ #"-group-" ++ ofNat k
       /\ Node.label n = predicate ++ #" group".

Definition addressed (lo hi : nat) (n : GraphNode) : Prop :=
  labelAddressed n \/ counterAddressed lo hi n.

(** The invariant of the loop over triples: every node is addressed by its
    label or by a value the counter took since [lo]. *)
Definition addressedAcc (lo : nat) (acc : GraphTransformer.Acc) : Prop :=
  lo <= GraphTransformer.hypergraphCounter (GraphTransformer.accState acc)
  /\ Forall (addressed lo
               (GraphTransformer.hypergraphCounter (GraphTransformer.accState acc)))
            (GraphTransformer.accNodes acc).

(** ** Layout *)

(** A node as [createOrUpdateNode] makes it, at a given place. *)
Definition nodeAt (label : str) (px py : R) : GraphNode :=
  Node.mk (NodeUtils.generateNodeId label) label NodeType.entity (Point.mk px py)
    None None None (Meta.mk None (Some 1) None).

Definition outside (worldPos : Point) (node : GraphNode) : Prop :=
  (GraphEngine.nodeRadius < GraphEngine.distanceTo worldPos node)%R.

(** Mean x and mean y of a list of points. *)
Definition centroid (ps : list Point) : Point :=
  Point.mk (GraphEngine.sumX ps / INR (length ps))%R
           (GraphEngine.sumY ps / INR (length ps))%R.

Definition shift (dx dy : R) (kv : str * Point) : str * Point :=
  (fst kv, Point.mk (Point.x (snd kv) + dx)%R (Point.y (snd kv) + dy)%R).

(** The keys of a Map are distinct. *)
Definition wellKeyed (m : GraphEngine.Map Point) : Prop := NoDup (map fst m).

(** There is a group, and no group is empty. *)
Definition populated (groups : list (NodeType * list str)) : Prop :=
  groups <> [] /\ Forall (fun g => snd g <> []) groups.


(** ** Node ids and node arrays *)

Definition idChar (c : ascii) : bool :=
  NodeUtils.isAlnumLower c || Ascii.eqb c NodeUtils.hyphen.

Fixpoint noDoubleHyphen (s : str) : bool :=
  match s with
  | c :: s' =>
      match s' with
      | d :: _ =>
          negb (Ascii.eqb c NodeUtils.hyphen && Ascii.eqb d NodeUtils.hyphen)
          && noDoubleHyphen s'
      | [] => true
      end
  | [] => true
  end.

(** The shape of an id: lower-case letters, digits and single hyphens, with
    no hyphen at either end. *)
Definition cleanId (s : str) : Prop :=
  forallb idChar s = true
  /\ noDoubleHyphen s = true
  /\ firstIs NodeUtils.hyphen s = false
  /\ lastIs NodeUtils.hyphen s = false.

Definition occurrencesOf (n : GraphNode) : nat :=
  match Meta.occurrences (Node.metadata n) with
  | Some k => k
  | None => 0
  end.

Definition totalOccurrences (nodes : list GraphNode) : nat :=
  list_sum (map occurrencesOf nodes).

Definition distinctIds (nodes : list GraphNode) : Prop :=
  NoDup (map Node.id nodes).

(** No white-space character, and at least one character. *)
Definition whiteFree (s : str) : Prop := Forall (fun c => isWhite c = false) s.

Definition word (s : str) : Prop := s <> [] /\ whiteFree s.


(** ** Words and flat facts *)

Definition startsNonWhite (s : str) : Prop :=
  match s with
  | c :: _ => isWhite c = false
  | [] => False
  end.

Definition endsNonWhite (s : str) : Prop := startsNonWhite (rev s).

(** A word without parentheses. *)
Definition atom (s : str) : Prop := word s /\ parenFree s.

(** The line "(w1 w2 ... wn)", with single spaces. *)
Definition flatFact (ws : list str) : str :=
  lparen :: Str.join [space] ws ++ [rparen].


(** The line number of an entry is one of the [n] lines after line [i]. *)
Definition lineWithin (i : Z) (n : nat) (e : ParseError) : Prop :=
  (i < PErr.line e <= i + Z.of_nat n)%Z.


(** ** Edit distance

    The recurrence of the edit distance between the first [i] characters of
    [s] and the first [j] characters of [t]. *)
Definition differ (s t : str) (i j : nat) : nat :=
  if Ascii.eqb (nth i s Ascii.zero) (nth j t Ascii.zero) then 0 else 1.

Fixpoint editAt (s t : str) (j : nat) {struct j} : nat -> nat :=
  match j with
  | 0 => fun i => i
  | S j' =>
      fix row (i : nat) : nat :=
        match i with
        | 0 => S j'
        | S i' =>
            Nat.min (row i' + 1)
              (Nat.min (editAt s t j' (S i') + 1)
                       (editAt s t j' i' + differ s t i' j'))
        end
  end.


(** ** Graphs *)

(** The number of labels a triple mentions. *)
Definition mentions (t : Triple) : nat :=
  length (GraphTransformer.toArray (Triple.subject t))
  + length (GraphTransformer.toArray (Triple.object t)).

Definition totalMentions (triples : list Triple) : nat :=
  list_sum (map mentions triples).

Definition hypergraphCount (triples : list Triple) : nat :=
  length (filter Triple.isHypergraph triples).

(** Both ends of every edge are ids of nodes. *)
Definition anchored (nodes : list GraphNode) (edges : list GraphEdge) : Prop :=
  Forall (fun e => In (Edge.source e) (map Node.id nodes)
                   /\ In (Edge.target e) (map Node.id nodes)) edges.

Definition distinctEdgeIds (edges : list GraphEdge) : Prop :=
  NoDup (map Edge.id edges).

(** The type of a node tells where it comes from: the intermediate nodes,
    and only they, are of type hypergraph. *)
Definition typedByOrigin (n : GraphNode) : Prop :=
  (Meta.isGenerated (Node.metadata n) = Some true
   /\ Node.type n = NodeType.hypergraph)
  \/ (Meta.isGenerated (Node.metadata n) = None
      /\ Node.type n <> NodeType.hypergraph).

(** [e2] goes the other way than [e1], with the same label. *)
Definition reverseOf (e1 e2 : GraphEdge) : Prop :=
  Edge.source e2 = Edge.target e1
  /\ Edge.target e2 = Edge.source e1
  /\ Edge.label e2 = Edge.label e1.

(** What the loop over triples keeps true of its arrays. *)
Definition wellFormedAcc (acc : GraphTransformer.Acc) : Prop :=
  distinctEdgeIds (GraphTransformer.accEdges acc)
  /\ anchored (GraphTransformer.accNodes acc) (GraphTransformer.accEdges acc)
  /\ Forall typedByOrigin (GraphTransformer.accNodes acc).

(** ** The engine between calls *)

(** Where a node stands once an animation towards [targets] has ended. *)
Definition settle (targets : GraphEngine.Map Point) (node : GraphNode)
    : GraphNode :=
  match GraphEngine.mapGet (Node.id node) targets with
  | Some target => Node.setPosition target node
  | None => node
  end.

(** The engine says it is animating exactly when a callback is registered,
    and then it is the only one and its id is the one the engine holds. *)
Definition tidy (e : GraphEngine.Engine) : Prop :=
  match GraphEngine.animationFrameId e with
  | Some id =>
      LState.isAnimating (GraphEngine.layoutState e) = true
      /\ exists a, GraphEngine.frames e = [(id, a)]
  | None =>
      LState.isAnimating (GraphEngine.layoutState e) = false
      /\ GraphEngine.frames e = []
  end.

(** The states an engine gets into through its public methods and the
    frames the host runs. *)
Inductive reachable : GraphEngine.Engine -> Prop :=
| reach_initial : reachable GraphEngine.initial
| reach_setData ns es e :
    reachable e -> reachable (GraphEngine.setData ns es e)
| reach_applyLayout now algorithm options e :
    reachable e -> reachable (GraphEngine.applyLayout now algorithm options e)
| reach_handleNodeDrag nodeId position e :
    reachable e -> reachable (GraphEngine.handleNodeDrag nodeId position e)
| reach_stopLayout e :
    reachable e -> reachable (GraphEngine.stopLayout e)
| reach_runFrame currentTime e :
    reachable e -> reachable (GraphEngine.runFrame currentTime e).

(** A Map of positions with exactly one entry for every id of a node. *)
Definition targetsOf (ns : list GraphNode) (m : GraphEngine.Map Point) : Prop :=
  wellKeyed m /\ forall k, In k (map fst m) <-> In k (map Node.id ns).

(** What the breadth-first search keeps true: [visited] is a set within
    the pool of ids it can ever hold, and [levels] has a level for exactly
    the ids in it. *)
Definition searched (pool : list str) (s : GraphEngine.Search) : Prop :=
  NoDup (GraphEngine.visited s)
  /\ incl (GraphEngine.visited s) pool
  /\ NoDup (map fst (GraphEngine.levels s))
  /\ forall k, In k (map fst (GraphEngine.levels s))
               <-> In k (GraphEngine.visited s).

(** An edge as the transformer makes it: the id is made of the label and
    the two ends, the colour is the colour of the label, and the edge is
    directed exactly when it is a relation. *)
Definition keyedEdge (e : GraphEdge) : Prop :=
  Edge.id e
  = Edge.label e ++ GraphTransformer.dash ++ Edge.source e
    ++ GraphTransformer.dash ++ Edge.target e
  /\ Edge.color e = Some (NodeUtils.getEdgeColor (Edge.label e))
  /\ Edge.directed e
     = match Edge.type e with
       | EdgeType.relation => true
       | EdgeType.hypergraph_connection => false
       end.


(** ** Nesting, lines and targets *)

(** An expression nested [depth] levels deep:
    (a b c), (a (a b c)), (a (a (a b c))), ... *)
Fixpoint nested (depth : nat) : str :=
  match depth with
  | O => #"(a b c)"
  | S d => #"(a " ++ nested d ++ #")"
  end.

(** The entries that carry the line number [k]. *)
Definition onLine (k : Z) (entries : list ParseError) : list ParseError :=
  filter (fun e => (PErr.line e =? k)%Z) entries.

(** The targets that [applyLayout] computes for an algorithm. *)
Definition layoutTargets (algorithm : LayoutAlgorithm)
    (options : option GraphEngine.LayoutOptions) (ns : list GraphNode)
    (es : list GraphEdge) : GraphEngine.Map Point :=
  match algorithm with
  | force_directed =>
      GraphEngine.calculateForceDirectedLayout ns es
        (GraphEngine.withDefaults options)
  | hierarchical => GraphEngine.calculateHierarchicalLayout ns es
  | circular => GraphEngine.calculateCircularLayout ns
  end.

End Vocabulary.

(** Case analysis on every condition of the goal. *)
Ltac split_ifs :=
  repeat match goal with
         | |- context [if ?b then _ else _] => destruct b
         | |- context [match ?o with Some _ => _ | None => _ end] => destruct o
         end.

(** * Properties *)

Import MettaParser Vocabulary.

(** ** Strings *)

Section StringFacts.

Lemma str_eqb_refl (a : str) : Str.eqb a a = true.
Proof.
  induction a as [|c a IH]; simpl; [reflexivity|].
  now rewrite Ascii.eqb_refl, IH.
Qed.

Lemma str_eqb_eq (a b : str) : Str.eqb a b = true <-> a = b.
Proof.
  split.
  - revert b; induction a as [|x a IH]; intros [|y b] H; simpl in H;
      try discriminate; [reflexivity|].
    apply andb_true_iff in H as [Hxy Hab].
    apply Ascii.eqb_eq in Hxy. f_equal; auto.
  - intros ->. apply str_eqb_refl.
Qed.

Lemma str_eqb_neq (a b : str) : Str.eqb a b = false <-> a <> b.
Proof.
  split.
  - intros H E. apply str_eqb_eq in E. congruence.
  - intros H. destruct (Str.eqb a b) eqn:E; [|reflexivity].
    apply str_eqb_eq in E. contradiction.
Qed.

Lemma dropWhite_length (s : str) : length (dropWhite s) <= length s.
Proof.
  induction s as [|c s IH]; simpl; [lia|].
  destruct (isWhite c); simpl; lia.
Qed.

Lemma trim_length (s : str) : length (trim s) <= length s.
Proof.
  unfold trim. rewrite length_rev.
  etransitivity; [apply dropWhite_length|].
  rewrite length_rev. apply dropWhite_length.
Qed.

Lemma dropWhite_In (s : str) (c : ascii) : In c (dropWhite s) -> In c s.
Proof.
  induction s as [|d s IH]; simpl; [tauto|].
  destruct (isWhite d); simpl; tauto.
Qed.

Lemma trim_In (s : str) (c : ascii) : In c (trim s) -> In c s.
Proof.
  unfold trim. intros H.
  apply in_rev in H. apply dropWhite_In in H.
  apply in_rev in H. now apply dropWhite_In.
Qed.

Lemma dropWhite_head (s : str) (c : ascii) :
  isWhite c = false -> dropWhite (c :: s) = c :: s.
Proof. intros H. simpl. now rewrite H. Qed.

(** A string that starts and ends with a character that is not white
    space is its own [trim]. *)
Lemma trim_wrapped (a b : ascii) (m : str) :
  isWhite a = false -> isWhite b = false ->
  trim (a :: m ++ [b]) = a :: m ++ [b].
Proof.
  intros Ha Hb. unfold trim.
  rewrite dropWhite_head by assumption.
  replace (rev (a :: m ++ [b])) with (b :: rev m ++ [a]).
  - rewrite dropWhite_head by assumption.
    simpl. rewrite rev_app_distr, rev_involutive. reflexivity.
  - simpl. rewrite rev_app_distr. reflexivity.
Qed.

Lemma dropWhite_nil (s : str) : dropWhite s = [] <-> forallb isWhite s = true.
Proof.
  induction s as [|c s IH]; simpl; [tauto|].
  destruct (isWhite c); simpl; [assumption|].
  split; discriminate.
Qed.

Lemma forallb_dropWhite (s : str) :
  forallb isWhite (dropWhite s) = forallb isWhite s.
Proof.
  induction s as [|c s IH]; simpl; [reflexivity|].
  destruct (isWhite c) eqn:E; simpl; [assumption|].
  now rewrite E.
Qed.

Lemma forallb_rev (A : Type) (f : A -> bool) (l : list A) :
  forallb f (rev l) = forallb f l.
Proof.
  induction l as [|a l IH]; simpl; [reflexivity|].
  rewrite forallb_app, IH. simpl. rewrite andb_true_r. apply andb_comm.
Qed.

(** [trim] leaves nothing exactly when every character is white space. *)
Lemma trim_blank (s : str) : (length (trim s) =? 0) = forallb isWhite s.
Proof.
  unfold trim. rewrite length_rev.
  destruct (forallb isWhite s) eqn:E.
  - assert (H : dropWhite (rev (dropWhite s)) = []).
    { apply dropWhite_nil. now rewrite forallb_rev, forallb_dropWhite. }
    now rewrite H.
  - destruct (dropWhite (rev (dropWhite s))) eqn:D; [|reflexivity].
    apply dropWhite_nil in D.
    rewrite forallb_rev, forallb_dropWhite in D. congruence.
Qed.

Lemma nonBlank_spec (s : str) : nonBlank s = negb (forallb isWhite s).
Proof. unfold nonBlank. now rewrite trim_blank. Qed.

Lemma splitOn_length (sep : ascii) (s cur l : str) :
  In l (splitOn sep cur s) -> length l <= length cur + length s.
Proof.
  revert cur; induction s as [|c s IH]; intros cur H; simpl in *.
  - destruct H as [<-|[]]. lia.
  - destruct (Ascii.eqb c sep).
    + destruct H as [<-|H]; [lia|].
      apply IH in H. simpl in H. lia.
    + apply IH in H. rewrite length_app in H. simpl in H. lia.
Qed.

Lemma lines_length (text l : str) : In l (lines text) -> length l <= length text.
Proof. intros H. apply splitOn_length in H. simpl in H. lia. Qed.

Lemma splitOn_none (sep : ascii) (s cur : str) :
  ~ In sep s -> splitOn sep cur s = [cur ++ s].
Proof.
  revert cur; induction s as [|c s IH]; intros cur H; simpl.
  - now rewrite app_nil_r.
  - destruct (Ascii.eqb c sep) eqn:E.
    + apply Ascii.eqb_eq in E. subst. exfalso. apply H. now left.
    + rewrite IH.
      * now rewrite <- app_assoc.
      * intros Hin. apply H. now right.
Qed.

Lemma lastIs_last (c d : ascii) (s : str) : lastIs c (s ++ [d]) = Ascii.eqb d c.
Proof. unfold lastIs. rewrite rev_app_distr. reflexivity. Qed.

Lemma slice1_wrapped (a b : ascii) (m : str) : slice1 (a :: m ++ [b]) = m.
Proof. unfold slice1. simpl. apply removelast_last. Qed.

Lemma slice1_length (s : str) : length (slice1 s) <= length s - 1.
Proof.
  unfold slice1. destruct s as [|c s]; simpl; [lia|].
  rewrite Nat.sub_0_r.
  induction s as [|d s IH]; simpl; [lia|].
  destruct s; simpl in *; lia.
Qed.

End StringFacts.

(** ** The recursion budget of [parseExpression] *)

Section Budget.

Lemma tokBound_push (n : nat) (toks : list str) (cur : str) :
  Forall (fun t => length t <= n) toks -> length cur <= S n ->
  Forall (fun t => length t <= S n) (toks ++ [trim cur]).
Proof.
  intros Ht Hc. apply Forall_app. split.
  - eapply Forall_impl; [|exact Ht]. simpl. intros; lia.
  - constructor; [|constructor]. pose proof (trim_length cur). lia.
Qed.

Lemma tokStep_bound (n : nat) (st : TokState) (c : ascii) :
  tokBound n st -> tokBound (S n) (tokStep st c).
Proof.
  intros [Ht Hc].
  assert (Hw : Forall (fun t => length t <= S n) (tokens st)).
  { eapply Forall_impl; [|exact Ht]. simpl. intros; lia. }
  assert (Hcc : length (current st ++ [c]) <= S n).
  { rewrite length_app. simpl. lia. }
  unfold tokStep.
  repeat match goal with
         | |- context [if ?b then _ else _] => destruct b
         end; split; simpl; auto; try lia;
    apply tokBound_push; auto; lia.
Qed.

Lemma tokFold_bound (content : str) (n : nat) (st : TokState) :
  tokBound n st -> tokBound (n + length content) (fold_left tokStep content st).
Proof.
  revert n st; induction content as [|c content IH]; intros n st H; simpl.
  - now rewrite Nat.add_0_r.
  - replace (n + S (length content)) with (S n + length content) by lia.
    apply IH. now apply tokStep_bound.
Qed.

(** A token is never longer than the text it was cut from. *)
Lemma tokenize_length (content t : str) :
  In t (tokenize content) -> length t <= length content.
Proof.
  unfold tokenize.
  pose proof (@tokFold_bound content 0 (mkTok [] [] 0 false)) as H.
  destruct H as [Ht Hc]; [split; [constructor|simpl; lia]|].
  simpl in Ht, Hc.
  set (st := fold_left tokStep content _) in *.
  intros Hin. rewrite Forall_forall in Ht.
  destruct (nonBlank (current st)); [|now apply Ht].
  apply in_app_or in Hin as [Hin|[<-|[]]]; [now apply Ht|].
  pose proof (trim_length (current st)). lia.
Qed.

Lemma parseArgs_ext (rec1 rec2 : str -> option (option ParsedExpression))
    (toks : list str) :
  (forall t, In t toks -> rec1 t = rec2 t) ->
  parseArgs rec1 toks = parseArgs rec2 toks.
Proof.
  induction toks as [|t toks IH]; intros H; simpl; [reflexivity|].
  rewrite IH by (intros; apply H; now right).
  rewrite (H t) by now left. reflexivity.
Qed.

Lemma parseArgs_some (rec : str -> option (option ParsedExpression))
    (toks : list str) :
  (forall t, In t toks -> exists r, rec t = Some r) ->
  exists args, parseArgs rec toks = Some args.
Proof.
  induction toks as [|t toks IH]; intros H; simpl; [eauto|].
  destruct IH as [args Hargs]; [intros; apply H; now right|].
  rewrite Hargs.
  destruct (isWrapped t); [|eauto].
  destruct (H t) as [r Hr]; [now left|].
  rewrite Hr. eauto.
Qed.

Lemma firstIs_nonempty (c : ascii) (s : str) : firstIs c s = true -> 0 < length s.
Proof. destruct s; simpl; [discriminate|lia]. Qed.

(** The tokens of an expression that is wrapped in parentheses are strictly
    shorter than the expression. *)
Lemma token_shorter (expression t : str) :
  firstIs lparen (trim expression) = true ->
  In t (tokenize (trim (slice1 (trim expression)))) ->
  length t < length expression.
Proof.
  intros Hf Hin.
  apply tokenize_length in Hin.
  pose proof (trim_length (slice1 (trim expression))).
  pose proof (slice1_length (trim expression)).
  pose proof (trim_length expression).
  apply firstIs_nonempty in Hf. lia.
Qed.

Lemma parseExpressionFuel_eq (fuel : nat) (expression : str) :
  parseExpressionFuel (S fuel) expression
  = if negb (firstIs lparen (trim expression))
       || negb (lastIs rparen (trim expression))
    then Some None
    else
      if length (tokenize (trim (slice1 (trim expression)))) <? 2 then Some None
      else
        match tokenize (trim (slice1 (trim expression))) with
        | predicate :: rest =>
            match parseArgs (parseExpressionFuel fuel) rest with
            | None => None
            | Some args => Some (Some (Expr predicate args))
            end
        | [] => Some None
        end.
Proof. reflexivity. Qed.

Lemma parseExpressionFuel_enough (fuel : nat) :
  forall expression, length expression < fuel ->
  exists r, parseExpressionFuel fuel expression = Some r.
Proof.
  induction fuel as [|fuel IH]; intros expression Hlen; [lia|].
  rewrite parseExpressionFuel_eq.
  destruct (firstIs lparen (trim expression)) eqn:Hf; cbn [negb orb]; [|eauto].
  destruct (negb (lastIs rparen (trim expression))); [eauto|].
  destruct (length (tokenize (trim (slice1 (trim expression)))) <? 2); [eauto|].
  destruct (tokenize (trim (slice1 (trim expression)))) as [|p rest] eqn:Htok;
    [eauto|].
  destruct (@parseArgs_some (parseExpressionFuel fuel) rest) as [args Hargs].
  - intros t Ht. apply IH.
    assert (length t < length expression); [|lia].
    apply token_shorter; [assumption|]. rewrite Htok. now right.
  - rewrite Hargs. eauto.
Qed.

Lemma parseExpressionFuel_stable (f1 : nat) :
  forall f2 expression, length expression < f1 -> length expression < f2 ->
  parseExpressionFuel f1 expression = parseExpressionFuel f2 expression.
Proof.
  induction f1 as [|f1 IH]; intros [|f2] expression H1 H2; try lia.
  rewrite !parseExpressionFuel_eq.
  destruct (firstIs lparen (trim expression)) eqn:Hf; cbn [negb orb];
    [|reflexivity].
  destruct (negb (lastIs rparen (trim expression))); [reflexivity|].
  destruct (length (tokenize (trim (slice1 (trim expression)))) <? 2);
    [reflexivity|].
  destruct (tokenize (trim (slice1 (trim expression)))) as [|p rest] eqn:Htok;
    [reflexivity|].
  rewrite (@parseArgs_ext (parseExpressionFuel f1) (parseExpressionFuel f2));
    [reflexivity|].
  intros t Ht.
  assert (length t < length expression).
  { apply token_shorter; [assumption|]. rewrite Htok. now right. }
  apply IH; lia.
Qed.

Lemma extractLines_stable (ls : list str) (f1 f2 : nat) :
  (forall l, In l ls -> length l < f1) ->
  (forall l, In l ls -> length l < f2) ->
  extractLines f1 ls = extractLines f2 ls.
Proof.
  induction ls as [|l ls IH]; intros H1 H2; simpl; [reflexivity|].
  rewrite IH by (intros; (apply H1 || apply H2); now right).
  rewrite (@parseExpressionFuel_stable f1 f2).
  - reflexivity.
  - pose proof (trim_length l). specialize (H1 l (or_introl eq_refl)). lia.
  - pose proof (trim_length l). specialize (H2 l (or_introl eq_refl)). lia.
Qed.

Lemma extractLines_enough (ls : list str) (fuel : nat) :
  (forall l, In l ls -> length l < fuel) ->
  exists triples, extractLines fuel ls = Some triples
                  /\ length triples <= length ls.
Proof.
  induction ls as [|l ls IH]; intros H; simpl; [exists []; auto|].
  destruct IH as [ts [Hts Hlen]]; [intros; apply H; now right|].
  rewrite Hts.
  destruct (skipLine (trim l)); [exists ts; split; [reflexivity|lia]|].
  destruct (@parseExpressionFuel_enough fuel (trim l)) as [r Hr].
  - pose proof (trim_length l). specialize (H l (or_introl eq_refl)). lia.
  - rewrite Hr. eexists; split; [reflexivity|].
    destruct r as [e|]; [destruct (expressionToTriple e)|]; simpl; lia.
Qed.

Lemma extractTriples_total (mettaText : str) (k : nat) :
  extractTriplesFuel (S (length mettaText) + k) mettaText
  = Some (extractTriples mettaText).
Proof.
  unfold extractTriples, extractTriplesFuel.
  assert (Hb : forall f, length mettaText < f ->
               forall l, In l (lines mettaText) -> length l < f).
  { intros f Hf l Hl. apply lines_length in Hl. lia. }
  rewrite (@extractLines_stable (lines mettaText) (S (length mettaText) + k)
             (S (length mettaText))) by (apply Hb; lia).
  destruct (@extractLines_enough (lines mettaText) (S (length mettaText)))
    as [ts [Hts _]]; [apply Hb; lia|].
  now rewrite Hts.
Qed.

Lemma extractTriples_count (mettaText : str) :
  length (extractTriples mettaText) <= length (lines mettaText).
Proof.
  unfold extractTriples, extractTriplesFuel.
  destruct (@extractLines_enough (lines mettaText) (S (length mettaText)))
    as [ts [Hts Hlen]].
  - intros l Hl. apply lines_length in Hl. lia.
  - now rewrite Hts.
Qed.

End Budget.

(** ** The validator *)

Section Validator.

Lemma validateLine_severity (i : Z) (raw : str) :
  Forall isError (fst (validateLine i raw))
  /\ Forall isWarning (snd (validateLine i raw)).
Proof.
  unfold validateLine.
  destruct (scanParens (trim raw) 0 0 (-1)) as [[closing parenCount] lastOpen].
  split_ifs; simpl; split; repeat constructor.
Qed.

Lemma validateLines_severity (ls : list str) :
  forall i errors warnings,
    Forall isError errors -> Forall isWarning warnings ->
    Forall isError (fst (validateLines i ls errors warnings))
    /\ Forall isWarning (snd (validateLines i ls errors warnings)).
Proof.
  induction ls as [|raw ls IH]; intros i errors warnings He Hw; simpl; [auto|].
  destruct (validateLine_severity i raw) as [H1 H2].
  destruct (validateLine i raw) as [e w]. simpl in H1, H2.
  apply IH; apply Forall_app; auto.
Qed.

(** What one line pushes ends up in the result, whatever came before. *)
Lemma validateLines_keeps (ls : list str) :
  forall i errors warnings x,
    In x errors -> In x (fst (validateLines i ls errors warnings)).
Proof.
  induction ls as [|raw ls IH]; intros i errors warnings x Hx; simpl; [auto|].
  destruct (validateLine i raw) as [e w].
  apply IH. apply in_or_app. now left.
Qed.

Lemma validateLines_line (ls : list str) :
  forall (k : nat) i errors warnings raw x,
    nth_error ls k = Some raw ->
    In x (fst (validateLine (i + Z.of_nat k) raw)) ->
    In x (fst (validateLines i ls errors warnings)).
Proof.
  induction ls as [|l ls IH]; intros [|k] i errors warnings raw x Hk Hx;
    simpl in Hk; try discriminate.
  - injection Hk as ->. simpl.
    replace (i + Z.of_nat 0)%Z with i in Hx by lia.
    destruct (validateLine i raw) as [e w]. simpl in Hx.
    apply validateLines_keeps. apply in_or_app. now right.
  - simpl. destruct (validateLine i l) as [e w].
    apply IH with (k := k) (raw := raw); [assumption|].
    replace (i + 1 + Z.of_nat k)%Z with (i + Z.of_nat (S k))%Z by lia.
    assumption.
Qed.

Lemma validateSyntax_errors (mettaText : str) :
  Validation.errors (validateSyntax mettaText)
  = fst (validateLines 0 (lines mettaText) [] []).
Proof.
  unfold validateSyntax.
  now destruct (validateLines 0 (lines mettaText) [] []).
Qed.

Lemma validateSyntax_warnings (mettaText : str) :
  Validation.warnings (validateSyntax mettaText)
  = snd (validateLines 0 (lines mettaText) [] []).
Proof.
  unfold validateSyntax.
  now destruct (validateLines 0 (lines mettaText) [] []).
Qed.

Lemma validateSyntax_isValid (mettaText : str) :
  Validation.isValid (validateSyntax mettaText)
  = (length (Validation.errors (validateSyntax mettaText)) =? 0).
Proof.
  unfold validateSyntax.
  now destruct (validateLines 0 (lines mettaText) [] []).
Qed.

(** *** Balance, stated without the scan *)

Lemma scanParens_balanced (s : str) :
  forall depth j lastOpen,
    balancedFrom depth s = true ->
    exists lastOpen', scanParens s j (Z.of_nat depth) lastOpen = (None, 0%Z, lastOpen').
Proof.
  induction s as [|c s IH]; intros depth j lastOpen H; simpl in *.
  - apply Nat.eqb_eq in H. subst. eauto.
  - destruct (Ascii.eqb c lparen).
    + replace (Z.of_nat depth + 1)%Z with (Z.of_nat (S depth)) by lia.
      now apply IH.
    + destruct (Ascii.eqb c rparen); [|now apply IH].
      destruct depth as [|d]; [discriminate|].
      replace (Z.of_nat (S d) - 1)%Z with (Z.of_nat d) by lia.
      destruct (Z.of_nat d <? 0)%Z eqn:E; [apply Z.ltb_lt in E; lia|].
      now apply IH.
Qed.

(** The body of the loop on a line that is wrapped, balanced and longer
    than two characters. *)
Lemma validateLine_wrapped (i : Z) (raw : str) :
  firstIs lparen (trim raw) = true ->
  balanced (trim raw) = true ->
  2 < length (trim raw) ->
  fst (validateLine i raw)
  = if length (splitWhite (trim (slice1 (trim raw)))) <? 2
    then [PErr.mk (i + 1) 1 msgMinimum Severity.error] else [].
Proof.
  intros Hf Hb Hl. unfold validateLine.
  destruct (length (trim raw) =? 0) eqn:E0; [apply Nat.eqb_eq in E0; lia|].
  assert (Hs : firstIs semicolon (trim raw) = false).
  { destruct (trim raw) as [|c t]; [reflexivity|]. simpl in *.
    apply Ascii.eqb_eq in Hf. now subst. }
  rewrite Hs, Hf. simpl.
  destruct (@scanParens_balanced (trim raw) 0 0%Z (-1)%Z Hb) as [lo Hlo].
  simpl in Hlo. rewrite Hlo. simpl.
  destruct (2 <? length (trim raw)) eqn:E2; [|apply Nat.ltb_ge in E2; lia].
  rewrite andb_false_r. reflexivity.
Qed.

End Validator.
(** ** The tokenizer on text without parentheses *)

Section FlatTokens.

Lemma tokenize_finish (content : str) :
  tokenize content = finish (fold_left tokStep content (mkTok [] [] 0 false)).
Proof. reflexivity. Qed.

Lemma nonBlank_snoc (cur : str) (c : ascii) :
  nonBlank (cur ++ [c]) = nonBlank cur || negb (isWhite c).
Proof.
  rewrite !nonBlank_spec, forallb_app. simpl.
  rewrite andb_true_r. apply negb_andb.
Qed.

Lemma space_white : isWhite space = true.
Proof. reflexivity. Qed.

(** Splitting on spaces yields no more tokens than splitting on white space
    yields parts. *)
Lemma tokens_le_parts (s : str) :
  forall st cur inRun emitted,
    parenFree s -> parenDepth st = 0%Z ->
    length (tokens st) + pending st inRun <= emitted ->
    length (finish (fold_left tokStep s st))
    <= emitted + length (splitWhiteFrom cur inRun s).
Proof.
  induction s as [|c s IH]; intros st cur inRun emitted [Hl Hr] Hd Hinv.
  - simpl. unfold finish, pending in *.
    destruct (nonBlank (current st)), inRun; simpl in *;
      rewrite ?length_app; simpl; lia.
  - assert (Hpf : parenFree s).
    { split; intros H; [apply Hl|apply Hr]; now right. }
    assert (El : Ascii.eqb c lparen = false).
    { apply Ascii.eqb_neq. intros ->. apply Hl. now left. }
    assert (Er : Ascii.eqb c rparen = false).
    { apply Ascii.eqb_neq. intros ->. apply Hr. now left. }
    simpl fold_left. simpl splitWhiteFrom.
    unfold tokStep at 2. rewrite El, Er, Hd. simpl.
    destruct (Ascii.eqb c space) eqn:Es.
    + apply Ascii.eqb_eq in Es. subst c. rewrite space_white. simpl.
      unfold pending in Hinv.
      destruct (nonBlank (current st)) eqn:Enb.
      * destruct inRun; simpl in *.
        -- apply IH; auto. unfold pending. simpl.
           rewrite length_app. simpl. lia.
        -- replace (emitted + S (length (splitWhiteFrom [] true s)))
             with (S emitted + length (splitWhiteFrom [] true s)) by lia.
           apply IH; auto. unfold pending. simpl.
           rewrite length_app. simpl. lia.
      * destruct inRun; simpl in *.
        -- apply IH; auto. unfold pending. simpl. rewrite Enb. simpl. lia.
        -- replace (emitted + S (length (splitWhiteFrom [] true s)))
             with (S emitted + length (splitWhiteFrom [] true s)) by lia.
           apply IH; auto. unfold pending. simpl. rewrite Enb. simpl. lia.
    + destruct (isWhite c) eqn:Ew.
      * unfold pending in Hinv.
        destruct inRun; simpl in *.
        -- apply IH; auto. unfold pending. simpl.
           rewrite nonBlank_snoc, Ew, orb_false_r, andb_true_r in *.
           destruct (nonBlank (current st)); lia.
        -- replace (emitted + S (length (splitWhiteFrom [] true s)))
             with (S emitted + length (splitWhiteFrom [] true s)) by lia.
           apply IH; auto. unfold pending. simpl.
           rewrite nonBlank_snoc, Ew, orb_false_r, andb_true_r.
           rewrite andb_false_r in Hinv.
           destruct (nonBlank (current st)); lia.
      * apply IH; auto. unfold pending in *. simpl.
        rewrite andb_false_r.
        destruct (nonBlank (current st) && inRun); lia.
Qed.

Lemma tokenize_le_splitWhite (s : str) :
  parenFree s -> length (tokenize s) <= length (splitWhite s).
Proof.
  intros H. rewrite tokenize_finish. unfold splitWhite.
  apply (@tokens_le_parts s (mkTok [] [] 0 false) [] false 0 H); reflexivity.
Qed.

(** The characters of a token are characters of the text. *)
Lemma Forall_trim (P : ascii -> Prop) (s : str) : Forall P s -> Forall P (trim s).
Proof.
  rewrite !Forall_forall. intros H c Hc. apply H. now apply trim_In.
Qed.

Lemma tokStep_chars (P : ascii -> Prop) (st : TokState) (c : ascii) :
  P c -> tokChars P st -> tokChars P (tokStep st c).
Proof.
  intros Hc [Ht Hcur].
  assert (Hcc : Forall P (current st ++ [c])).
  { apply Forall_app. split; [assumption|]. now constructor. }
  unfold tokStep.
  repeat match goal with
         | |- context [if ?b then _ else _] => destruct b
         end; split; simpl; auto;
    apply Forall_app; split; auto; constructor; auto; now apply Forall_trim.
Qed.

Lemma tokFold_chars (P : ascii -> Prop) (s : str) :
  forall st, Forall P s -> tokChars P st -> tokChars P (fold_left tokStep s st).
Proof.
  induction s as [|c s IH]; intros st Hs Hst; simpl; [assumption|].
  inversion Hs; subst. apply IH; [assumption|]. now apply tokStep_chars.
Qed.

Lemma tokenize_chars (P : ascii -> Prop) (s t : str) :
  Forall P s -> In t (tokenize s) -> Forall P t.
Proof.
  intros Hs Hin. rewrite tokenize_finish in Hin.
  destruct (@tokFold_chars P s (mkTok [] [] 0 false) Hs) as [Ht Hc];
    [split; constructor|].
  unfold finish in Hin. rewrite Forall_forall in Ht.
  destruct (nonBlank _); [|now apply Ht].
  apply in_app_or in Hin as [Hin|[<-|[]]]; [now apply Ht|].
  now apply Forall_trim.
Qed.

Lemma parenFree_trim (s : str) : parenFree s -> parenFree (trim s).
Proof.
  intros [Hl Hr]. split; intros H; [apply Hl|apply Hr]; now apply trim_In.
Qed.

Lemma token_not_wrapped (s t : str) :
  parenFree s -> In t (tokenize s) -> isWrapped t = false.
Proof.
  intros [Hl _] Hin.
  assert (H : Forall (fun c => c <> lparen) t).
  { apply tokenize_chars with (s := s); [|assumption].
    apply Forall_forall. intros c Hc ->. contradiction. }
  unfold isWrapped. destruct t as [|c t]; [reflexivity|].
  inversion H; subst. simpl.
  destruct (Ascii.eqb c lparen) eqn:E; [|reflexivity].
  apply Ascii.eqb_eq in E. contradiction.
Qed.

Lemma lparen_not_white : isWhite lparen = false.
Proof. reflexivity. Qed.

Lemma rparen_not_white : isWhite rparen = false.
Proof. reflexivity. Qed.

Lemma lastIs_wrapped (c a d : ascii) (m : str) :
  lastIs c (a :: m ++ [d]) = Ascii.eqb d c.
Proof. apply (@lastIs_last c d (a :: m)). Qed.

(** A wrapped expression with no inner parenthesis and two parts yields no
    triple: either it does not parse, or it parses to a predicate with a
    single string argument. *)
Lemma parse_two_parts (fuel : nat) (body : str) :
  parenFree body ->
  length (splitWhite (trim body)) = 2 ->
  exists r, parseExpressionFuel (S fuel) (lparen :: body ++ [rparen]) = Some r
            /\ match r with
               | Some e => expressionToTriple e = None
               | None => True
               end.
Proof.
  intros Hpf Hparts.
  rewrite parseExpressionFuel_eq.
  rewrite (@trim_wrapped lparen rparen body lparen_not_white rparen_not_white).
  rewrite lastIs_wrapped, slice1_wrapped.
  change (firstIs lparen (lparen :: body ++ [rparen])) with true.
  change (Ascii.eqb rparen rparen) with true. cbn [negb orb].
  pose proof (@tokenize_le_splitWhite (trim body) (parenFree_trim Hpf)) as Hle.
  rewrite Hparts in Hle.
  pose proof (@token_not_wrapped (trim body)) as Hnw.
  destruct (tokenize (trim body)) as [|p [|a [|b rest]]] eqn:Htok;
    simpl in Hle; try lia.
  - exists None. simpl. auto.
  - exists None. simpl. auto.
  - simpl.
    rewrite (Hnw a) by (try apply parenFree_trim; auto; simpl; auto).
    exists (Some (Expr p [Atom a])). split; reflexivity.
Qed.

End FlatTokens.

(** ** Specified behaviour of the validator and the extractor *)

Section ParserProperties.

Lemma balancedFrom_parenFree (body rest : str) (depth : nat) :
  parenFree body ->
  balancedFrom depth (body ++ rest) = balancedFrom depth rest.
Proof.
  induction body as [|c body IH]; intros [Hl Hr]; simpl; [reflexivity|].
  assert (El : Ascii.eqb c lparen = false).
  { apply Ascii.eqb_neq. intros ->. apply Hl. now left. }
  assert (Er : Ascii.eqb c rparen = false).
  { apply Ascii.eqb_neq. intros ->. apply Hr. now left. }
  rewrite El, Er. apply IH.
  split; intros H; [apply Hl|apply Hr]; now right.
Qed.

Lemma balanced_wrapped (body : str) :
  parenFree body -> balanced (lparen :: body ++ [rparen]) = true.
Proof.
  intros H. unfold balanced. simpl.
  now rewrite balancedFrom_parenFree.
Qed.

Lemma two_parts_nonempty (body : str) :
  length (splitWhite (trim body)) = 2 -> 0 < length body.
Proof.
  destruct body; [discriminate|simpl; lia].
Qed.

Lemma validateLines_single (i : Z) (raw : str) :
  validateLines i [raw] [] [] = validateLine i raw.
Proof.
  simpl. destruct (validateLine i raw) as [e w]. reflexivity.
Qed.

(** *** Nesting and the call stack *)

Lemma nested_S (d : nat) :
  nested (S d) = lparen :: (#"a " ++ nested d) ++ [rparen].
Proof. reflexivity. Qed.

Lemma nested_shape (d : nat) : exists m, nested d = lparen :: m ++ [rparen].
Proof.
  destruct d as [|d].
  - exists #"a b c". reflexivity.
  - exists (#"a " ++ nested d). apply nested_S.
Qed.

Lemma nested_one_line (d : nat) : ~ In newline (nested d).
Proof.
  induction d as [|d IH].
  - cbn. intuition discriminate.
  - rewrite nested_S. cbn [In app lit list_ascii_of_string].
    rewrite in_app_iff. cbn [In]. intros [H|[H|[H|[H|[H|[]]]]]];
      try discriminate. contradiction.
Qed.

Lemma trim_nested (d : nat) : trim (nested d) = nested d.
Proof.
  destruct (nested_shape d) as [m ->].
  apply trim_wrapped; reflexivity.
Qed.

Lemma tokStep_other (st : TokState) (c : ascii) :
  Ascii.eqb c lparen = false -> Ascii.eqb c rparen = false ->
  Ascii.eqb c space = false ->
  tokStep st c = mkTok (tokens st) (current st ++ [c]) (parenDepth st) true.
Proof.
  intros Hl Hr Hs. unfold tokStep. now rewrite Hl, Hr, Hs.
Qed.

Lemma tokStep_close (ts : list str) (cur : str) (k : Z) :
  tokStep (mkTok ts cur (k + 1) true) rparen
  = if (k =? 0)%Z then mkTok (ts ++ [trim (cur ++ [rparen])]) [] k false
    else mkTok ts (cur ++ [rparen]) k true.
Proof.
  unfold tokStep. change (Ascii.eqb rparen lparen) with false.
  change (Ascii.eqb rparen rparen) with true. cbv iota zeta.
  cbn [parenDepth inToken tokens current].
  replace (k + 1 - 1)%Z with k by lia.
  rewrite andb_true_r. reflexivity.
Qed.

Lemma tokStep_space_inside (ts : list str) (cur : str) (k : Z) (b : bool) :
  (0 <= k)%Z ->
  tokStep (mkTok ts cur (k + 1) b) space = mkTok ts (cur ++ [space]) (k + 1) true.
Proof.
  intros H. unfold tokStep. change (Ascii.eqb space lparen) with false.
  change (Ascii.eqb space rparen) with false.
  change (Ascii.eqb space space) with true. cbv iota.
  cbn [parenDepth andb tokens current].
  replace (k + 1 =? 0)%Z with false by (symmetry; apply Z.eqb_neq; lia).
  reflexivity.
Qed.

Lemma tokFold_opening (ts : list str) (cur : str) (k : Z) (b : bool) :
  (0 <= k)%Z ->
  fold_left tokStep #"(a " (mkTok ts cur k b)
  = mkTok ts (cur ++ #"(a ") (k + 1) true.
Proof.
  intros H. cbn [fold_left lit list_ascii_of_string].
  change (tokStep (mkTok ts cur k b) "("%char)
    with (mkTok ts (cur ++ [lparen]) (k + 1) true).
  rewrite (@tokStep_other _ "a"%char) by reflexivity.
  cbn [tokens current parenDepth].
  rewrite (@tokStep_space_inside ts _ k true H).
  rewrite <- !app_assoc. reflexivity.
Qed.

Lemma tokFold_nested (d : nat) :
  forall ts cur k b,
    (0 <= k)%Z ->
    fold_left tokStep (nested d) (mkTok ts cur k b)
    = if (k =? 0)%Z then mkTok (ts ++ [trim (cur ++ nested d)]) [] k false
      else mkTok ts (cur ++ nested d) k true.
Proof.
  induction d as [|d IH]; intros ts cur k b Hk.
  - change (nested 0) with (#"(a " ++ #"b c)").
    rewrite fold_left_app, (tokFold_opening ts cur b Hk).
    cbn [fold_left lit list_ascii_of_string].
    rewrite (@tokStep_other _ "b"%char) by reflexivity.
    cbn [tokens current parenDepth].
    rewrite (@tokStep_space_inside ts _ k true Hk).
    rewrite (@tokStep_other _ "c"%char) by reflexivity.
    cbn [tokens current parenDepth].
    rewrite tokStep_close. rewrite <- !app_assoc. reflexivity.
  - change (nested (S d)) with (#"(a " ++ nested d ++ [rparen]).
    rewrite !fold_left_app, (tokFold_opening ts cur b Hk).
    rewrite IH by lia.
    replace (k + 1 =? 0)%Z with false by (symmetry; apply Z.eqb_neq; lia).
    cbn [fold_left]. rewrite tokStep_close.
    rewrite <- !app_assoc. reflexivity.
Qed.

Lemma tokenize_nested (d : nat) :
  tokenize (#"a " ++ nested d) = [#"a"; nested d].
Proof.
  unfold tokenize. cbv zeta. rewrite fold_left_app.
  change (fold_left tokStep #"a " (mkTok [] [] 0 false))
    with (mkTok [#"a"] [] 0 false).
  rewrite tokFold_nested by lia. cbn [Z.eqb current tokens app].
  rewrite trim_nested. reflexivity.
Qed.

Lemma parseExpressionFuel_nested_step (fuel d : nat) :
  parseExpressionFuel (S fuel) (nested (S d))
  = match parseExpressionFuel fuel (nested d) with
    | None => None
    | Some nested' =>
        Some (Some (Expr #"a" (match nested' with
                               | Some e => [Nested e]
                               | None => []
                               end)))
    end.
Proof.
  rewrite parseExpressionFuel_eq, trim_nested, nested_S.
  rewrite lastIs_wrapped, slice1_wrapped.
  change (firstIs lparen (lparen :: (#"a " ++ nested d) ++ [rparen])) with true.
  change (Ascii.eqb rparen rparen) with true. cbn [negb orb].
  assert (Ht : trim (#"a " ++ nested d) = #"a " ++ nested d).
  { destruct (nested_shape d) as [m ->].
    change (#"a " ++ lparen :: m ++ [rparen])
      with ("a"%char :: (space :: lparen :: m) ++ [rparen]).
    apply trim_wrapped; reflexivity. }
  rewrite Ht, tokenize_nested. cbn [length Nat.ltb Nat.leb parseArgs].
  assert (Hw : isWrapped (nested d) = true).
  { destruct (nested_shape d) as [m ->]. unfold isWrapped.
    rewrite lastIs_wrapped. reflexivity. }
  rewrite Hw. destruct (parseExpressionFuel fuel (nested d)) as [[e|]|];
    reflexivity.
Qed.

(** An expression nested [d] levels deep takes [d + 1] nested calls. *)
Lemma parseExpressionFuel_nested (d : nat) :
  forall fuel,
    (fuel <= d -> parseExpressionFuel fuel (nested d) = None)
    /\ (d < fuel -> exists e, parseExpressionFuel fuel (nested d) = Some (Some e)).
Proof.
  induction d as [|d IH]; intros [|fuel]; split; intros H; try lia;
    try reflexivity.
  - eexists. vm_compute. reflexivity.
  - rewrite parseExpressionFuel_nested_step.
    destruct (IH fuel) as [H1 _]. rewrite H1 by lia. reflexivity.
  - rewrite parseExpressionFuel_nested_step.
    destruct (IH fuel) as [_ [e ->]]; [lia|]. eauto.
Qed.

Lemma extractTriplesOn_nested (stack depth : nat) :
  extractTriplesOn stack (nested depth) = RangeError <-> stack <= depth.
Proof.
  unfold extractTriplesOn, extractTriplesFuel, lines.
  rewrite (@splitOn_none "010"%char (nested depth) [] (@nested_one_line depth)).
  cbn [app extractLines]. rewrite trim_nested.
  assert (Hs : skipLine (nested depth) = false).
  { destruct (nested_shape depth) as [m ->]. reflexivity. }
  rewrite Hs.
  destruct (parseExpressionFuel_nested depth stack) as [H1 H2].
  destruct (le_lt_dec stack depth) as [Hle|Hlt].
  - rewrite (H1 Hle). tauto.
  - destruct (H2 Hlt) as [e ->]. split; [|lia].
    destruct (expressionToTriple e); discriminate.
Qed.

Lemma parseArgs_grows (rec1 rec2 : str -> option (option ParsedExpression))
    (toks : list str) (args : list Arg) :
  (forall t r, In t toks -> rec1 t = Some r -> rec2 t = Some r) ->
  parseArgs rec1 toks = Some args -> parseArgs rec2 toks = Some args.
Proof.
  revert args.
  induction toks as [|t toks IH]; intros args H; cbn [parseArgs];
    [trivial|].
  assert (IH' : forall a, parseArgs rec1 toks = Some a ->
                          parseArgs rec2 toks = Some a).
  { intros a. apply IH. intros t' r Ht'. apply H. now right. }
  destruct (isWrapped t).
  - destruct (rec1 t) as [r|] eqn:E1; [|discriminate].
    rewrite (H t r (or_introl eq_refl) E1).
    destruct (parseArgs rec1 toks) as [a|]; [|discriminate].
    now rewrite (IH' a eq_refl).
  - destruct (parseArgs rec1 toks) as [a|]; [|discriminate].
    now rewrite (IH' a eq_refl).
Qed.

Lemma parseExpressionFuel_grows (f1 : nat) :
  forall f2 expression r, f1 <= f2 ->
  parseExpressionFuel f1 expression = Some r ->
  parseExpressionFuel f2 expression = Some r.
Proof.
  induction f1 as [|f1 IH]; intros [|f2] expression r Hle; try lia;
    [discriminate|discriminate|].
  rewrite !parseExpressionFuel_eq.
  destruct (negb (firstIs lparen (trim expression))
            || negb (lastIs rparen (trim expression))); [trivial|].
  destruct (length (tokenize (trim (slice1 (trim expression)))) <? 2);
    [trivial|].
  destruct (tokenize (trim (slice1 (trim expression)))) as [|p rest];
    [trivial|].
  destruct (parseArgs (parseExpressionFuel f1) rest) as [args|] eqn:E;
    [|discriminate].
  rewrite (@parseArgs_grows (parseExpressionFuel f1) (parseExpressionFuel f2)
             rest args); [trivial| |exact E].
  intros t r' _. apply IH. lia.
Qed.

Lemma extractLines_grows (ls : list str) (f1 f2 : nat) :
  f1 <= f2 ->
  forall triples, extractLines f1 ls = Some triples ->
                  extractLines f2 ls = Some triples.
Proof.
  intros Hle.
  induction ls as [|l ls IH]; intros triples; cbn [extractLines]; [trivial|].
  destruct (skipLine (trim l)); [apply IH|].
  destruct (parseExpressionFuel f1 (trim l)) as [r|] eqn:E; [|discriminate].
  rewrite (@parseExpressionFuel_grows f1 f2 (trim l) r Hle E).
  destruct (extractLines f1 ls) as [ts|]; [|discriminate].
  now rewrite (IH ts eq_refl).
Qed.

Lemma extractTriplesOn_returned (stack : nat) (mettaText : str)
    (triples : list Triple) :
  extractTriplesOn stack mettaText = Returned triples ->
  triples = extractTriples mettaText.
Proof.
  unfold extractTriplesOn.
  destruct (extractTriplesFuel stack mettaText) as [ts|] eqn:E;
    [|discriminate].
  intros [= <-].
  pose proof (extractTriples_total mettaText stack) as Ht.
  unfold extractTriplesFuel in *.
  rewrite (@extractLines_grows (lines mettaText) stack
             (S (length mettaText) + stack) ltac:(lia) ts E) in Ht.
  now injection Ht.
Qed.



(** C6, as the code has it.  For every line of the text that, once
    trimmed, starts with an opening parenthesis, ends with a closing one, is
    balanced and is longer than two characters: if splitting its trimmed
    interior on white space yields fewer than 2 parts, [validateSyntax]
    reports "Expression must have at least a predicate and one argument" for
    that line, at column 1, and the text is not valid.  (The line "()" has
    two characters: the length guard exempts it.) *)
Theorem minimum_content_error (mettaText raw : str) (i : nat) :
  nth_error (lines mettaText) i = Some raw ->
  firstIs lparen (trim raw) = true ->
  lastIs rparen (trim raw) = true ->
  balanced (trim raw) = true ->
  2 < length (trim raw) ->
  length (splitWhite (trim (slice1 (trim raw)))) < 2 ->
  In (PErr.mk (Z.of_nat i + 1) 1 msgMinimum Severity.error)
     (Validation.errors (validateSyntax mettaText))
  /\ Validation.isValid (validateSyntax mettaText) = false.
Proof.
  intros Hnth Hf _ Hb Hlen Hparts.
  assert (Hin : In (PErr.mk (Z.of_nat i + 1) 1 msgMinimum Severity.error)
                   (Validation.errors (validateSyntax mettaText))).
  { rewrite validateSyntax_errors.
    apply validateLines_line with (k := i) (raw := raw); [assumption|].
    rewrite validateLine_wrapped by assumption.
    apply Nat.ltb_lt in Hparts. rewrite Hparts. now left. }
  split; [assumption|].
  rewrite validateSyntax_isValid.
  destruct (Validation.errors (validateSyntax mettaText)); [contradiction|].
  reflexivity.
Qed.

Lemma minimum_content_error_witness :
  In (PErr.mk 1 1 msgMinimum Severity.error)
     (Validation.errors (validateSyntax #"(a)"))
  /\ Validation.isValid (validateSyntax #"(a)") = false.
Proof.
  apply (@minimum_content_error #"(a)" #"(a)" 0); vm_compute;
    try reflexivity; lia.
Defined.

(** C6 as stated fails on the line "()": it is not blank, not a comment,
    starts with an opening parenthesis, ends with a closing one, is balanced
    and its interior splits into a single part, yet no error is reported and
    the text is valid. *)
Lemma empty_parens_reports_nothing :
  ~ (forall (mettaText raw : str) (i : nat),
       nth_error (lines mettaText) i = Some raw ->
       length (trim raw) <> 0 ->
       firstIs semicolon (trim raw) = false ->
       firstIs lparen (trim raw) = true ->
       lastIs rparen (trim raw) = true ->
       balanced (trim raw) = true ->
       length (splitWhite (trim (slice1 (trim raw)))) < 2 ->
       In (PErr.mk (Z.of_nat i + 1) 1 msgMinimum Severity.error)
          (Validation.errors (validateSyntax mettaText))
       /\ Validation.isValid (validateSyntax mettaText) = false).
Proof.
  intros H.
  destruct (H #"()" #"()" 0) as [_ Hvalid]; try reflexivity.
  - vm_compute. discriminate.
  - vm_compute. lia.
  - vm_compute in Hvalid. discriminate.
Qed.

(** C10.  For every single line whose trimmed form is an opening
    parenthesis, an interior without parentheses that splits on white space
    into exactly two parts, and a closing parenthesis: [validateSyntax]
    returns [isValid = true] with an empty error list, [extractTriples]
    returns no triple, and [parse] returns a graph with no node and no edge
    whose error list holds no entry of severity error (it holds the
    warnings of the validator, if any). *)
Theorem flat_pair_valid_but_empty (now : R) (st : Parser.State)
    (mettaText body : str) :
  ~ In newline mettaText ->
  trim mettaText = lparen :: body ++ [rparen] ->
  parenFree body ->
  length (splitWhite (trim body)) = 2 ->
  Validation.isValid (validateSyntax mettaText) = true
  /\ Validation.errors (validateSyntax mettaText) = []
  /\ extractTriples mettaText = []
  /\ PResult.nodes (fst (Parser.parse now st mettaText)) = []
  /\ PResult.edges (fst (Parser.parse now st mettaText)) = []
  /\ Forall isWarning (PResult.errors (fst (Parser.parse now st mettaText))).
Proof.
  intros Hnl Htrim Hpf Hparts.
  assert (Hlines : lines mettaText = [mettaText]).
  { unfold lines. now rewrite splitOn_none. }
  assert (Herr : Validation.errors (validateSyntax mettaText) = []).
  { rewrite validateSyntax_errors, Hlines, validateLines_single.
    rewrite validateLine_wrapped.
    - rewrite Htrim, slice1_wrapped, Hparts. reflexivity.
    - now rewrite Htrim.
    - rewrite Htrim. now apply balanced_wrapped.
    - rewrite Htrim. simpl. rewrite length_app. simpl.
      apply two_parts_nonempty in Hparts. lia. }
  assert (Htriples : extractTriples mettaText = []).
  { unfold extractTriples, extractTriplesFuel. rewrite Hlines.
    cbn [extractLines]. rewrite Htrim.
    change (skipLine (lparen :: body ++ [rparen])) with false. cbv iota.
    destruct (@parse_two_parts (length mettaText) body Hpf Hparts)
      as [r [Hr Hnone]].
    rewrite Hr. destruct r as [e|]; [now rewrite Hnone|reflexivity]. }
  split; [now rewrite validateSyntax_isValid, Herr|].
  split; [assumption|].
  split; [assumption|].
  unfold Parser.parse. rewrite Htriples, Herr. simpl.
  split; [reflexivity|]. split; [reflexivity|].
  rewrite validateSyntax_warnings.
  apply validateLines_severity; constructor.
Qed.

Lemma flat_pair_valid_but_empty_witness :
  Validation.isValid (validateSyntax #"(pred arg)") = true
  /\ Validation.errors (validateSyntax #"(pred arg)") = []
  /\ extractTriples #"(pred arg)" = []
  /\ PResult.nodes (fst (Parser.parse 0%R Parser.initial #"(pred arg)")) = []
  /\ PResult.edges (fst (Parser.parse 0%R Parser.initial #"(pred arg)")) = []
  /\ Forall isWarning
       (PResult.errors (fst (Parser.parse 0%R Parser.initial #"(pred arg)"))).
Proof.
  apply (@flat_pair_valid_but_empty 0%R Parser.initial #"(pred arg)" #"pred arg").
  - vm_compute. intuition discriminate.
  - reflexivity.
  - split; vm_compute; intuition discriminate.
  - reflexivity.
Defined.

End ParserProperties.

(** ** The graph transformer *)

Section TransformerFacts.

Import NodeUtils GraphTransformer.

Lemma updateAt_Forall (A : Type) (P : A -> Prop) (f : A -> A) (l : list A) :
  (forall a, P a -> P (f a)) ->
  forall i, Forall P l -> Forall P (updateAt i f l).
Proof.
  intros Hf. induction l as [|a l IH]; intros [|i] H; simpl; auto;
    inversion H; subst; constructor; auto.
Qed.

Lemma addressed_same (lo hi : nat) (n m : GraphNode) :
  Node.id m = Node.id n -> Node.label m = Node.label n ->
  Meta.isGenerated (Node.metadata m) = Meta.isGenerated (Node.metadata n) ->
  addressed lo hi n -> addressed lo hi m.
Proof.
  unfold addressed, labelAddressed, counterAddressed.
  intros -> -> ->. auto.
Qed.

Lemma addressed_weaken (lo hi hi' : nat) (n : GraphNode) :
  hi <= hi' -> addressed lo hi n -> addressed lo hi' n.
Proof.
  intros Hle [H|[Hg [p [k [Hk H]]]]]; [now left|].
  right. split; [assumption|]. exists p, k. split; [lia|assumption].
Qed.

Lemma createOrUpdateNode_addressed (lo hi : nat) (nodes : list GraphNode)
    (label : str) (position : option Point) :
  Forall (addressed lo hi) nodes ->
  Forall (addressed lo hi) (fst (createOrUpdateNode nodes label position)).
Proof.
  intros H. unfold createOrUpdateNode.
  destruct (findIndex nodes (generateNodeId label) 0); simpl.
  - apply updateAt_Forall; [|assumption].
    intros a. now apply addressed_same.
  - apply Forall_app. split; [assumption|].
    constructor; [|constructor]. left. split; reflexivity.
Qed.

Lemma createNodes_addressed (lo hi : nat) (pos : nat -> Point)
    (labels : list str) :
  forall i nodes,
    Forall (addressed lo hi) nodes ->
    Forall (addressed lo hi) (fst (createNodes pos i labels nodes)).
Proof.
  induction labels as [|l labels IH]; intros i nodes H; simpl; [assumption|].
  pose proof (@createOrUpdateNode_addressed lo hi nodes l (Some (pos i)) H) as H1.
  destruct (createOrUpdateNode nodes l (Some (pos i))) as [nodes1 r].
  specialize (IH (S i) nodes1 H1).
  destruct (createNodes pos (S i) labels nodes1) as [nodes2 refs].
  assumption.
Qed.

Lemma setProperties_addressed (lo hi : nat) (predicate : str) (n : GraphNode) :
  addressed lo hi n -> addressed lo hi (setProperties predicate n).
Proof.
  apply addressed_same; unfold setProperties;
    destruct (Node.color n); simpl;
    match goal with |- context [if ?b then _ else _] => destruct b end;
    reflexivity.
Qed.

Lemma setNodeProperties_addressed (lo hi : nat) (refs : list nat)
    (predicate : str) :
  forall nodes, Forall (addressed lo hi) nodes ->
                Forall (addressed lo hi) (setNodeProperties refs predicate nodes).
Proof.
  unfold setNodeProperties.
  induction refs as [|r refs IH]; intros nodes H; simpl; [assumption|].
  apply IH. apply updateAt_Forall; [|assumption].
  apply setProperties_addressed.
Qed.

Lemma processTriple_addressed (lo : nat) (acc : Acc) (index : nat)
    (triple : Triple) :
  addressedAcc lo acc -> addressedAcc lo (processTriple acc index triple).
Proof.
  intros [Hlo H]. unfold addressedAcc, processTriple.
  destruct (Triple.isHypergraph triple).
  - unfold createHypergraphStructures, processHypergraphTriple.
    assert (H' : Forall (addressed lo (S (hypergraphCounter (accState acc))))
                   (accNodes acc)).
    { eapply Forall_impl; [|exact H]. intros n. apply addressed_weaken. lia. }
    match goal with
    | |- context [createNodes ?p ?i ?l ?n] =>
        pose proof (@createNodes_addressed lo _ p l i n H') as H1;
        destruct (createNodes p i l n) as [nodes1 refs]
    end.
    simpl in H1.
    destruct (hasIntermediate _); simpl; (split; [lia|]);
      apply setNodeProperties_addressed; [|assumption].
    apply Forall_app. split; [assumption|].
    constructor; [|constructor]. right. split; [reflexivity|].
    eexists _, _. split; [|split; reflexivity]. lia.
  - unfold processSimpleTriple.
    match goal with
    | |- context [createNodes ?p ?i ?l (accNodes acc)] =>
        pose proof (@createNodes_addressed lo _ p l i (accNodes acc) H) as H1;
        destruct (createNodes p i l (accNodes acc)) as [nodes1 refs1]
    end.
    simpl in H1.
    match goal with
    | |- context [createNodes ?p ?i ?l nodes1] =>
        pose proof (@createNodes_addressed lo _ p l i nodes1 H1) as H2;
        destruct (createNodes p i l nodes1) as [nodes2 refs2]
    end.
    simpl in *. split; [assumption|]. now apply setNodeProperties_addressed.
Qed.

Lemma processTriples_addressed (lo : nat) (triples : list Triple) :
  forall index acc,
    addressedAcc lo acc -> addressedAcc lo (processTriples triples index acc).
Proof.
  induction triples as [|t triples IH]; intros index acc H; simpl; [assumption|].
  apply IH. now apply processTriple_addressed.
Qed.

(** Only a hypergraph triple reads or advances the counter. *)
Lemma processTriples_state (triples : list Triple) :
  forall index acc,
    noHypergraph triples = true ->
    accState (processTriples triples index acc) = accState acc.
Proof.
  induction triples as [|t triples IH]; intros index acc H; simpl in *;
    [reflexivity|].
  apply andb_true_iff in H as [Ht H].
  rewrite IH by assumption.
  unfold processTriple. destruct (Triple.isHypergraph t); [discriminate|].
  now destruct (processSimpleTriple _ _ _ _).
Qed.

(** *** detectBidirectionalRelationships *)

Lemma hasKey_false (keys : list str) (k : str) :
  ~ In k keys -> hasKey keys k = false.
Proof.
  intros H. unfold hasKey.
  destruct (existsb (Str.eqb k) keys) eqn:E; [|reflexivity].
  apply existsb_exists in E as [x [Hx Hk]].
  apply str_eqb_eq in Hk. subst. contradiction.
Qed.

Lemma secondPass_distinct (edges : list GraphEdge) :
  forall processed,
    NoDup (map forwardKey (processed ++ edges)) ->
    secondPass edges processed (map forwardKey processed) = processed ++ edges.
Proof.
  induction edges as [|e edges IH]; intros processed H; simpl.
  - now rewrite app_nil_r.
  - rewrite hasKey_false.
    + replace (map forwardKey processed ++ [forwardKey e])
        with (map forwardKey (processed ++ [e])) by (now rewrite map_app).
      rewrite IH; rewrite <- app_assoc; [reflexivity|assumption].
    + rewrite map_app in H. simpl in H.
      apply NoDup_remove_2 in H. intros Hin. apply H.
      apply in_or_app. now left.
Qed.

(** When no two edges share a forward key, nothing is dropped. *)
Lemma detect_distinct_keys (edges : list GraphEdge) :
  NoDup (map forwardKey edges) ->
  detectBidirectionalRelationships edges = edges.
Proof.
  intros H. apply (@secondPass_distinct edges [] H).
Qed.

End TransformerFacts.

(** ** Specified behaviour of parsing and of the graph it builds *)

Section GraphProperties.

Import NodeUtils GraphTransformer.

Lemma parse_nodes (now : R) (st : Parser.State) (mettaText : str) :
  PResult.nodes (fst (Parser.parse now st mettaText))
  = accNodes (processTriples (extractTriples mettaText) 0
                (mkAcc [] [] [] (Parser.graphTransformer st))).
Proof. reflexivity. Qed.

Lemma parse_edges (now : R) (st : Parser.State) (mettaText : str) :
  PResult.edges (fst (Parser.parse now st mettaText))
  = detectBidirectionalRelationships
      (accEdges (processTriples (extractTriples mettaText) 0
                   (mkAcc [] [] [] (Parser.graphTransformer st)))).
Proof. reflexivity. Qed.

Lemma parse_state (now : R) (st : Parser.State) (mettaText : str) :
  Parser.graphTransformer (snd (Parser.parse now st mettaText))
  = accState (processTriples (extractTriples mettaText) 0
                (mkAcc [] [] [] (Parser.graphTransformer st))).
Proof. reflexivity. Qed.

(** C1, as the code has it.  In the result of every parse each node is
    either made for a label, and then its id is [generateNodeId] of the
    label, or a hypergraph intermediate node, and then its id is the
    predicate, "-group-" and a value that the transformer's counter took
    during this parse (above its value before, up to its value after).  For
    every text that yields no hypergraph triple, two successive parses on
    the same parser yield the same node ids and the same edge ids. *)
Theorem reparse_same_ids (now1 now2 : R) (st : Parser.State) (mettaText : str) :
  let r1 := Parser.parse now1 st mettaText in
  let r2 := Parser.parse now2 (snd r1) mettaText in
  Forall (addressed (hypergraphCounter (Parser.graphTransformer st))
            (hypergraphCounter (Parser.graphTransformer (snd r1))))
         (PResult.nodes (fst r1))
  /\ (noHypergraph (extractTriples mettaText) = true ->
      nodeIds (fst r1) = nodeIds (fst r2) /\ edgeIds (fst r1) = edgeIds (fst r2)).
Proof.
  intros r1 r2. split.
  - unfold r1. rewrite parse_nodes, parse_state.
    apply processTriples_addressed. split; [apply le_n|constructor].
  - intros H. unfold nodeIds, edgeIds, r2.
    rewrite !parse_nodes, !parse_edges.
    unfold r1. rewrite parse_state, processTriples_state by assumption.
    split; reflexivity.
Qed.

Lemma reparse_same_ids_witness :
  let mettaText := #"(gender Chandler M)" in
  let r1 := Parser.parse 0%R Parser.initial mettaText in
  let r2 := Parser.parse 1%R (snd r1) mettaText in
  nodeIds (fst r1) = nodeIds (fst r2) /\ edgeIds (fst r1) = edgeIds (fst r2).
Proof.
  apply (@reparse_same_ids 0%R 1%R Parser.initial #"(gender Chandler M)").
  vm_compute. reflexivity.
Defined.

(** C1 as stated fails: parsing "(believes Alice (likes Bob Carol))" twice
    on a fresh parser gives the intermediate node the id believes-group-1
    the first time and believes-group-2 the second time. *)
Lemma reparse_changes_intermediate_id :
  ~ (forall (now1 now2 : R) (st : Parser.State) (mettaText : str),
       let r1 := Parser.parse now1 st mettaText in
       let r2 := Parser.parse now2 (snd r1) mettaText in
       (forall i, In i (nodeIds (fst r1)) <-> In i (nodeIds (fst r2)))
       /\ (forall i, In i (edgeIds (fst r1)) <-> In i (edgeIds (fst r2)))).
Proof.
  intros H.
  destruct (H 0%R 0%R Parser.initial #"(believes Alice (likes Bob Carol))")
    as [Hn _].
  destruct (Hn #"believes-group-1") as [Hn1 _].
  assert (Hin : In #"believes-group-1"
                  (nodeIds (fst (Parser.parse 0%R Parser.initial
                                   #"(believes Alice (likes Bob Carol))")))).
  { vm_compute. tauto. }
  apply Hn1 in Hin. vm_compute in Hin.
  repeat (destruct Hin as [Hin|Hin]; [discriminate|]). exact Hin.
Qed.

(** C2.  The line "(believes Alice (likes Bob Carol))" yields exactly one
    HypergraphStructure, with subjects [Alice] and objects [likes, Bob,
    Carol]; the nodes are those of Alice, likes, Bob and Carol, of type
    entity, followed by exactly one intermediate node of type hypergraph;
    the edges are exactly four undirected hypergraph_connection edges, one
    from each of the four nodes to the intermediate node.  These nodes and
    edges are the ones [parse] returns.  The id of the intermediate node is
    believes-group-n with n the successor of the transformer's counter:
    believes-group-1 on a fresh parser. *)
Theorem hypergraph_line_graph (now : R) (st : Parser.State) :
  let mettaText := #"(believes Alice (likes Bob Carol))" in
  let counter := hypergraphCounter (Parser.graphTransformer st) in
  let group := #"believes-group-" ++ ofNat (S counter) in
  let g := fst (transformTriplestoGraph now (Parser.graphTransformer st)
                  (extractTriples mettaText)) in
  map (fun h => (Hyper.predicate h, Hyper.subjects h, Hyper.objects h,
                 Hyper.intermediateNodeId h))
      (GData.hypergraphs g)
    = [(#"believes", [#"Alice"], [#"likes"; #"Bob"; #"Carol"], Some group)]
  /\ map (fun n => (Node.label n, Node.id n, Node.type n)) (GData.nodes g)
     = [(#"Alice", #"alice", NodeType.entity);
        (#"likes", #"likes", NodeType.entity);
        (#"Bob", #"bob", NodeType.entity);
        (#"Carol", #"carol", NodeType.entity);
        (#"believes group", group, NodeType.hypergraph)]
  /\ map (fun e => (Edge.source e, Edge.target e, Edge.directed e, Edge.type e))
         (GData.edges g)
     = [(#"alice", group, false, EdgeType.hypergraph_connection);
        (#"likes", group, false, EdgeType.hypergraph_connection);
        (#"bob", group, false, EdgeType.hypergraph_connection);
        (#"carol", group, false, EdgeType.hypergraph_connection)]
  /\ PResult.nodes (fst (Parser.parse now st mettaText)) = GData.nodes g
  /\ PResult.edges (fst (Parser.parse now st mettaText)) = GData.edges g
  /\ (counter = 0 -> group = #"believes-group-1").
Proof.
  repeat split; try (vm_compute; reflexivity).
  intros ->. reflexivity.
Qed.

Lemma hypergraph_line_graph_witness :
  let mettaText := #"(believes Alice (likes Bob Carol))" in
  let g := fst (transformTriplestoGraph 0%R GraphTransformer.initial
                  (extractTriples mettaText)) in
  map (fun n => (Node.label n, Node.id n, Node.type n)) (GData.nodes g)
    = [(#"Alice", #"alice", NodeType.entity);
       (#"likes", #"likes", NodeType.entity);
       (#"Bob", #"bob", NodeType.entity);
       (#"Carol", #"carol", NodeType.entity);
       (#"believes group", #"believes-group-1", NodeType.hypergraph)].
Proof.
  destruct (@hypergraph_line_graph 0%R Parser.initial)
    as [_ [Hnodes [_ [_ [_ Hfresh]]]]].
  rewrite <- Hfresh by reflexivity. exact Hnodes.
Defined.

(** C3.  The line "(gender Chandler M)" on two lines yields exactly two
    nodes, one for Chandler and one for M, each with occurrences = 2, and
    exactly one edge: a directed relation edge from the Chandler node to the
    M node.  The edge is there once already in the array of edges that the
    loop over the triples builds, before the pass over the edges that
    follows it: the second line finds the id of the edge in the array and
    adds nothing ([addEdge] is the body of the loops of
    [createEdgesBetweenNodes]). *)
Theorem repeated_fact_graph (now : R) (st : Parser.State) :
  let mettaText := #"(gender Chandler M)" ++ [newline] ++ #"(gender Chandler M)" in
  let r := fst (Parser.parse now st mettaText) in
  map (fun n => (Node.label n, Node.id n, Meta.occurrences (Node.metadata n)))
      (PResult.nodes r)
    = [(#"Chandler", #"chandler", Some 2); (#"M", #"m", Some 2)]
  /\ map (fun e => (Edge.id e, Edge.source e, Edge.target e, Edge.label e,
                    Edge.directed e, Edge.type e))
         (PResult.edges r)
     = [(#"gender-chandler-m", #"chandler", #"m", #"gender", true,
         EdgeType.relation)]
  /\ map Edge.id
         (accEdges (processTriples (extractTriples mettaText) 0
                      (mkAcc [] [] [] (Parser.graphTransformer st))))
     = [#"gender-chandler-m"]
  /\ (forall edges edge,
        In edge edges -> Edge.id edge = #"gender-chandler-m" ->
        addEdge #"gender" true EdgeType.relation #"chandler" #"m" edges = edges).
Proof.
  split; [vm_compute; reflexivity|].
  split; [vm_compute; reflexivity|].
  split; [vm_compute; reflexivity|].
  intros edges edge Hin Hid. unfold addEdge. cbv zeta.
  replace (edgeExists edges (#"gender" ++ dash ++ #"chandler" ++ dash ++ #"m"))
    with true; [reflexivity|].
  symmetry. unfold edgeExists. apply existsb_exists.
  exists edge. split; [assumption|]. rewrite Hid. reflexivity.
Qed.

(** C5 at a failing input.  The text
      (y-a x x)
      (a x x-y)
      (a x-y x)
    gives [detectBidirectionalRelationships] three edges, among them the
    pair x -> x-y and x-y -> x with the label a.  The first edge, x -> x
    with the label y-a, has the forward key x-x-y-a, which is also the
    forward key of x -> x-y with the label a: the first pass records the
    pair (and the loop x -> x as a pair with itself), and the output keeps
    x-y -> x and drops x -> x-y. *)
Theorem bidirectional_pair_collapsed :
  let mettaText :=
    #"(y-a x x)" ++ [newline] ++ #"(a x x-y)" ++ [newline] ++ #"(a x-y x)" in
  let edges :=
    accEdges (processTriples (extractTriples mettaText) 0
                (mkAcc [] [] [] GraphTransformer.initial)) in
  map (fun e => (Edge.source e, Edge.target e, Edge.label e, Edge.directed e)) edges
    = [(#"x", #"x", #"y-a", true);
       (#"x", #"x-y", #"a", true);
       (#"x-y", #"x", #"a", true)]
  /\ map (fun e => (Edge.source e, Edge.target e, Edge.label e, Edge.directed e))
         (detectBidirectionalRelationships edges)
     = [(#"x", #"x", #"y-a", true);
        (#"x-y", #"x", #"a", true)]
  /\ bidirectionalPairs edges = [#"x-x-y-a|x-x-y-a"; #"x-x-y-a|x-y-x-a"]
  /\ map (fun e => (Edge.source e, Edge.target e, Edge.label e))
         (PResult.edges (fst (Parser.parse 0%R Parser.initial mettaText)))
     = [(#"x", #"x", #"y-a"); (#"x-y", #"x", #"a")].
Proof.
  repeat split; vm_compute; reflexivity.
Qed.

End GraphProperties.

(** ** The layout engine *)

Section EngineFacts.

Import GraphEngine.

Open Scope R_scope.

(** *** Hit test *)

(** [getNodeAtPosition] answers with the first node of the array that lies
    within the radius, and with nothing exactly when no node does. *)
Lemma firstWithin_spec (worldPos : Point) (ns : list GraphNode) :
  match firstWithin worldPos ns with
  | Some node =>
      exists before after,
        ns = (before ++ node :: after)%list
        /\ distanceTo worldPos node <= nodeRadius
        /\ Forall (outside worldPos) before
  | None => Forall (outside worldPos) ns
  end.
Proof.
  induction ns as [|n ns IH]; simpl; [constructor|].
  destruct (Rle_dec (distanceTo worldPos n) nodeRadius) as [Hle|Hgt].
  - exists [], ns. repeat split; [assumption|constructor].
  - assert (Hout : outside worldPos n) by (unfold outside; lra).
    destruct (firstWithin worldPos ns) as [m|].
    + destruct IH as [before [after [-> [Hm Hb]]]].
      exists (n :: before), after. repeat split; [assumption|].
      now constructor.
    + now constructor.
Qed.

(** *** Centroid *)

Lemma fold_sum (A : Type) (f : A -> R) (l : list A) :
  forall a, fold_left (fun acc p => acc + f p) l a
            = a + fold_left (fun acc p => acc + f p) l 0.
Proof.
  induction l as [|p l IH]; intros a; simpl; [ring|].
  rewrite IH. rewrite (IH (0 + f p)). ring.
Qed.

Lemma sumX_cons (p : Point) (ps : list Point) :
  sumX (p :: ps) = Point.x p + sumX ps.
Proof. unfold sumX. simpl. rewrite fold_sum. ring. Qed.

Lemma sumY_cons (p : Point) (ps : list Point) :
  sumY (p :: ps) = Point.y p + sumY ps.
Proof. unfold sumY. simpl. rewrite fold_sum. ring. Qed.

Lemma sumX_shift (dx dy : R) (m : Map Point) :
  sumX (map snd (map (shift dx dy) m)) = sumX (map snd m) + INR (length m) * dx.
Proof.
  induction m as [|kv m IH]; [unfold sumX; simpl; ring|].
  change (length (kv :: m)) with (S (length m)). rewrite S_INR.
  simpl map. rewrite !sumX_cons, IH. simpl. ring.
Qed.

Lemma sumY_shift (dx dy : R) (m : Map Point) :
  sumY (map snd (map (shift dx dy) m)) = sumY (map snd m) + INR (length m) * dy.
Proof.
  induction m as [|kv m IH]; [unfold sumY; simpl; ring|].
  change (length (kv :: m)) with (S (length m)). rewrite S_INR.
  simpl map. rewrite !sumY_cons, IH. simpl. ring.
Qed.

Lemma mapSet_fresh (V : Type) (k : str) (v : V) (m : Map V) :
  ~ In k (map fst m) -> mapSet k v m = (m ++ [(k, v)])%list.
Proof.
  induction m as [|[k' v'] m IH]; intros H; simpl; [reflexivity|].
  destruct (Str.eqb k' k) eqn:E.
  - apply str_eqb_eq in E. subst. exfalso. apply H. now left.
  - rewrite IH; [reflexivity|]. intros Hin. apply H. now right.
Qed.

Lemma fold_mapSet_distinct (dx dy : R) (m : Map Point) :
  forall acc,
    NoDup (map fst (acc ++ m)%list) ->
    fold_left
      (fun centered kv =>
         mapSet (fst kv)
           (Point.mk (Point.x (snd kv) + dx) (Point.y (snd kv) + dy)) centered)
      m acc
    = (acc ++ map (shift dx dy) m)%list.
Proof.
  induction m as [|kv m IH]; intros acc H; simpl; [now rewrite app_nil_r|].
  rewrite mapSet_fresh.
  - rewrite IH.
    + rewrite <- app_assoc. reflexivity.
    + rewrite !map_app in *. simpl in *. rewrite <- app_assoc. exact H.
  - rewrite map_app in H. simpl in H. apply NoDup_remove_2 in H.
    intros Hin. apply H. apply in_or_app. now left.
Qed.

(** The centering pass that ends the three layout computations puts the
    centroid of a non-empty target map on the centroid of the nodes. *)
Lemma centerLayoutPositions_centroid (ns : list GraphNode) (positions : Map Point) :
  positions <> [] ->
  wellKeyed positions ->
  centroid (map snd (centerLayoutPositions ns positions))
  = centroid (map Node.position ns).
Proof.
  intros Hne Hnd. unfold centerLayoutPositions.
  destruct positions as [|kv m]; [contradiction|].
  change (length (kv :: m) =? 0)%nat with false. cbv iota.
  rewrite (@fold_mapSet_distinct _ _ (kv :: m) [] Hnd).
  rewrite app_nil_l. unfold centroid.
  rewrite sumX_shift, sumY_shift, !length_map.
  set (n := INR (length (kv :: m))).
  assert (Hn : n <> 0).
  { unfold n. apply not_0_INR. discriminate. }
  set (cx := sumX (map Node.position ns) / INR (length ns)).
  set (cy := sumY (map Node.position ns) / INR (length ns)).
  f_equal; field; exact Hn.
Qed.

(** *** The circular layout *)

Lemma mapSet_keys (V : Type) (k : str) (v : V) (m : Map V) (k' : str) :
  In k' (map fst (mapSet k v m)) -> k' = k \/ In k' (map fst m).
Proof.
  induction m as [|[k0 v0] m IH]; simpl.
  - intros [<-|[]]. now left.
  - destruct (Str.eqb k0 k); simpl; intros [<-|H]; auto.
    destruct (IH H); auto.
Qed.

Lemma mapSet_wellKeyed (k : str) (v : Point) (m : Map Point) :
  wellKeyed m -> wellKeyed (mapSet k v m).
Proof.
  unfold wellKeyed. induction m as [|[k0 v0] m IH]; simpl; intros H.
  - constructor; [intros []|constructor].
  - inversion H as [|? ? Hnin Hnd]; subst.
    destruct (Str.eqb k0 k) eqn:E; simpl; [now constructor|].
    constructor; [|now apply IH].
    intros Hin. apply mapSet_keys in Hin as [->|Hin]; [|contradiction].
    rewrite str_eqb_refl in E. discriminate.
Qed.

Lemma mapSet_nonempty (k : str) (v : Point) (m : Map Point) : mapSet k v m <> [].
Proof.
  destruct m as [|[k0 v0] m]; simpl; [discriminate|].
  destruct (Str.eqb k0 k); discriminate.
Qed.

Lemma placeOnCircle_wellKeyed (radius : R) (count : nat) (nodeIds : list str) :
  forall index positions,
    wellKeyed positions ->
    wellKeyed (placeOnCircle radius count index nodeIds positions).
Proof.
  induction nodeIds as [|i nodeIds IH]; intros index positions H; simpl;
    [assumption|].
  apply IH. now apply mapSet_wellKeyed.
Qed.

Lemma placeOnCircle_nonempty (radius : R) (count : nat) (nodeIds : list str) :
  forall index positions,
    nodeIds <> [] \/ positions <> [] ->
    placeOnCircle radius count index nodeIds positions <> [].
Proof.
  induction nodeIds as [|i nodeIds IH]; intros index positions H; simpl.
  - destruct H as [H|H]; [congruence|assumption].
  - apply IH. right. apply mapSet_nonempty.
Qed.

Lemma placeGroups_wellKeyed (groups : list (list str)) :
  forall groupIndex positions,
    wellKeyed positions -> wellKeyed (placeGroups groups groupIndex positions).
Proof.
  induction groups as [|g groups IH]; intros groupIndex positions H; simpl;
    [assumption|].
  apply IH. now apply placeOnCircle_wellKeyed.
Qed.

Lemma placeGroups_nonempty (groups : list (list str)) :
  forall groupIndex positions,
    (exists g, In g groups /\ g <> []) \/ positions <> [] ->
    placeGroups groups groupIndex positions <> [].
Proof.
  induction groups as [|g groups IH]; intros groupIndex positions H; simpl.
  - destruct H as [[g [[] _]]|H]. assumption.
  - apply IH. destruct H as [[g' [[->|Hin] Hne]]|H].
    + right. apply placeOnCircle_nonempty. now left.
    + left. eauto.
    + right. apply placeOnCircle_nonempty. now right.
Qed.

Lemma addToGroup_populated (key : NodeType) (nodeId : str)
    (groups : list (NodeType * list str)) :
  Forall (fun g => snd g <> []) groups -> populated (addToGroup key nodeId groups).
Proof.
  induction groups as [|[k ids] groups IH]; intros H; simpl.
  - split; [discriminate|]. constructor; [discriminate|constructor].
  - inversion H; subst.
    destruct (NodeType.eqb k key).
    + split; [discriminate|]. constructor; [|assumption].
      simpl. destruct ids; discriminate.
    + destruct (IH H3) as [_ Hall].
      split; [discriminate|]. now constructor.
Qed.

Lemma nodeGroups_populated (ns : list GraphNode) :
  ns <> [] -> populated (nodeGroups ns).
Proof.
  unfold nodeGroups.
  assert (H : forall l g, populated g ->
            populated (fold_left
                         (fun g node => addToGroup (Node.type node) (Node.id node) g)
                         l g)).
  { induction l as [|n l IH]; intros g Hg; simpl; [assumption|].
    apply IH. apply addToGroup_populated. apply Hg. }
  destruct ns as [|n ns]; [congruence|]. intros _.
  cbn [fold_left]. apply H. apply addToGroup_populated. constructor.
Qed.

(** From two nodes on, the circular layout keeps the centroid. *)
Lemma circular_layout_centroid (ns : list GraphNode) :
  (2 <= length ns)%nat ->
  centroid (map snd (calculateCircularLayout ns))
  = centroid (map Node.position ns).
Proof.
  intros Hlen.
  destruct ns as [|n1 [|n2 ns]]; simpl in Hlen; try lia.
  unfold calculateCircularLayout.
  destruct (@nodeGroups_populated (n1 :: n2 :: ns)) as [Hne Hall];
    [discriminate|].
  set (groups := nodeGroups (n1 :: n2 :: ns)) in *.
  destruct groups as [|[k1 ids1] groups]; [congruence|].
  inversion Hall as [|? ? Hids1 Hrest]; subst. simpl in Hids1.
  apply centerLayoutPositions_centroid.
  - destruct groups as [|g groups]; cbn [map snd].
    + apply placeOnCircle_nonempty. now left.
    + apply placeGroups_nonempty. left. exists ids1. split; [now left|assumption].
  - destruct groups as [|g groups]; cbn [map snd].
    + apply placeOnCircle_wellKeyed. constructor.
    + apply placeGroups_wellKeyed. constructor.
Qed.

(** *** stopLayout *)

Lemma cancelFrame_own (id : nat) (fs : list (nat * Animation)) :
  Forall (fun f => fst f = id) fs -> cancelFrame id fs = [].
Proof.
  induction fs as [|f fs IH]; intros H; simpl; [reflexivity|].
  inversion H; subst. rewrite Nat.eqb_refl. simpl. now apply IH.
Qed.

(** After [stopLayout] no callback of the engine is left with the host, so
    the next frame moves nothing. *)
Lemma stopLayout_cancels (e : Engine) (id : nat) (currentTime : R) :
  animationFrameId e = Some id ->
  Forall (fun f => fst f = id) (frames e) ->
  nodes (runFrame currentTime (stopLayout e)) = nodes e.
Proof.
  intros Hid Hfs. unfold runFrame, stopLayout.
  rewrite Hid. simpl. rewrite cancelFrame_own by assumption. reflexivity.
Qed.

End EngineFacts.

(** ** Specified behaviour of the layout engine *)

Section EngineProperties.

Import GraphEngine.

Open Scope R_scope.

(** C4 at a failing input.  For a single node at (5, 5) the circular layout
    returns before the centering pass: the target map sends the node to
    (0, 0), so its centroid is (0, 0) while the centroid of the current
    positions is (5, 5). *)
Theorem circular_single_node_moves_centroid :
  let node := nodeAt #"a" 5 5 in
  calculateCircularLayout [node] = [(#"a", Point.mk 0 0)]
  /\ centroid (map snd (calculateCircularLayout [node])) = Point.mk 0 0
  /\ centroid (map Node.position [node]) = Point.mk 5 5
  /\ centroid (map snd (calculateCircularLayout [node]))
     <> centroid (map Node.position [node]).
Proof.
  assert (H0 : centroid [Point.mk 0 0] = Point.mk 0 0).
  { unfold centroid, sumX, sumY. simpl. f_equal; field. }
  assert (H5 : centroid [Point.mk 5 5] = Point.mk 5 5).
  { unfold centroid, sumX, sumY. simpl. f_equal; field. }
  simpl. repeat split; try assumption.
  rewrite H0, H5. intros E.
  apply (f_equal Point.x) in E. simpl in E. lra.
Qed.

(** C7 at a failing input.  With the identity transform and the position
    (0, 0), an engine that holds a node at (10, 0) before a node at (0, 0)
    answers with the node at (10, 0): both lie within the radius of 20, the
    node at (0, 0) is the nearer one, and the first of the array is
    returned. *)
Theorem hit_test_first_not_nearest :
  let far := nodeAt #"far" 10 0 in
  let near := nodeAt #"near" 0 0 in
  let e := setData [far; near] [] initial in
  let worldPos := screenToWorld (Point.mk 0 0) (Transform.mk 0 0 1) in
  getNodeAtPosition e (Point.mk 0 0) (Transform.mk 0 0 1) = Some far
  /\ distanceTo worldPos near = 0
  /\ distanceTo worldPos far = 10
  /\ distanceTo worldPos near < distanceTo worldPos far
  /\ distanceTo worldPos far <= nodeRadius.
Proof.
  intros far near e worldPos.
  assert (Hw : worldPos = Point.mk 0 0).
  { unfold worldPos, screenToWorld. simpl. f_equal; field. }
  assert (Hfar : distanceTo worldPos far = 10).
  { rewrite Hw. unfold distanceTo, far, nodeAt. simpl.
    replace ((0 - 10) * (0 - 10) + (0 - 0) * (0 - 0)) with (10 * 10) by ring.
    apply sqrt_square. lra. }
  assert (Hnear : distanceTo worldPos near = 0).
  { rewrite Hw. unfold distanceTo, near, nodeAt. simpl.
    replace ((0 - 0) * (0 - 0) + (0 - 0) * (0 - 0)) with (0 * 0) by ring.
    apply sqrt_square. lra. }
  repeat split; try assumption; unfold nodeRadius; try lra.
  unfold getNodeAtPosition, e. simpl nodes. fold worldPos. simpl.
  destruct (Rle_dec (distanceTo worldPos far) nodeRadius) as [_|Hn];
    [reflexivity|].
  exfalso. apply Hn. unfold nodeRadius. lra.
Qed.

(** C8.  [stopLayout] leaves the layout state with [isAnimating = false]
    and modifies no node: the nodes, hence their positions, are the ones of
    the moment of the call, whatever the progress of the animation. *)
Theorem stopLayout_freezes_positions (e : Engine) :
  LState.isAnimating (layoutState (stopLayout e)) = false
  /\ nodes (stopLayout e) = nodes e
  /\ animationFrameId (stopLayout e) = None
  /\ targetPositions (stopLayout e) = [].
Proof.
  unfold stopLayout. simpl. repeat split.
Qed.

(** The progress of an animation of 1500 ms after 750 ms. *)
Lemma half_progress : Rmax 0 (Rmin ((750 - 0) / 1500) 1) = / 2.
Proof.
  replace ((750 - 0) / 1500) with (/ 2) by field.
  rewrite Rmin_left by lra. apply Rmax_right. lra.
Qed.

(** An animation stopped half way: one node on its way from (0, 0) to
    (8, 0) in 1500 ms is at (7, 0) after 750 ms (ease-out cubic); stopping
    there leaves it at (7, 0), and a later frame does not move it. *)
Example stop_half_way :
  let e0 := setData [nodeAt #"a" 0 0] [] initial in
  let e1 := startLayoutAnimation 0 circular [(#"a", Point.mk 8 0)] 1500 e0 in
  let e2 := runFrame 750 e1 in
  let e3 := stopLayout e2 in
  LState.isAnimating (layoutState e2) = true
  /\ LState.progress (layoutState e2) = / 2
  /\ map Node.position (nodes e2) = [Point.mk 7 0]
  /\ LState.isAnimating (layoutState e3) = false
  /\ map Node.position (nodes e3) = [Point.mk 7 0]
  /\ nodes (runFrame 1500 e3) = nodes e3.
Proof.
  intros e0 e1 e2 e3.
  assert (He2 : e2 = requestFrame (mkAnimation 0 1500 [(#"a", Point.mk 0 0)])
                  (mkEngine [nodeAt #"a" 7 0] []
                     (LState.mk true (/ 2) circular 0 1500)
                     (Some 1%nat) [(#"a", Point.mk 8 0)] [] 2%nat)).
  { unfold e2, e1, e0, runFrame, startLayoutAnimation, requestFrame, setData,
      initial. simpl. unfold animate. simpl.
    rewrite half_progress.
    destruct (Rlt_dec (/ 2) 1) as [_|Hn]; [|exfalso; apply Hn; lra].
    simpl. unfold requestFrame, interpolate, nodeAt, Node.setPosition. simpl.
    replace (0 + (8 - 0) * (1 - (1 - / 2) * ((1 - / 2) * ((1 - / 2) * 1))))
      with 7 by field.
    replace (0 + (0 - 0) * (1 - (1 - / 2) * ((1 - / 2) * ((1 - / 2) * 1))))
      with 0 by field.
    reflexivity. }
  unfold e3. rewrite He2. simpl. repeat split.
Qed.

End EngineProperties.

(** ** Node ids *)

Section NodeIdFacts.

Import NodeUtils.

Lemma replaceNonAlnum_idChar (s : str) : forallb idChar (replaceNonAlnum s) = true.
Proof.
  induction s as [|c s IH]; simpl; [reflexivity|].
  rewrite IH, andb_true_r. unfold idChar.
  destruct (isAlnumLower c) eqn:E; [now rewrite E|reflexivity].
Qed.

Lemma collapseHyphens_cons (c : ascii) (s : str) :
  collapseHyphens (c :: s)
  = if Ascii.eqb c hyphen && firstIs hyphen s then collapseHyphens s
    else c :: collapseHyphens s.
Proof.
  destruct s as [|d s]; simpl.
  - destruct (Ascii.eqb c hyphen); reflexivity.
  - destruct (Ascii.eqb c hyphen), (Ascii.eqb d hyphen); reflexivity.
Qed.

Lemma collapseHyphens_idChar (s : str) :
  forallb idChar s = true -> forallb idChar (collapseHyphens s) = true.
Proof.
  induction s as [|c s IH]; intros H; [reflexivity|].
  simpl in H. apply andb_true_iff in H as [Hc Hs].
  rewrite collapseHyphens_cons.
  destruct (Ascii.eqb c hyphen && firstIs hyphen s); [now apply IH|].
  simpl. now rewrite Hc, IH.
Qed.

Lemma collapseHyphens_head (s : str) (c : ascii) :
  firstIs c (collapseHyphens s) = firstIs c s.
Proof.
  induction s as [|a s IH]; [reflexivity|].
  rewrite collapseHyphens_cons.
  destruct (Ascii.eqb a hyphen && firstIs hyphen s) eqn:E; [|reflexivity].
  apply andb_true_iff in E as [Ea Ef]. apply Ascii.eqb_eq in Ea. subst a.
  rewrite IH. destruct s as [|d s]; [discriminate|].
  simpl in *. apply Ascii.eqb_eq in Ef. now subst d.
Qed.

Lemma noDoubleHyphen_cons (c : ascii) (s : str) :
  noDoubleHyphen (c :: s)
  = negb (Ascii.eqb c hyphen && firstIs hyphen s) && noDoubleHyphen s.
Proof. destruct s as [|d s]; simpl; [now rewrite andb_false_r|reflexivity]. Qed.

Lemma collapseHyphens_single (s : str) : noDoubleHyphen (collapseHyphens s) = true.
Proof.
  induction s as [|c s IH]; [reflexivity|].
  rewrite collapseHyphens_cons.
  destruct (Ascii.eqb c hyphen && firstIs hyphen s) eqn:E; [assumption|].
  now rewrite noDoubleHyphen_cons, IH, collapseHyphens_head, E.
Qed.

Lemma lastIs_inv (c : ascii) (s : str) :
  lastIs c s = true -> exists s', s = s' ++ [c].
Proof.
  unfold lastIs. intros H.
  destruct (rev s) as [|x r] eqn:E; [discriminate|].
  simpl in H. apply Ascii.eqb_eq in H. subst x.
  exists (rev r). rewrite <- (rev_involutive s), E. reflexivity.
Qed.

Lemma lastIs_snoc (c d : ascii) (s : str) : lastIs c (s ++ [d]) = Ascii.eqb d c.
Proof. apply lastIs_last. Qed.

Lemma noDoubleHyphen_snoc (s : str) (c : ascii) :
  noDoubleHyphen (s ++ [c])
  = noDoubleHyphen s && negb (lastIs hyphen s && Ascii.eqb c hyphen).
Proof.
  induction s as [|a s IH]; [reflexivity|].
  change ((a :: s) ++ [c]) with (a :: (s ++ [c])).
  rewrite !noDoubleHyphen_cons, IH.
  destruct s as [|b s'].
  - simpl. unfold lastIs. simpl.
    destruct (Ascii.eqb a hyphen), (Ascii.eqb c hyphen); reflexivity.
  - change (lastIs hyphen (a :: b :: s')) with (lastIs hyphen ((a :: nil) ++ b :: s')).
    assert (Hl : lastIs hyphen ([a] ++ b :: s') = lastIs hyphen (b :: s')).
    { unfold lastIs. rewrite rev_app_distr. simpl.
      destruct (rev s' ++ [b]) eqn:E; [|reflexivity].
      destruct (rev s'); discriminate. }
    rewrite Hl. simpl firstIs.
    destruct (Ascii.eqb a hyphen && Ascii.eqb b hyphen), (noDoubleHyphen (b :: s'));
      reflexivity.
Qed.

Lemma stripEnds_clean (s : str) :
  forallb idChar s = true -> noDoubleHyphen s = true -> cleanId (stripEnds s).
Proof.
  intros Hc Hd. unfold stripEnds.
  set (s1 := match s with
             | c :: s' => if Ascii.eqb c hyphen then s' else s
             | [] => []
             end).
  assert (H1 : forallb idChar s1 = true /\ noDoubleHyphen s1 = true
               /\ firstIs hyphen s1 = false).
  { unfold s1. destruct s as [|c s']; [auto|].
    rewrite noDoubleHyphen_cons in Hd. apply andb_true_iff in Hd as [Hh Hd].
    simpl in Hc. apply andb_true_iff in Hc as [Hc0 Hc].
    destruct (Ascii.eqb c hyphen) eqn:Ec.
    - simpl in Hh. apply negb_true_iff in Hh. auto.
    - repeat split.
      + simpl. now rewrite Hc0.
      + rewrite noDoubleHyphen_cons, Ec, Hd. reflexivity.
      + simpl. assumption. }
  destruct H1 as [Hc1 [Hd1 Hf1]].
  destruct (lastIs hyphen s1) eqn:El; [|repeat split; assumption].
  destruct (lastIs_inv _ _ El) as [s2 ->].
  rewrite removelast_last.
  rewrite forallb_app in Hc1. apply andb_true_iff in Hc1 as [Hc2 _].
  rewrite noDoubleHyphen_snoc in Hd1. apply andb_true_iff in Hd1 as [Hd2 Hl2].
  rewrite Ascii.eqb_refl, andb_true_r in Hl2. apply negb_true_iff in Hl2.
  repeat split; try assumption.
  destruct s2; [reflexivity|exact Hf1].
Qed.

(** The id made for a label holds lower-case letters, digits and single
    hyphens only, and neither starts nor ends with a hyphen. *)
Lemma generateNodeId_clean (label : str) : cleanId (generateNodeId label).
Proof.
  unfold generateNodeId. apply stripEnds_clean.
  - apply collapseHyphens_idChar, replaceNonAlnum_idChar.
  - apply collapseHyphens_single.
Qed.

Lemma idChar_lower (c : ascii) : idChar c = true -> lowerChar c = c.
Proof.
  unfold idChar, isAlnumLower, isLowerAZ, isDigit, lowerChar, isUpperAZ.
  intros H.
  assert (Hn : (97 <= code c /\ code c <= 122) \/ (48 <= code c /\ code c <= 57)
               \/ c = hyphen).
  { apply orb_true_iff in H as [H|H].
    - apply orb_true_iff in H as [H|H]; apply andb_true_iff in H as [H1 H2];
        apply Nat.leb_le in H1, H2; auto.
    - apply Ascii.eqb_eq in H. auto. }
  destruct Hn as [[H1 H2]|[[H1 H2]| ->]]; [| |reflexivity].
  - replace (65 <=? code c) with true by (symmetry; apply Nat.leb_le; lia).
    replace (code c <=? 90) with false by (symmetry; apply Nat.leb_gt; lia).
    replace (192 <=? code c) with false by (symmetry; apply Nat.leb_gt; lia).
    reflexivity.
  - replace (65 <=? code c) with false by (symmetry; apply Nat.leb_gt; lia).
    replace (192 <=? code c) with false by (symmetry; apply Nat.leb_gt; lia).
    reflexivity.
Qed.

Lemma collapseHyphens_id (s : str) :
  noDoubleHyphen s = true -> collapseHyphens s = s.
Proof.
  induction s as [|c s IH]; intros H; [reflexivity|].
  rewrite noDoubleHyphen_cons in H. apply andb_true_iff in H as [Hh Hd].
  rewrite collapseHyphens_cons, (IH Hd).
  apply negb_true_iff in Hh. now rewrite Hh.
Qed.

(** An id is its own id: [generateNodeId] leaves a clean string as it is,
    so it is idempotent. *)
Theorem generateNodeId_fixpoint (s : str) : cleanId s -> generateNodeId s = s.
Proof.
  intros [Hc [Hd [Hf Hl]]]. unfold generateNodeId.
  assert (H1 : toLowerCase s = s).
  { unfold toLowerCase. rewrite <- (map_id s) at 2. apply map_ext_in.
    intros c Hin. apply idChar_lower.
    rewrite forallb_forall in Hc. now apply Hc. }
  assert (H2 : replaceNonAlnum s = s).
  { unfold replaceNonAlnum. rewrite <- (map_id s) at 2. apply map_ext_in.
    intros c Hin. rewrite forallb_forall in Hc. specialize (Hc c Hin).
    unfold idChar in Hc. destruct (isAlnumLower c); [reflexivity|].
    simpl in Hc. apply Ascii.eqb_eq in Hc. now subst. }
  rewrite H1, H2, collapseHyphens_id by assumption.
  unfold stripEnds. destruct s as [|c s']; [reflexivity|].
  simpl in Hf. rewrite Hf, Hl. reflexivity.
Qed.

Lemma generateNodeId_fixpoint_witness : generateNodeId #"is-parent" = #"is-parent".
Proof.
  apply generateNodeId_fixpoint. repeat split; reflexivity.
Defined.

(** X1.  Every id is clean, and the id of an id is the id itself. *)
Theorem generateNodeId_idempotent (label : str) :
  cleanId (generateNodeId label)
  /\ generateNodeId (generateNodeId label) = generateNodeId label.
Proof.
  split; [apply generateNodeId_clean|].
  apply generateNodeId_fixpoint, generateNodeId_clean.
Qed.

End NodeIdFacts.

(** ** createOrUpdateNode *)

Section NodeArrayFacts.

Import NodeUtils.

Lemma findIndex_Some (nodes : list GraphNode) (nodeId : str) :
  forall i j,
    findIndex nodes nodeId i = Some j ->
    i <= j /\ exists n, nth_error nodes (j - i) = Some n /\ Node.id n = nodeId.
Proof.
  induction nodes as [|n nodes IH]; intros i j H; simpl in H; [discriminate|].
  destruct (Str.eqb (Node.id n) nodeId) eqn:E.
  - injection H as <-. split; [lia|].
    rewrite Nat.sub_diag. exists n. split; [reflexivity|].
    now apply str_eqb_eq.
  - apply IH in H as [Hle [m [Hm Hid]]]. split; [lia|].
    exists m. split; [|assumption].
    replace (j - i) with (S (j - S i)) by lia. exact Hm.
Qed.

Lemma findIndex_None (nodes : list GraphNode) (nodeId : str) :
  forall i, findIndex nodes nodeId i = None -> ~ In nodeId (map Node.id nodes).
Proof.
  induction nodes as [|n nodes IH]; intros i H; simpl in *; [tauto|].
  destruct (Str.eqb (Node.id n) nodeId) eqn:E; [discriminate|].
  apply str_eqb_neq in E. intros [Hin|Hin]; [contradiction|].
  now apply (IH (S i)).
Qed.

Lemma updateAt_map (A B : Type) (g : A -> B) (f : A -> A) (l : list A) :
  (forall a, g (f a) = g a) ->
  forall i, map g (updateAt i f l) = map g l.
Proof.
  intros Hf. induction l as [|a l IH]; intros [|i]; simpl; try reflexivity.
  - now rewrite Hf.
  - now rewrite IH.
Qed.

Lemma updateAt_length (A : Type) (f : A -> A) (l : list A) :
  forall i, length (updateAt i f l) = length l.
Proof.
  induction l as [|a l IH]; intros [|i]; simpl; auto.
Qed.

Lemma updateAt_nth (A : Type) (f : A -> A) (l : list A) :
  forall i a, nth_error l i = Some a -> nth_error (updateAt i f l) i = Some (f a).
Proof.
  induction l as [|b l IH]; intros [|i] a H; simpl in *; try discriminate.
  - now injection H as ->.
  - now apply IH.
Qed.

Lemma updateAt_sum (A : Type) (g : A -> nat) (f : A -> A) (l : list A) :
  forall i a,
    nth_error l i = Some a ->
    list_sum (map g (updateAt i f l)) + g a = list_sum (map g l) + g (f a).
Proof.
  induction l as [|b l IH]; intros [|i] a H; simpl in *; try discriminate.
  - injection H as ->. lia.
  - specialize (IH i a H). lia.
Qed.

Lemma createOrUpdateNode_ids (nodes : list GraphNode) (label : str)
    (position : option Point) :
  map Node.id (fst (createOrUpdateNode nodes label position))
  = if existsb (Str.eqb (generateNodeId label)) (map Node.id nodes)
    then map Node.id nodes
    else map Node.id nodes ++ [generateNodeId label].
Proof.
  unfold createOrUpdateNode.
  destruct (findIndex nodes (generateNodeId label) 0) as [j|] eqn:E; cbn [fst snd].
  - apply findIndex_Some in E as [_ [n [Hn Hid]]].
    rewrite updateAt_map by reflexivity.
    replace (existsb _ _) with true; [reflexivity|].
    symmetry. apply existsb_exists. exists (Node.id n). split.
    + apply in_map. eapply nth_error_In. exact Hn.
    + rewrite Hid. apply str_eqb_refl.
  - apply findIndex_None in E.
    rewrite map_app. cbn [map Node.id].
    replace (existsb _ _) with false; [reflexivity|].
    symmetry. destruct (existsb _ _) eqn:X; [|reflexivity].
    apply existsb_exists in X as [x [Hx Hk]].
    apply str_eqb_eq in Hk. subst. contradiction.
Qed.

(** [createOrUpdateNode] answers with a reference to a node of the array
    whose id is the id of the label; it removes no node and changes no id;
    it keeps the ids distinct; and it counts one more occurrence in all. *)
Theorem createOrUpdateNode_spec (nodes : list GraphNode) (label : str)
    (position : option Point) :
  let nodes' := fst (createOrUpdateNode nodes label position) in
  let r := snd (createOrUpdateNode nodes label position) in
  (exists n, nth_error nodes' r = Some n /\ Node.id n = generateNodeId label)
  /\ (exists added, map Node.id nodes' = map Node.id nodes ++ added)
  /\ (distinctIds nodes -> distinctIds nodes')
  /\ totalOccurrences nodes' = S (totalOccurrences nodes).
Proof.
  cbv zeta. split; [|split; [|split]].
  - unfold createOrUpdateNode.
    destruct (findIndex nodes (generateNodeId label) 0) as [j|] eqn:E; cbn [fst snd].
    + apply findIndex_Some in E as [_ [n [Hn Hid]]].
      rewrite Nat.sub_0_r in Hn.
      eexists. split; [apply updateAt_nth; exact Hn|]. exact Hid.
    + eexists. split.
      * rewrite nth_error_app2, Nat.sub_diag by lia. reflexivity.
      * reflexivity.
  - rewrite createOrUpdateNode_ids.
    destruct (existsb _ _); [exists []; now rewrite app_nil_r|eauto].
  - unfold distinctIds. rewrite createOrUpdateNode_ids.
    destruct (existsb _ _) eqn:X; [auto|].
    intros H. apply NoDup_app; [assumption|constructor; [intros []|constructor]|].
    intros x Hx [<-|[]].
    assert (existsb (Str.eqb (generateNodeId label)) (map Node.id nodes) = true);
      [|congruence].
    apply existsb_exists. exists (generateNodeId label).
    split; [assumption|apply str_eqb_refl].
  - unfold totalOccurrences, createOrUpdateNode.
    destruct (findIndex nodes (generateNodeId label) 0) as [j|] eqn:E; cbn [fst snd].
    + apply findIndex_Some in E as [_ [n [Hn _]]].
      rewrite Nat.sub_0_r in Hn.
      pose proof (@updateAt_sum _ occurrencesOf
                    (fun n0 => Node.setOccurrences
                       (match Meta.occurrences (Node.metadata n0) with
                        | Some k => k
                        | None => 0
                        end + 1) n0) nodes j n Hn) as H.
      unfold occurrencesOf in *. cbn [Node.setOccurrences Node.metadata Meta.occurrences] in H.
      destruct (Meta.occurrences (Node.metadata n)); lia.
    + rewrite map_app, list_sum_app. cbn. lia.
Qed.

End NodeArrayFacts.

(** ** Splitting into words *)

Section WordFacts.

Import NodeUtils.

Lemma dropWhite_starts (s : str) : dropWhite s = [] \/ startsNonWhite (dropWhite s).
Proof.
  induction s as [|c s IH]; simpl; [now left|].
  destruct (isWhite c) eqn:E; [assumption|]. right. exact E.
Qed.

Lemma dropWhite_suffix (s : str) : exists pre, s = pre ++ dropWhite s.
Proof.
  induction s as [|c s [pre IH]]; simpl; [now exists []|].
  destruct (isWhite c).
  - exists (c :: pre). simpl. now rewrite <- IH.
  - now exists [].
Qed.

Lemma startsNonWhite_app (a b : str) : startsNonWhite a -> startsNonWhite (a ++ b).
Proof. destruct a; simpl; tauto. Qed.

(** What [trim] returns is empty or starts and ends with a character that
    is not white space. *)
Lemma trim_ends (s : str) :
  trim s = [] \/ (startsNonWhite (trim s) /\ endsNonWhite (trim s)).
Proof.
  unfold trim, endsNonWhite. rewrite rev_involutive.
  destruct (dropWhite_starts (rev (dropWhite s))) as [E|Hd]; [left; now rewrite E|].
  right. split; [|assumption].
  destruct (dropWhite_suffix (rev (dropWhite s))) as [pre Hpre].
  set (d := dropWhite (rev (dropWhite s))) in *.
  assert (Hs : dropWhite s = rev d ++ rev pre).
  { rewrite <- (rev_involutive (dropWhite s)), Hpre, rev_app_distr. reflexivity. }
  destruct (dropWhite_starts s) as [E|Hs1].
  - rewrite E in Hs. destruct (rev d) eqn:R; [|discriminate].
    destruct d; [destruct Hd|].
    simpl in R. destruct (rev d); discriminate.
  - rewrite Hs in Hs1. destruct (rev d) eqn:R; [|exact Hs1].
    destruct d; [destruct Hd|].
    simpl in R. destruct (rev d); discriminate.
Qed.

Lemma whiteFree_rev (s : str) : whiteFree s -> whiteFree (rev s).
Proof. unfold whiteFree. apply Forall_rev. Qed.

Lemma dropWhite_whiteFree (s : str) : whiteFree s -> dropWhite s = s.
Proof.
  intros H. destruct s as [|c s]; [reflexivity|].
  inversion H; subst. now apply dropWhite_head.
Qed.

Lemma trim_whiteFree (s : str) : whiteFree s -> trim s = s.
Proof.
  intros H. unfold trim.
  rewrite (dropWhite_whiteFree H), (dropWhite_whiteFree (whiteFree_rev H)).
  apply rev_involutive.
Qed.

Lemma splitWhiteFrom_parts (s : str) :
  forall cur inRun p,
    whiteFree cur -> In p (splitWhiteFrom cur inRun s) -> whiteFree p.
Proof.
  induction s as [|c s IH]; intros cur inRun p Hc Hin; simpl in Hin.
  - destruct Hin as [<-|[]]. assumption.
  - destruct (isWhite c) eqn:E.
    + destruct inRun.
      * apply IH in Hin; [assumption|constructor].
      * destruct Hin as [<-|Hin]; [assumption|].
        apply IH in Hin; [assumption|constructor].
    + apply IH in Hin; [assumption|].
      apply Forall_app. split; [assumption|]. now constructor.
Qed.

Lemma splitWhiteFrom_nonempty (s : str) :
  forall cur inRun p,
    endsNonWhite s ->
    (inRun = true \/ cur <> [] \/ startsNonWhite s) ->
    In p (splitWhiteFrom cur inRun s) -> p <> [].
Proof.
  induction s as [|c s IH]; intros cur inRun p He Hpre Hin.
  - destruct He.
  - simpl in Hin.
    assert (Hs : s = [] \/ endsNonWhite s).
    { destruct s as [|d s']; [now left|]. right.
      unfold endsNonWhite in *. simpl in *.
      destruct (rev s' ++ [d]) eqn:R; [destruct (rev s'); discriminate|].
      exact He. }
    destruct (isWhite c) eqn:E.
    + destruct Hs as [->|Hs].
      { unfold endsNonWhite in He. simpl in He. congruence. }
      destruct inRun.
      * apply IH in Hin; auto.
      * destruct Hin as [<-|Hin].
        -- destruct Hpre as [H|[H|H]]; [discriminate|assumption|].
           simpl in H. congruence.
        -- apply IH in Hin; auto.
    + destruct Hs as [->|Hs].
      * simpl in Hin. destruct Hin as [<-|[]]. now destruct cur.
      * apply IH in Hin; auto. right. left. now destruct cur.
Qed.

(** The parts of a trimmed text with at least two parts are words. *)
Lemma splitWhite_trim_words (s : str) :
  2 <= length (splitWhite (trim s)) -> Forall word (splitWhite (trim s)).
Proof.
  intros Hlen. apply Forall_forall. intros p Hin.
  destruct (trim_ends s) as [E|[Hs He]].
  - rewrite E in Hlen. simpl in Hlen. lia.
  - split.
    + eapply splitWhiteFrom_nonempty; eauto.
    + eapply splitWhiteFrom_parts; [|exact Hin]. constructor.
Qed.

(** X3.  When [parseMettaExpression] answers, the predicate and the arguments
    are words (not empty, free of white space) and there is an argument. *)
Theorem parseMettaExpression_words (expression predicate : str) (args : list str) :
  parseMettaExpression expression = Some (predicate, args) ->
  word predicate /\ Forall word args /\ args <> [].
Proof.
  unfold parseMettaExpression.
  destruct (negb _ || negb _); [discriminate|].
  destruct (length (splitWhite (trim (slice1 (trim expression)))) <? 2) eqn:E;
    [discriminate|].
  apply Nat.ltb_ge in E. intros H. injection H as <- <-.
  pose proof (splitWhite_trim_words _ E) as Hw.
  destruct (splitWhite (trim (slice1 (trim expression)))) as [|p [|a rest]];
    simpl in E; try lia.
  inversion Hw as [|? ? Hp Hrest]; subst. cbn [hd tl].
  split; [exact Hp|]. split; [exact Hrest|discriminate].
Qed.

Lemma parseMettaExpression_words_witness :
  word #"gender" /\ Forall word [#"Chandler"; #"M"] /\ [#"Chandler"; #"M"] <> [].
Proof.
  apply (@parseMettaExpression_words #"(gender Chandler M)"). reflexivity.
Defined.

Lemma splitWhiteFrom_word (w : str) :
  forall cur rest,
    whiteFree w ->
    splitWhiteFrom cur false (w ++ rest) = splitWhiteFrom (cur ++ w) false rest.
Proof.
  induction w as [|c w IH]; intros cur rest H; simpl.
  - now rewrite app_nil_r.
  - inversion H; subst. rewrite H2. rewrite IH by assumption.
    now rewrite <- app_assoc.
Qed.

Lemma splitWhiteFrom_run (w rest : str) :
  word w ->
  splitWhiteFrom [] true (w ++ rest) = splitWhiteFrom [] false (w ++ rest).
Proof.
  intros [Hne Hw]. destruct w as [|c w]; [congruence|].
  inversion Hw; subst. simpl. now rewrite H1.
Qed.

Lemma space_sep (rest : str) (cur : str) :
  splitWhiteFrom cur false (space :: rest) = cur :: splitWhiteFrom [] true rest.
Proof. reflexivity. Qed.

(** Words joined by single spaces split back into the words. *)
Theorem splitWhite_join (ws : list str) :
  ws <> [] -> Forall word ws -> splitWhite (Str.join [space] ws) = ws.
Proof.
  unfold splitWhite.
  induction ws as [|w ws IH]; intros Hne Hall; [congruence|].
  inversion Hall as [|? ? [Hw0 Hw] Hrest]; subst.
  destruct ws as [|w2 ws].
  - simpl. rewrite <- (app_nil_r w) at 1.
    rewrite splitWhiteFrom_word by assumption. reflexivity.
  - change (Str.join [space] (w :: w2 :: ws))
      with (w ++ [space] ++ Str.join [space] (w2 :: ws)).
    rewrite splitWhiteFrom_word by assumption.
    simpl app. rewrite space_sep. f_equal.
    specialize (IH ltac:(discriminate) Hrest).
    etransitivity; [|exact IH].
    inversion Hrest; subst.
    destruct ws as [|w3 ws].
    + simpl. rewrite <- (app_nil_r w2) at 1 2.
      now apply splitWhiteFrom_run.
    + change (Str.join [space] (w2 :: w3 :: ws))
        with (w2 ++ [space] ++ Str.join [space] (w3 :: ws)).
      now apply splitWhiteFrom_run.
Qed.

Lemma splitWhite_join_witness :
  splitWhite (Str.join [space] [#"gender"; #"Chandler"; #"M"])
  = [#"gender"; #"Chandler"; #"M"].
Proof.
  apply splitWhite_join; [discriminate|].
  repeat constructor; vm_compute; discriminate.
Defined.

End WordFacts.

(** ** Flat facts *)

Section FlatFacts.

Lemma tokStep_plain (st : TokState) (c : ascii) :
  isWhite c = false -> c <> lparen -> c <> rparen ->
  tokStep st c = mkTok (tokens st) (current st ++ [c]) (parenDepth st) true.
Proof.
  intros Hw Hl Hr. unfold tokStep.
  apply Ascii.eqb_neq in Hl, Hr. rewrite Hl, Hr.
  destruct (Ascii.eqb c space) eqn:E; [|reflexivity].
  apply Ascii.eqb_eq in E. subst. discriminate.
Qed.

Lemma atom_chars (w : str) (c : ascii) :
  atom w -> In c w -> isWhite c = false /\ c <> lparen /\ c <> rparen.
Proof.
  intros [[_ Hw] [Hl Hr]] Hin. unfold whiteFree in Hw.
  rewrite Forall_forall in Hw. repeat split; [now apply Hw| |];
    intros ->; contradiction.
Qed.

Lemma tokFold_atom (w : str) :
  forall st,
    (forall c, In c w -> isWhite c = false /\ c <> lparen /\ c <> rparen) ->
    w <> [] ->
    fold_left tokStep w st
    = mkTok (tokens st) (current st ++ w) (parenDepth st) true.
Proof.
  induction w as [|c w IH]; intros st H Hne; [congruence|].
  destruct (H c (or_introl eq_refl)) as [Hw [Hl Hr]].
  simpl. rewrite tokStep_plain by assumption.
  destruct w as [|d w].
  - reflexivity.
  - rewrite IH; [|intros; apply H; now right|discriminate].
    simpl. now rewrite <- app_assoc.
Qed.

Lemma word_nonBlank (w : str) : word w -> nonBlank w = true.
Proof.
  intros [Hne Hw]. rewrite nonBlank_spec.
  destruct w as [|c w]; [congruence|].
  inversion Hw; subst. simpl. now rewrite H1.
Qed.

Lemma tokenize_join_from (ws : list str) :
  forall toks,
    ws <> [] -> Forall atom ws ->
    finish (fold_left tokStep (Str.join [space] ws) (mkTok toks [] 0 false))
    = toks ++ ws.
Proof.
  induction ws as [|w ws IH]; intros toks Hne Hall; [congruence|].
  inversion Hall as [|? ? Hw Hrest]; subst.
  pose proof Hw as [[Hw0 Hwf] _].
  destruct ws as [|w2 ws].
  - simpl Str.join.
    rewrite (@tokFold_atom w); [|intros c Hc; exact (@atom_chars _ c Hw Hc)|exact Hw0].
    unfold finish. simpl current. simpl tokens.
    rewrite word_nonBlank by (split; assumption).
    now rewrite trim_whiteFree.
  - change (Str.join [space] (w :: w2 :: ws))
      with (w ++ space :: Str.join [space] (w2 :: ws)).
    rewrite fold_left_app.
    rewrite (@tokFold_atom w); [|intros c Hc; exact (@atom_chars _ c Hw Hc)|exact Hw0].
    cbn [fold_left]. unfold tokStep at 2. simpl.
    rewrite word_nonBlank by (split; assumption).
    rewrite trim_whiteFree by assumption.
    rewrite IH by (auto; discriminate).
    now rewrite <- app_assoc.
Qed.

(** Atoms joined by single spaces are tokenized into the atoms. *)
Lemma tokenize_join (ws : list str) :
  ws <> [] -> Forall atom ws -> tokenize (Str.join [space] ws) = ws.
Proof.
  intros Hne Hall. rewrite tokenize_finish.
  now rewrite tokenize_join_from.
Qed.

Lemma join_In (sep : str) (ws : list str) (c : ascii) :
  In c (Str.join sep ws) -> In c sep \/ exists w, In w ws /\ In c w.
Proof.
  induction ws as [|w ws IH]; [intros []|].
  destruct ws as [|w2 ws].
  - simpl. intros H. right. exists w. auto.
  - change (Str.join sep (w :: w2 :: ws)) with (w ++ sep ++ Str.join sep (w2 :: ws)).
    intros H. apply in_app_or in H as [H|H]; [right; exists w; simpl; auto|].
    apply in_app_or in H as [H|H]; [now left|].
    destruct (IH H) as [Hs|[w' [Hw' Hc]]]; [now left|].
    right. exists w'. split; [now right|assumption].
Qed.

Lemma join_parenFree (ws : list str) :
  Forall atom ws -> parenFree (Str.join [space] ws).
Proof.
  intros Hall. rewrite Forall_forall in Hall.
  split; intros H; apply join_In in H as [[E|[]]|[w [Hw Hc]]];
    try discriminate;
    destruct (Hall w Hw) as [_ [Hl Hr]]; contradiction.
Qed.

Lemma join_no_newline (ws : list str) :
  Forall atom ws -> ~ In newline (Str.join [space] ws).
Proof.
  intros Hall H. rewrite Forall_forall in Hall.
  apply join_In in H as [[E|[]]|[w [Hw Hc]]]; [discriminate|].
  destruct (@atom_chars _ _ (Hall w Hw) Hc) as [Hwhite _]. discriminate.
Qed.

Lemma words_of_atoms (ws : list str) : Forall atom ws -> Forall word ws.
Proof. apply Forall_impl. intros w [H _]. exact H. Qed.

Lemma join_starts (ws : list str) :
  ws <> [] -> Forall word ws -> startsNonWhite (Str.join [space] ws).
Proof.
  intros Hne Hall. destruct ws as [|w ws]; [congruence|].
  inversion Hall as [|? ? [Hw0 Hw] _]; subst.
  assert (Hs : startsNonWhite w).
  { destruct w as [|c w]; [congruence|]. inversion Hw; subst. assumption. }
  destruct ws; [exact Hs|].
  change (startsNonWhite (w ++ [space] ++ Str.join [space] (s :: ws))).
  now apply startsNonWhite_app.
Qed.

Lemma endsNonWhite_app (a b : str) : endsNonWhite b -> endsNonWhite (a ++ b).
Proof.
  unfold endsNonWhite. rewrite rev_app_distr. apply startsNonWhite_app.
Qed.

Lemma join_ends (ws : list str) :
  ws <> [] -> Forall word ws -> endsNonWhite (Str.join [space] ws).
Proof.
  induction ws as [|w ws IH]; intros Hne Hall; [congruence|].
  inversion Hall as [|? ? [Hw0 Hw] Hrest]; subst.
  destruct ws as [|w2 ws].
  - simpl. unfold endsNonWhite.
    pose proof (whiteFree_rev Hw) as Hr.
    destruct (rev w) as [|c r] eqn:E.
    + apply (f_equal (@rev ascii)) in E. rewrite rev_involutive in E.
      simpl in E. congruence.
    + inversion Hr; subst. assumption.
  - change (Str.join [space] (w :: w2 :: ws))
      with (w ++ ([space] ++ Str.join [space] (w2 :: ws))).
    apply endsNonWhite_app, endsNonWhite_app, IH; [discriminate|assumption].
Qed.

Lemma trim_id (s : str) : startsNonWhite s -> endsNonWhite s -> trim s = s.
Proof.
  intros Hs He. unfold trim.
  destruct s as [|c s]; [destruct Hs|].
  rewrite dropWhite_head by exact Hs.
  unfold endsNonWhite in He.
  destruct (rev (c :: s)) as [|d r] eqn:E; [destruct He|].
  rewrite dropWhite_head by exact He.
  rewrite <- E. apply rev_involutive.
Qed.

Lemma parseArgs_atoms (rec : str -> option (option ParsedExpression))
    (ws : list str) :
  Forall atom ws -> parseArgs rec ws = Some (map Atom ws).
Proof.
  induction ws as [|w ws IH]; intros Hall; [reflexivity|].
  inversion Hall as [|? ? Hw Hrest]; subst.
  simpl. rewrite (IH Hrest).
  assert (Hnw : isWrapped w = false).
  { unfold isWrapped. destruct w as [|c w]; [reflexivity|].
    simpl. destruct (Ascii.eqb c lparen) eqn:E; [|reflexivity].
    apply Ascii.eqb_eq in E. subst.
    destruct Hw as [_ [Hl _]]. exfalso. apply Hl. now left. }
  now rewrite Hnw.
Qed.

Lemma stringsOf_atoms (ws : list str) : stringsOf (map Atom ws) = ws.
Proof. induction ws as [|w ws IH]; simpl; [reflexivity|]. now rewrite IH. Qed.

Lemma existsb_nested_atoms (ws : list str) : existsb isNested (map Atom ws) = false.
Proof. induction ws as [|w ws IH]; simpl; [reflexivity|assumption]. Qed.

Lemma parse_flatFact (fuel : nat) (p : str) (args : list str) :
  Forall atom (p :: args) -> args <> [] ->
  parseExpressionFuel (S fuel) (flatFact (p :: args))
  = Some (Some (Expr p (map Atom args))).
Proof.
  intros Hall Hne. unfold flatFact.
  rewrite parseExpressionFuel_eq.
  rewrite (@trim_wrapped lparen rparen _ lparen_not_white rparen_not_white).
  rewrite lastIs_wrapped, slice1_wrapped.
  change (firstIs lparen (lparen :: _)) with true.
  change (Ascii.eqb rparen rparen) with true. cbn [negb orb].
  rewrite trim_id
    by (apply join_starts || apply join_ends;
        (discriminate || now apply words_of_atoms)).
  rewrite tokenize_join by (discriminate || assumption).
  destruct args as [|a args]; [congruence|].
  cbn [length Nat.ltb Nat.leb].
  inversion Hall; subst.
  now rewrite parseArgs_atoms.
Qed.

Lemma flatFact_lines (ws : list str) :
  Forall atom ws -> lines (flatFact ws) = [flatFact ws].
Proof.
  intros Hall. unfold lines. rewrite splitOn_none; [reflexivity|].
  unfold flatFact. intros [E|H]; [discriminate|].
  apply in_app_or in H as [H|[E|[]]]; [|discriminate].
  now apply join_no_newline in H.
Qed.

Lemma flatFact_trim (ws : list str) : trim (flatFact ws) = flatFact ws.
Proof.
  apply (@trim_wrapped lparen rparen _ lparen_not_white rparen_not_white).
Qed.

(** X6.  A fact "(p a b ...)" made of atoms, separated by single spaces, with at
    least two arguments, is valid and yields exactly one triple, which is not
    a hypergraph: its predicate is [p], its subject the first argument, its
    object the second argument, or the array of the arguments after the
    first when there are more. *)
Theorem flat_fact_triple (p a b : str) (rest : list str) :
  Forall atom (p :: a :: b :: rest) ->
  let mettaText := flatFact (p :: a :: b :: rest) in
  extractTriples mettaText = [Triple.mk p (One a) (oneOrMany (b :: rest)) false]
  /\ Validation.errors (validateSyntax mettaText) = []
  /\ Validation.isValid (validateSyntax mettaText) = true.
Proof.
  intros Hall mettaText.
  assert (Herr : Validation.errors (validateSyntax mettaText) = []).
  { rewrite validateSyntax_errors. unfold mettaText.
    rewrite flatFact_lines, validateLines_single by assumption.
    rewrite validateLine_wrapped; rewrite flatFact_trim.
    - unfold flatFact. rewrite slice1_wrapped.
      rewrite trim_id
        by (apply join_starts || apply join_ends;
            (discriminate || now apply words_of_atoms)).
      rewrite splitWhite_join by (discriminate || now apply words_of_atoms).
      reflexivity.
    - reflexivity.
    - apply balanced_wrapped. now apply join_parenFree.
    - unfold flatFact. simpl. rewrite length_app.
      inversion Hall as [|? ? [[Hp _] _] _]; subst.
      destruct p; [congruence|]. simpl. lia. }
  split; [|split; [assumption|now rewrite validateSyntax_isValid, Herr]].
  unfold extractTriples, extractTriplesFuel, mettaText.
  rewrite flatFact_lines by assumption.
  cbn [extractLines]. rewrite flatFact_trim.
  change (skipLine (flatFact (p :: a :: b :: rest))) with false. cbv iota.
  rewrite parse_flatFact by (assumption || discriminate).
  unfold expressionToTriple. cbn [predicateOf argsOf].
  rewrite existsb_nested_atoms, stringsOf_atoms. reflexivity.
Qed.

Lemma flat_fact_triple_witness :
  extractTriples #"(gender Chandler M)"
  = [Triple.mk #"gender" (One #"Chandler") (One #"M") false]
  /\ Validation.errors (validateSyntax #"(gender Chandler M)") = []
  /\ Validation.isValid (validateSyntax #"(gender Chandler M)") = true.
Proof.
  apply (@flat_fact_triple #"gender" #"Chandler" #"M" []).
  repeat constructor; vm_compute; intuition discriminate.
Defined.

End FlatFacts.

(** ** More on the validator *)

Section ValidatorFacts.

Lemma scanParens_closing (s : str) :
  forall j parenCount lastOpen col parenCount' lastOpen',
    (0 <= parenCount)%Z ->
    scanParens s j parenCount lastOpen = (Some col, parenCount', lastOpen') ->
    (parenCount' < 0)%Z.
Proof.
  induction s as [|c s IH]; intros j pc lo col pc' lo' Hpc H; simpl in H;
    [discriminate|].
  destruct (Ascii.eqb c lparen).
  - eapply IH; [|exact H]. lia.
  - destruct (Ascii.eqb c rparen); [|eapply IH; eauto].
    destruct (pc - 1 <? 0)%Z eqn:E.
    + injection H as _ <- _. now apply Z.ltb_lt.
    + apply Z.ltb_ge in E. eapply IH; [|exact H]. lia.
Qed.

Lemma validateLine_one (i : Z) (raw : str) :
  length (fst (validateLine i raw)) <= 1
  /\ length (snd (validateLine i raw)) <= 1
  /\ Forall (fun e => PErr.line e = (i + 1)%Z)
            (fst (validateLine i raw) ++ snd (validateLine i raw)).
Proof.
  unfold validateLine.
  destruct (scanParens (trim raw) 0 0 (-1)) as [[closing parenCount] lastOpen]
    eqn:Escan.
  destruct closing as [col|].
  - apply scanParens_closing in Escan; [|lia].
    replace (0 <? parenCount)%Z with false
      by (symmetry; apply Z.ltb_ge; lia).
    split_ifs; simpl; repeat split; try lia; repeat constructor.
  - split_ifs; simpl; repeat split; try lia; repeat constructor.
Qed.

Lemma validateLines_bound (ls : list str) :
  forall i errors warnings,
    exists e w,
      validateLines i ls errors warnings = (errors ++ e, warnings ++ w)
      /\ length e <= length ls /\ length w <= length ls
      /\ Forall (lineWithin i (length ls)) (e ++ w).
Proof.
  induction ls as [|raw ls IH]; intros i errors warnings; simpl.
  - exists [], []. rewrite !app_nil_r. repeat split; auto; constructor.
  - destruct (validateLine_one i raw) as [He [Hw Hl]].
    destruct (validateLine i raw) as [e0 w0]. simpl in He, Hw, Hl.
    destruct (IH (i + 1)%Z (errors ++ e0) (warnings ++ w0))
      as [e [w [Heq [Hle [Hlw Hall]]]]].
    exists (e0 ++ e), (w0 ++ w). rewrite Heq, <- !app_assoc.
    repeat split; try (rewrite length_app; lia).
    apply Forall_app in Hl as [Hl1 Hl2]. apply Forall_app in Hall as [Ha1 Ha2].
    assert (Hin : forall l, Forall (fun x => PErr.line x = (i + 1)%Z) l ->
                  Forall (lineWithin i (S (length ls))) l).
    { intros l. apply Forall_impl. intros x Hx. unfold lineWithin. lia. }
    assert (Hup : forall l, Forall (lineWithin (i + 1) (length ls)) l ->
                  Forall (lineWithin i (S (length ls))) l).
    { intros l. apply Forall_impl. intros x Hx. unfold lineWithin in *. lia. }
    repeat (apply Forall_app; split); auto.
Qed.

Lemma onLine_app (k : Z) (l l' : list ParseError) :
  onLine k (l ++ l') = onLine k l ++ onLine k l'.
Proof. apply filter_app. Qed.

Lemma onLine_other (k : Z) (l : list ParseError) :
  Forall (fun e => PErr.line e <> k) l -> onLine k l = [].
Proof.
  unfold onLine. induction 1 as [|e l He _ IH]; cbn [filter]; [reflexivity|].
  apply Z.eqb_neq in He. now rewrite He.
Qed.

Lemma onLine_length (k : Z) (l : list ParseError) :
  length (onLine k l) <= length l.
Proof. apply filter_length_le. Qed.

Lemma validateLines_per_line (ls : list str) :
  forall i errors warnings,
    exists e w,
      validateLines i ls errors warnings = (errors ++ e, warnings ++ w)
      /\ Forall (lineWithin i (length ls)) (e ++ w)
      /\ forall k, length (onLine k e) <= 1 /\ length (onLine k w) <= 1.
Proof.
  induction ls as [|raw ls IH]; intros i errors warnings; cbn [validateLines].
  - exists [], []. rewrite !app_nil_r. repeat split; auto; constructor.
  - destruct (validateLine_one i raw) as [He [Hw Hl]].
    destruct (validateLine i raw) as [e0 w0]. cbn [fst snd] in He, Hw, Hl.
    destruct (IH (i + 1)%Z (errors ++ e0) (warnings ++ w0))
      as [e [w [Heq [Hall Hone]]]].
    exists (e0 ++ e), (w0 ++ w). rewrite Heq, <- !app_assoc.
    apply Forall_app in Hl as [Hl1 Hl2]. apply Forall_app in Hall as [Ha1 Ha2].
    split; [reflexivity|]. split.
    + assert (Hin : forall l, Forall (fun x => PErr.line x = (i + 1)%Z) l ->
                    Forall (lineWithin i (S (length ls))) l).
      { intros l. apply Forall_impl. intros x Hx. unfold lineWithin. lia. }
      assert (Hup : forall l, Forall (lineWithin (i + 1) (length ls)) l ->
                    Forall (lineWithin i (S (length ls))) l).
      { intros l. apply Forall_impl. intros x Hx. unfold lineWithin in *. lia. }
      cbn [length]. repeat (apply Forall_app; split); auto.
    + intros k. rewrite !onLine_app, !length_app.
      destruct (Z.eq_dec k (i + 1)) as [->|Hk].
      * rewrite (@onLine_other (i + 1)%Z e), (@onLine_other (i + 1)%Z w).
        -- pose proof (onLine_length (i + 1) e0).
           pose proof (onLine_length (i + 1) w0). cbn [length]. lia.
        -- eapply Forall_impl; [|exact Ha2]. unfold lineWithin. intros x Hx. lia.
        -- eapply Forall_impl; [|exact Ha1]. unfold lineWithin. intros x Hx. lia.
      * rewrite (@onLine_other k e0), (@onLine_other k w0).
        -- cbn [length]. apply Hone.
        -- eapply Forall_impl; [|exact Hl2]. intros x Hx. cbv beta in Hx. lia.
        -- eapply Forall_impl; [|exact Hl1]. intros x Hx. cbv beta in Hx. lia.
Qed.

(** X7.  The validator reports at most one error and at most one warning for a
    line: among the errors no two carry the same line number, and neither
    do two of the warnings.  So there are no more errors, and no more
    warnings, than the text has lines; and every entry carries the number
    of a line of the text. *)
Theorem validateSyntax_per_line (mettaText : str) :
  let r := validateSyntax mettaText in
  let n := length (lines mettaText) in
  (forall k, length (onLine k (Validation.errors r)) <= 1
             /\ length (onLine k (Validation.warnings r)) <= 1)
  /\ length (Validation.errors r) <= n
  /\ length (Validation.warnings r) <= n
  /\ Forall (fun e => (1 <= PErr.line e <= Z.of_nat n)%Z)
            (Validation.errors r ++ Validation.warnings r).
Proof.
  cbv zeta. rewrite validateSyntax_errors, validateSyntax_warnings.
  destruct (@validateLines_per_line (lines mettaText) 0%Z [] [])
    as [e [w [Heq [_ Hone]]]].
  destruct (@validateLines_bound (lines mettaText) 0%Z [] [])
    as [e' [w' [Heq' [He [Hw Hall]]]]].
  rewrite Heq in Heq'. cbn [app] in Heq'. injection Heq' as <- <-.
  rewrite Heq. cbn [app fst snd].
  split; [exact Hone|]. repeat split; try assumption.
  eapply Forall_impl; [|exact Hall]. unfold lineWithin. intros x Hx. lia.
Qed.

Lemma validateLine_skipped (i : Z) (raw : str) :
  skipLine (trim raw) = true -> validateLine i raw = ([], []).
Proof. unfold validateLine, skipLine. now intros ->. Qed.

Lemma validateLines_skipped (ls : list str) :
  forall i errors warnings,
    (forall l, In l ls -> skipLine (trim l) = true) ->
    validateLines i ls errors warnings = (errors, warnings).
Proof.
  induction ls as [|raw ls IH]; intros i errors warnings H; simpl; [reflexivity|].
  rewrite validateLine_skipped by (apply H; now left).
  rewrite !app_nil_r. apply IH. intros l Hl. apply H. now right.
Qed.

Lemma extractLines_skipped (ls : list str) (fuel : nat) :
  (forall l, In l ls -> skipLine (trim l) = true) ->
  extractLines fuel ls = Some [].
Proof.
  induction ls as [|raw ls IH]; intros H; simpl; [reflexivity|].
  rewrite (H raw) by now left. apply IH. intros l Hl. apply H. now right.
Qed.

(** X8.  A text made of blank lines and comment lines only (the empty text is
    one) is valid, has no error, no warning and no triple, and parses to the
    empty graph. *)
Theorem blank_text_is_empty_graph (now : R) (st : Parser.State) (mettaText : str) :
  (forall l, In l (lines mettaText) -> skipLine (trim l) = true) ->
  validateSyntax mettaText = Validation.mk true [] []
  /\ extractTriples mettaText = []
  /\ PResult.nodes (fst (Parser.parse now st mettaText)) = []
  /\ PResult.edges (fst (Parser.parse now st mettaText)) = []
  /\ PResult.errors (fst (Parser.parse now st mettaText)) = []
  /\ Parser.graphTransformer (snd (Parser.parse now st mettaText))
     = Parser.graphTransformer st.
Proof.
  intros H.
  assert (Hv : validateSyntax mettaText = Validation.mk true [] []).
  { unfold validateSyntax. now rewrite validateLines_skipped. }
  assert (Ht : extractTriples mettaText = []).
  { unfold extractTriples, extractTriplesFuel.
    now rewrite extractLines_skipped. }
  split; [assumption|]. split; [assumption|].
  unfold Parser.parse. rewrite Hv, Ht. simpl. auto.
Qed.

Lemma blank_text_is_empty_graph_witness :
  validateSyntax (#"; a comment" ++ [newline] ++ #"   ") = Validation.mk true [] []
  /\ extractTriples (#"; a comment" ++ [newline] ++ #"   ") = [].
Proof.
  destruct (@blank_text_is_empty_graph 0%R Parser.initial
              (#"; a comment" ++ [newline] ++ #"   ")) as [Hv [Ht _]].
  - intros l [<-|[<-|[]]]; reflexivity.
  - split; assumption.
Defined.

(** X9.  A line that is neither blank nor a comment and does not start with an
    opening parenthesis is reported as "Expression must be enclosed in
    parentheses" at column 0, and the text is not valid. *)
Theorem not_enclosed_error (mettaText raw : str) (i : nat) :
  nth_error (lines mettaText) i = Some raw ->
  skipLine (trim raw) = false ->
  firstIs lparen (trim raw) = false ->
  In (PErr.mk (Z.of_nat i + 1) 0 msgEnclosed Severity.error)
     (Validation.errors (validateSyntax mettaText))
  /\ Validation.isValid (validateSyntax mettaText) = false.
Proof.
  intros Hnth Hskip Hf.
  assert (Hin : In (PErr.mk (Z.of_nat i + 1) 0 msgEnclosed Severity.error)
                   (Validation.errors (validateSyntax mettaText))).
  { rewrite validateSyntax_errors.
    apply validateLines_line with (k := i) (raw := raw); [assumption|].
    unfold validateLine. unfold skipLine in Hskip. rewrite Hskip, Hf.
    simpl. now left. }
  split; [assumption|].
  rewrite validateSyntax_isValid.
  destruct (Validation.errors (validateSyntax mettaText)); [contradiction|].
  reflexivity.
Qed.

Lemma not_enclosed_error_witness :
  In (PErr.mk 2 0 msgEnclosed Severity.error)
     (Validation.errors
        (validateSyntax (#"(gender Chandler M)" ++ [newline] ++ #"gender Joey M")))
  /\ Validation.isValid
       (validateSyntax (#"(gender Chandler M)" ++ [newline] ++ #"gender Joey M"))
     = false.
Proof.
  apply (@not_enclosed_error
           (#"(gender Chandler M)" ++ [newline] ++ #"gender Joey M")
           #"gender Joey M" 1); reflexivity.
Defined.

Lemma trim_idempotent (s : str) : trim (trim s) = trim s.
Proof.
  destruct (trim_ends s) as [E|[Hs He]]; [now rewrite E|].
  now apply trim_id.
Qed.

Lemma scanParens_parenFree (body : str) :
  forall j parenCount lastOpen,
    parenFree body ->
    scanParens body j parenCount lastOpen = (None, parenCount, lastOpen).
Proof.
  induction body as [|c body IH]; intros j pc lo [Hl Hr]; simpl; [reflexivity|].
  assert (El : Ascii.eqb c lparen = false).
  { apply Ascii.eqb_neq. intros ->. apply Hl. now left. }
  assert (Er : Ascii.eqb c rparen = false).
  { apply Ascii.eqb_neq. intros ->. apply Hr. now left. }
  rewrite El, Er. apply IH.
  split; intros H; [apply Hl|apply Hr]; now right.
Qed.

Lemma lastIs_parenFree (body : str) :
  parenFree body -> lastIs rparen (lparen :: body) = false.
Proof.
  intros [_ Hr]. unfold lastIs.
  destruct (rev (lparen :: body)) as [|c r] eqn:E; [reflexivity|].
  simpl. apply Ascii.eqb_neq. intros ->.
  assert (Hin : In rparen (lparen :: body)).
  { apply in_rev. rewrite E. now left. }
  destruct Hin as [Hx|Hx]; [discriminate|contradiction].
Qed.

(** X10.  A single line that opens a parenthesis and holds no other parenthesis,
    like "(gender Chandler M", yields exactly one error, "Unmatched opening
    parenthesis" at line 1, column 1, no warning and no triple. *)
Theorem unclosed_line (mettaText body : str) :
  ~ In newline mettaText ->
  trim mettaText = lparen :: body ->
  parenFree body ->
  validateSyntax mettaText
  = Validation.mk false [PErr.mk 1 1 msgOpening Severity.error] []
  /\ extractTriples mettaText = [].
Proof.
  intros Hnl Htrim Hpf.
  assert (Hlines : lines mettaText = [mettaText]).
  { unfold lines. now rewrite splitOn_none. }
  split.
  - unfold validateSyntax. rewrite Hlines, validateLines_single.
    unfold validateLine. rewrite Htrim.
    change (scanParens (lparen :: body) 0 0 (-1))
      with (scanParens body (0 + 1) (0 + 1) 0).
    rewrite scanParens_parenFree by assumption.
    change (firstIs lparen (lparen :: body)) with true.
    change (firstIs semicolon (lparen :: body)) with false.
    cbn [length Nat.eqb negb orb]. rewrite andb_false_r.
    reflexivity.
  - unfold extractTriples, extractTriplesFuel. rewrite Hlines.
    cbn [extractLines]. rewrite Htrim.
    change (skipLine (lparen :: body)) with false. cbv iota.
    rewrite parseExpressionFuel_eq.
    rewrite <- Htrim, trim_idempotent, Htrim.
    rewrite lastIs_parenFree by assumption.
    reflexivity.
Qed.

Lemma unclosed_line_witness :
  validateSyntax #"(gender Chandler M"
  = Validation.mk false [PErr.mk 1 1 msgOpening Severity.error] []
  /\ extractTriples #"(gender Chandler M" = [].
Proof.
  apply (@unclosed_line #"(gender Chandler M" #"gender Chandler M").
  - vm_compute. intuition discriminate.
  - reflexivity.
  - split; vm_compute; intuition discriminate.
Defined.

End ValidatorFacts.

(** ** levenshteinDistance *)

Section EditDistance.

Variables s t : str.

Lemma editAt_0 (i : nat) : editAt s t 0 i = i.
Proof. reflexivity. Qed.

Lemma editAt_S0 (j : nat) : editAt s t (S j) 0 = S j.
Proof. reflexivity. Qed.

Lemma editAt_SS (j i : nat) :
  editAt s t (S j) (S i)
  = Nat.min (editAt s t (S j) i + 1)
      (Nat.min (editAt s t j (S i) + 1) (editAt s t j i + differ s t i j)).
Proof. reflexivity. Qed.

Lemma editAt_j0 (j : nat) : editAt s t j 0 = j.
Proof. destruct j; reflexivity. Qed.

(** One row of the matrix from the row above it. *)
Lemma levRow_editAt (j : nat) (suf : str) :
  forall pre,
    s = pre ++ suf ->
    levRow (nth j t Ascii.zero) suf (editAt s t j (length pre))
      (map (editAt s t j) (seq (S (length pre)) (length suf)))
      (editAt s t (S j) (length pre))
    = map (editAt s t (S j)) (seq (S (length pre)) (length suf)).
Proof.
  induction suf as [|c suf IH]; intros pre Hs; [reflexivity|].
  cbn [length seq map levRow].
  assert (Hc : nth (length pre) s Ascii.zero = c).
  { rewrite Hs, app_nth2, Nat.sub_diag by lia. reflexivity. }
  assert (Hv : Nat.min (editAt s t (S j) (length pre) + 1)
                 (Nat.min (editAt s t j (S (length pre)) + 1)
                    (editAt s t j (length pre)
                     + (if Ascii.eqb c (nth j t Ascii.zero) then 0 else 1)))
               = editAt s t (S j) (S (length pre))).
  { rewrite editAt_SS. unfold differ. now rewrite Hc. }
  rewrite Hv. f_equal.
  specialize (IH (pre ++ [c])).
  rewrite length_app in IH. simpl in IH.
  replace (length pre + 1) with (S (length pre)) in IH by lia.
  apply IH. rewrite Hs, <- app_assoc. reflexivity.
Qed.

Lemma levRows_editAt (suf : str) :
  forall pre,
    t = pre ++ suf ->
    levRows s suf (S (length pre))
      (map (editAt s t (length pre)) (seq 0 (S (length s))))
    = map (editAt s t (length t)) (seq 0 (S (length s))).
Proof.
  induction suf as [|c suf IH]; intros pre Ht.
  - simpl. rewrite Ht, app_nil_r. reflexivity.
  - cbn [levRows]. cbn [seq map].
    assert (Hc : nth (length pre) t Ascii.zero = c).
    { rewrite Ht, app_nth2, Nat.sub_diag by lia. reflexivity. }
    pose proof (@levRow_editAt (length pre) s [] eq_refl) as Hrow.
    cbn [length] in Hrow. rewrite Hc in Hrow.
    change (editAt s t (S (length pre)) 0) with (S (length pre)) in Hrow.
    rewrite Hrow.
    specialize (IH (pre ++ [c])).
    rewrite length_app in IH. simpl in IH.
    replace (length pre + 1) with (S (length pre)) in IH by lia.
    cbn [seq map] in IH.
    change (editAt s t (S (length pre)) 0) with (S (length pre)) in IH.
    apply IH. rewrite Ht, <- app_assoc. reflexivity.
Qed.

(** The matrix of [levenshteinDistance] holds the edit-distance recurrence:
    the result is its value at the full lengths. *)
Theorem levenshteinDistance_recurrence :
  levenshteinDistance s t = editAt s t (length t) (length s).
Proof.
  unfold levenshteinDistance.
  pose proof (@levRows_editAt t [] eq_refl) as H. simpl length in H.
  assert (H0 : map (editAt s t 0) (seq 0 (S (length s))) = seq 0 (S (length s))).
  { rewrite <- (map_id (seq 0 (S (length s)))) at 2. apply map_ext. reflexivity. }
  rewrite H0 in H. rewrite H.
  rewrite seq_S, map_app. simpl. apply last_last.
Qed.

Lemma editAt_bounds (j : nat) :
  forall i,
    i <= editAt s t j i + j /\ j <= editAt s t j i + i
    /\ editAt s t j i <= Nat.max i j.
Proof.
  induction j as [|j IHj]; intros i; [rewrite editAt_0; lia|].
  induction i as [|i IHi]; [rewrite editAt_S0; lia|].
  rewrite editAt_SS.
  pose proof (IHj i). pose proof (IHj (S i)).
  unfold differ. destruct (Ascii.eqb _ _); lia.
Qed.

Lemma firstn_S_nth (A : Type) (d : A) (l : list A) (n : nat) :
  n < length l -> firstn (S n) l = firstn n l ++ [nth n l d].
Proof.
  revert n; induction l as [|a l IH]; intros n H; simpl in H; [lia|].
  destruct n as [|n]; [reflexivity|].
  simpl. f_equal. apply IH. lia.
Qed.

Lemma editAt_zero (j : nat) :
  forall i,
    i <= length s -> j <= length t ->
    (editAt s t j i = 0 <-> i = j /\ firstn i s = firstn j t).
Proof.
  induction j as [|j IHj]; intros i Hi Hj.
  - rewrite editAt_0. split; [intros ->; auto|intros [-> _]; reflexivity].
  - induction i as [|i IHi].
    + rewrite editAt_S0. split; [discriminate|intros [H _]; discriminate].
    + rewrite editAt_SS.
      specialize (IHj i ltac:(lia) ltac:(lia)).
      rewrite (@firstn_S_nth _ Ascii.zero s i) by lia.
      rewrite (@firstn_S_nth _ Ascii.zero t j) by lia.
      unfold differ.
      destruct (Ascii.eqb (nth i s Ascii.zero) (nth j t Ascii.zero)) eqn:E.
      * apply Ascii.eqb_eq in E. rewrite E. split.
        -- intros H.
           assert (H0 : editAt s t j i = 0) by lia.
           apply IHj in H0 as [-> ->]. auto.
        -- intros [Hij Hf]. injection Hij as Hij.
           apply app_inj_tail in Hf as [Hf _].
           assert (H0 : editAt s t j i = 0) by (apply IHj; auto).
           lia.
      * split; [lia|].
        intros [Hij Hf]. apply app_inj_tail in Hf as [_ Hf].
        apply Ascii.eqb_neq in E. contradiction.
Qed.

End EditDistance.

(** X11.  The distance is zero exactly between equal strings; it is at least the
    difference of the lengths and at most the greater length. *)
Theorem levenshteinDistance_metric (s t : str) :
  (levenshteinDistance s t = 0 <-> s = t)
  /\ length s <= levenshteinDistance s t + length t
  /\ length t <= levenshteinDistance s t + length s
  /\ levenshteinDistance s t <= Nat.max (length s) (length t).
Proof.
  rewrite levenshteinDistance_recurrence. split.
  - rewrite editAt_zero by lia. rewrite !firstn_all. split.
    + intros [_ H]. exact H.
    + intros ->. auto.
  - apply editAt_bounds.
Qed.

(** X12.  A predicate that is one of the common predicates, in any letter case,
    is close to no other: it gets no "Did you mean" warning. *)
Theorem common_predicate_no_warning (predicate : str) :
  In (toLowerCase predicate) commonPredicates ->
  similarTo predicate commonPredicates = None.
Proof.
  unfold commonPredicates. intros H. cbn [similarTo].
  repeat (destruct H as [H|H]; [rewrite <- H; vm_compute; reflexivity|]).
  destruct H.
Qed.

Lemma common_predicate_no_warning_witness :
  similarTo #"Is-Parent" commonPredicates = None.
Proof.
  apply common_predicate_no_warning. vm_compute. tauto.
Defined.

(** ** handleHypergraph *)

Section HypergraphFacts.

Import GraphTransformer.

Lemma toArray_oneOrMany (l : list str) : toArray (oneOrMany l) = l.
Proof. destruct l as [|a [|b l]]; reflexivity. Qed.

Lemma filter_nested (args : list Arg) :
  (0 <? length (filter isNested args)) = existsb isNested args.
Proof.
  induction args as [|a args IH]; [reflexivity|].
  simpl. destruct (isNested a); [reflexivity|exact IH].
Qed.

(** X13.  For an expression that yields a hypergraph triple, [handleHypergraph]
    of the parser and [createHypergraphStructures] of the transformer build
    the same structure when their counters agree, and both advance their
    counter by one; for any other expression [handleHypergraph] returns
    nothing and leaves the parser as it is. *)
Theorem handleHypergraph_agrees (pst : Parser.State) (gst : GraphTransformer.State)
    (expression : str) :
  Parser.hypergraphCounter pst = hypergraphCounter gst ->
  match parseExpression expression with
  | Some parsed =>
      match expressionToTriple parsed with
      | Some triple =>
          if Triple.isHypergraph triple then
            fst (Parser.handleHypergraph pst expression)
              = fst (createHypergraphStructures gst triple)
            /\ Parser.hypergraphCounter (snd (Parser.handleHypergraph pst expression))
               = S (Parser.hypergraphCounter pst)
            /\ hypergraphCounter (snd (createHypergraphStructures gst triple))
               = S (hypergraphCounter gst)
          else Parser.handleHypergraph pst expression = ([], pst)
      | None => Parser.handleHypergraph pst expression = ([], pst)
      end
  | None => Parser.handleHypergraph pst expression = ([], pst)
  end.
Proof.
  intros Hc. unfold Parser.handleHypergraph.
  destruct (parseExpression expression) as [parsed|]; [|reflexivity].
  cbv zeta. rewrite filter_nested.
  unfold expressionToTriple. cbv zeta.
  destruct (existsb isNested (argsOf parsed)) eqn:E.
  - cbn [Triple.isHypergraph]. unfold createHypergraphStructures.
    cbn [fst snd Triple.subject Triple.object Triple.predicate
         hypergraphCounter Parser.hypergraphCounter].
    rewrite !toArray_oneOrMany, Hc. auto.
  - destruct (stringsOf (argsOf parsed)) as [|s0 rest]; [reflexivity|].
    destruct (2 <=? length (s0 :: rest)); reflexivity.
Qed.

Lemma handleHypergraph_agrees_witness :
  fst (Parser.handleHypergraph Parser.initial #"(believes Alice (likes Bob Carol))")
  = [Hyper.mk #"hypergraph-1" #"believes" [#"Alice"]
       [#"likes"; #"Bob"; #"Carol"] (Some #"believes-group-1")].
Proof.
  pose proof (@handleHypergraph_agrees Parser.initial GraphTransformer.initial
                #"(believes Alice (likes Bob Carol))" eq_refl) as H.
  vm_compute in H. destruct H as [H _]. vm_compute. exact H.
Defined.

End HypergraphFacts.

(** ** Invariants of the transformer *)

Section TransformerInvariants.

Import NodeUtils GraphTransformer.

(** *** Nodes *)

Lemma createNodes_spec (pos : nat -> Point) (labels : list str) :
  forall i nodes,
    let nodes' := fst (createNodes pos i labels nodes) in
    let refs := snd (createNodes pos i labels nodes) in
    (exists added, map Node.id nodes' = map Node.id nodes ++ added)
    /\ Forall (fun r => r < length nodes') refs
    /\ totalOccurrences nodes' = totalOccurrences nodes + length labels
    /\ (distinctIds nodes -> distinctIds nodes')
    /\ (Forall typedByOrigin nodes -> Forall typedByOrigin nodes').
Proof.
  induction labels as [|l labels IH]; intros i nodes; cbn [createNodes].
  - cbn [fst snd length]. repeat split; auto.
    + exists []. now rewrite app_nil_r.
  - pose proof (@createOrUpdateNode_spec nodes l (Some (pos i)))
      as [[n [Hn Hid]] [[added1 Hids1] [Hd1 Ho1]]].
    assert (Ht1 : Forall typedByOrigin nodes ->
                  Forall typedByOrigin (fst (createOrUpdateNode nodes l (Some (pos i))))).
    { intros H. unfold createOrUpdateNode.
      destruct (findIndex nodes (generateNodeId l) 0); cbn [fst].
      - apply updateAt_Forall; [|assumption]. intros a Ha. exact Ha.
      - apply Forall_app. split; [assumption|].
        constructor; [|constructor]. right. split; [reflexivity|discriminate]. }
    destruct (createOrUpdateNode nodes l (Some (pos i))) as [nodes1 r].
    cbn [fst snd] in *.
    specialize (IH (S i) nodes1).
    destruct (createNodes pos (S i) labels nodes1) as [nodes2 refs].
    cbn [fst snd] in *.
    destruct IH as [[added2 Hids2] [Hrefs [Ho2 [Hd2 Ht2]]]].
    split; [|split; [|split; [|split]]].
    + exists (added1 ++ added2). now rewrite Hids2, Hids1, app_assoc.
    + constructor; [|assumption].
      apply (f_equal (@length str)) in Hids2.
      rewrite length_app, !length_map in Hids2.
      assert (r < length nodes1) by (apply nth_error_Some; congruence).
      lia.
    + cbn [length]. lia.
    + auto.
    + auto.
Qed.

Lemma setProperties_id (predicate : str) (n : GraphNode) :
  Node.id (setProperties predicate n) = Node.id n.
Proof.
  unfold setProperties. destruct (Node.color n); cbn;
    match goal with |- context [if ?b then _ else _] => destruct b end;
    reflexivity.
Qed.

Lemma setProperties_occurrences (predicate : str) (n : GraphNode) :
  occurrencesOf (setProperties predicate n) = occurrencesOf n.
Proof.
  unfold setProperties, occurrencesOf. destruct (Node.color n); cbn;
    match goal with |- context [if ?b then _ else _] => destruct b end;
    reflexivity.
Qed.

Lemma determineNodeType_not_hypergraph (label predicate : str) :
  determineNodeType label predicate <> NodeType.hypergraph.
Proof.
  unfold determineNodeType.
  repeat match goal with |- context [if ?b then _ else _] => destruct b end;
    discriminate.
Qed.

Lemma setProperties_generated (predicate : str) (n : GraphNode) :
  Meta.isGenerated (Node.metadata (setProperties predicate n))
  = Meta.isGenerated (Node.metadata n).
Proof.
  unfold setProperties. destruct (Node.color n); cbn;
    match goal with |- context [if ?b then _ else _] => destruct b end;
    reflexivity.
Qed.

Lemma setProperties_type (predicate : str) (n : GraphNode) :
  Node.type (setProperties predicate n)
  = if NodeType.eqb (Node.type n) NodeType.entity
    then determineNodeType (Node.label n) predicate
    else Node.type n.
Proof.
  unfold setProperties. destruct (Node.color n); cbn;
    destruct (NodeType.eqb (Node.type n) NodeType.entity); reflexivity.
Qed.

Lemma setProperties_typed (predicate : str) (n : GraphNode) :
  typedByOrigin n -> typedByOrigin (setProperties predicate n).
Proof.
  unfold typedByOrigin.
  rewrite setProperties_generated, setProperties_type.
  intros [[Hg Ht]|[Hg Ht]].
  - left. rewrite Ht. auto.
  - right. split; [assumption|].
    destruct (NodeType.eqb (Node.type n) NodeType.entity); [|assumption].
    apply determineNodeType_not_hypergraph.
Qed.

Lemma setNodeProperties_spec (refs : list nat) (predicate : str) :
  forall nodes,
    map Node.id (setNodeProperties refs predicate nodes) = map Node.id nodes
    /\ map occurrencesOf (setNodeProperties refs predicate nodes)
       = map occurrencesOf nodes
    /\ (Forall typedByOrigin nodes ->
        Forall typedByOrigin (setNodeProperties refs predicate nodes)).
Proof.
  unfold setNodeProperties.
  induction refs as [|r refs IH]; intros nodes; cbn [fold_left]; [auto|].
  destruct (IH (updateAt r (setProperties predicate) nodes)) as [H1 [H2 H3]].
  rewrite H1, H2.
  rewrite !updateAt_map
    by (intros; apply setProperties_id || apply setProperties_occurrences).
  repeat split. intros H. apply H3.
  apply updateAt_Forall; [apply setProperties_typed|assumption].
Qed.

Lemma idAt_In (nodes : list GraphNode) (r : nat) :
  r < length nodes -> In (idAt nodes r) (map Node.id nodes).
Proof.
  intros H. unfold idAt.
  destruct (nth_error nodes r) as [n|] eqn:E.
  - apply in_map. eapply nth_error_In. exact E.
  - apply nth_error_None in E. lia.
Qed.

(** *** Edges *)

Lemma edgeExists_false (edges : list GraphEdge) (edgeId : str) :
  edgeExists edges edgeId = false -> ~ In edgeId (map Edge.id edges).
Proof.
  unfold edgeExists. intros H Hin.
  apply in_map_iff in Hin as [e [He Hin]].
  assert (existsb (fun edge => Str.eqb (Edge.id edge) edgeId) edges = true);
    [|congruence].
  apply existsb_exists. exists e. split; [assumption|].
  rewrite He. apply str_eqb_refl.
Qed.

Lemma addEdge_wellFormed (nodes : list GraphNode) (predicate : str)
    (directed : bool) (type : EdgeType) (sourceId targetId : str)
    (edges : list GraphEdge) :
  In sourceId (map Node.id nodes) -> In targetId (map Node.id nodes) ->
  distinctEdgeIds edges /\ anchored nodes edges ->
  distinctEdgeIds (addEdge predicate directed type sourceId targetId edges)
  /\ anchored nodes (addEdge predicate directed type sourceId targetId edges).
Proof.
  intros Hs Ht [Hd Ha]. unfold addEdge.
  destruct (edgeExists edges _) eqn:E; [auto|].
  apply edgeExists_false in E. split.
  - unfold distinctEdgeIds. rewrite map_app. cbn [map Edge.id].
    apply NoDup_app; [assumption|constructor; [intros []|constructor]|].
    intros x Hx [<-|[]]. contradiction.
  - apply Forall_app. split; [assumption|].
    constructor; [|constructor]. cbn. auto.
Qed.

Lemma createEdgesBetweenNodes_wellFormed (nodes : list GraphNode)
    (sourceNodes targetNodes : list nat) (triple : Triple) :
  Forall (fun r => r < length nodes) sourceNodes ->
  Forall (fun r => r < length nodes) targetNodes ->
  forall edges,
    distinctEdgeIds edges /\ anchored nodes edges ->
    distinctEdgeIds (createEdgesBetweenNodes nodes sourceNodes targetNodes triple edges)
    /\ anchored nodes
         (createEdgesBetweenNodes nodes sourceNodes targetNodes triple edges).
Proof.
  intros Hs Ht. unfold createEdgesBetweenNodes.
  induction Hs as [|s sourceNodes Hs0 Hs IH]; intros edges H; cbn [fold_left];
    [assumption|].
  apply IH. clear IH.
  revert edges H.
  induction Ht as [|t targetNodes Ht0 Ht IHt]; intros edges H; cbn [fold_left];
    [assumption|].
  apply IHt. apply addEdge_wellFormed; auto using idAt_In.
Qed.

Lemma createHypergraphConnections_wellFormed (nodes : list GraphNode)
    (entityNodes : list nat) (intermediateNode : GraphNode) (triple : Triple) :
  Forall (fun r => r < length nodes) entityNodes ->
  In (Node.id intermediateNode) (map Node.id nodes) ->
  forall edges,
    distinctEdgeIds edges /\ anchored nodes edges ->
    distinctEdgeIds
      (createHypergraphConnections nodes entityNodes intermediateNode triple edges)
    /\ anchored nodes
         (createHypergraphConnections nodes entityNodes intermediateNode triple edges).
Proof.
  intros Hr Hi. unfold createHypergraphConnections.
  induction Hr as [|r entityNodes Hr0 Hr IH]; intros edges H; cbn [fold_left];
    [assumption|].
  apply IH. apply addEdge_wellFormed; auto using idAt_In.
Qed.

Lemma anchored_grow (nodes nodes' : list GraphNode) (edges : list GraphEdge) :
  (exists added, map Node.id nodes' = map Node.id nodes ++ added) ->
  anchored nodes edges -> anchored nodes' edges.
Proof.
  intros [added H]. apply Forall_impl. intros e [Hs Ht].
  rewrite H. split; apply in_or_app; now left.
Qed.

Lemma anchored_same (nodes nodes' : list GraphNode) (edges : list GraphEdge) :
  map Node.id nodes' = map Node.id nodes ->
  anchored nodes edges -> anchored nodes' edges.
Proof. unfold anchored. now intros ->. Qed.

Lemma lt_same_length (A : Type) (l l' : list A) (refs : list nat) :
  length l <= length l' ->
  Forall (fun r => r < length l) refs -> Forall (fun r => r < length l') refs.
Proof. intros H. apply Forall_impl. intros; lia. Qed.

Lemma ids_length (nodes nodes' : list GraphNode) :
  (exists added, map Node.id nodes' = map Node.id nodes ++ added) ->
  length nodes <= length nodes'.
Proof.
  intros [added H]. apply (f_equal (@length str)) in H.
  rewrite length_app, !length_map in H. lia.
Qed.

Lemma same_ids_length (nodes nodes' : list GraphNode) :
  map Node.id nodes' = map Node.id nodes -> length nodes' = length nodes.
Proof.
  intros H. apply (f_equal (@length str)) in H. now rewrite !length_map in H.
Qed.

End TransformerInvariants.

(** ** What every transformed graph satisfies *)

Section TransformerResults.

Import NodeUtils GraphTransformer.

Lemma processSimpleTriple_spec (triple : Triple) (nodes : list GraphNode)
    (edges : list GraphEdge) (index : nat) :
  let nodes' := fst (processSimpleTriple triple nodes edges index) in
  let edges' := snd (processSimpleTriple triple nodes edges index) in
  (distinctEdgeIds edges /\ anchored nodes edges ->
   distinctEdgeIds edges' /\ anchored nodes' edges')
  /\ (Forall typedByOrigin nodes -> Forall typedByOrigin nodes')
  /\ totalOccurrences nodes' = totalOccurrences nodes + mentions triple
  /\ (distinctIds nodes -> distinctIds nodes').
Proof.
  unfold processSimpleTriple.
  match goal with
  | |- context [createNodes ?p 0 ?l nodes] =>
      pose proof (@createNodes_spec p l 0 nodes) as H1;
      destruct (createNodes p 0 l nodes) as [nodes1 subjectNodes]
  end.
  match goal with
  | |- context [createNodes ?p 0 ?l nodes1] =>
      pose proof (@createNodes_spec p l 0 nodes1) as H2;
      destruct (createNodes p 0 l nodes1) as [nodes2 objectNodes]
  end.
  cbn [fst snd] in *.
  destruct H1 as [Hids1 [Hrefs1 [Ho1 [Hd1 Ht1]]]].
  destruct H2 as [Hids2 [Hrefs2 [Ho2 [Hd2 Ht2]]]].
  destruct (@setNodeProperties_spec (subjectNodes ++ objectNodes)
              (Triple.predicate triple) nodes2) as [Hsid [Hsocc Hstyp]].
  set (nodes3 := setNodeProperties (subjectNodes ++ objectNodes)
                   (Triple.predicate triple) nodes2) in *.
  pose proof (@same_ids_length _ _ Hsid) as Hlen3.
  pose proof (@ids_length _ _ Hids2) as Hlen2.
  split; [|split; [|split]].
  - intros [Hd Ha].
    apply createEdgesBetweenNodes_wellFormed.
    + rewrite Hlen3. eapply lt_same_length; [exact Hlen2|exact Hrefs1].
    + now rewrite Hlen3.
    + split; [assumption|].
      eapply anchored_same; [exact Hsid|].
      eapply anchored_grow; [exact Hids2|].
      eapply anchored_grow; [exact Hids1|]. exact Ha.
  - auto.
  - unfold totalOccurrences in *. rewrite Hsocc. unfold mentions. lia.
  - intros Hd. unfold distinctIds in *. rewrite Hsid. auto.
Qed.

Lemma hasIntermediate_last (hypergraphs : list HypergraphStructure)
    (st : State) (triple : Triple) :
  hasIntermediate (hypergraphs ++ fst (createHypergraphStructures st triple)) = true.
Proof.
  unfold hasIntermediate, createHypergraphStructures. cbn [fst].
  rewrite rev_app_distr. cbn [rev app Hyper.intermediateNodeId].
  rewrite !length_app. cbn [lit list_ascii_of_string length].
  destruct (length (Triple.predicate triple)); reflexivity.
Qed.

Lemma processHypergraphTriple_spec (st : State) (triple : Triple)
    (nodes : list GraphNode) (edges : list GraphEdge)
    (hypergraphs : list HypergraphStructure) (index : nat) :
  hasIntermediate hypergraphs = true ->
  let nodes' :=
    fst (processHypergraphTriple st triple nodes edges hypergraphs index) in
  let edges' :=
    snd (processHypergraphTriple st triple nodes edges hypergraphs index) in
  (distinctEdgeIds edges /\ anchored nodes edges ->
   distinctEdgeIds edges' /\ anchored nodes' edges')
  /\ (Forall typedByOrigin nodes -> Forall typedByOrigin nodes')
  /\ totalOccurrences nodes' = totalOccurrences nodes + mentions triple + 1.
Proof.
  intros Hint. unfold processHypergraphTriple. rewrite Hint.
  match goal with
  | |- context [createNodes ?p 0 ?l nodes] =>
      pose proof (@createNodes_spec p l 0 nodes) as H1;
      destruct (createNodes p 0 l nodes) as [nodes1 entityNodes]
  end.
  cbn [fst snd] in *.
  destruct H1 as [Hids1 [Hrefs1 [Ho1 [_ Ht1]]]].
  set (inter := createIntermediateNode (Triple.predicate triple)
                  (hypergraphCounter st) (Point.mk 0 (INR index * 150))) in *.
  destruct (@setNodeProperties_spec entityNodes (Triple.predicate triple)
              (nodes1 ++ [inter])) as [Hsid [Hsocc Hstyp]].
  set (nodes3 := setNodeProperties entityNodes (Triple.predicate triple)
                   (nodes1 ++ [inter])) in *.
  assert (Hgrow : exists added, map Node.id (nodes1 ++ [inter])
                                = map Node.id nodes1 ++ added).
  { exists [Node.id inter]. now rewrite map_app. }
  split; [|split].
  - intros [Hd Ha].
    assert (H : distinctEdgeIds
                  (createHypergraphConnections (nodes1 ++ [inter]) entityNodes
                     inter triple edges)
                /\ anchored (nodes1 ++ [inter])
                     (createHypergraphConnections (nodes1 ++ [inter]) entityNodes
                        inter triple edges)).
    { apply createHypergraphConnections_wellFormed.
      - eapply lt_same_length; [|exact Hrefs1]. rewrite length_app. lia.
      - rewrite map_app. apply in_or_app. right. now left.
      - split; [assumption|].
        eapply anchored_grow; [exact Hgrow|].
        eapply anchored_grow; [exact Hids1|]. exact Ha. }
    destruct H as [H1 H2]. split; [assumption|].
    eapply anchored_same; [exact Hsid|exact H2].
  - intros H. apply Hstyp. apply Forall_app. split; [auto|].
    constructor; [|constructor]. left. split; reflexivity.
  - unfold totalOccurrences in *. rewrite Hsocc, map_app, list_sum_app.
    rewrite length_app in Ho1. unfold mentions. cbn. lia.
Qed.

Lemma processTriple_spec (acc : Acc) (index : nat) (triple : Triple) :
  let acc' := processTriple acc index triple in
  let k := if Triple.isHypergraph triple then 1 else 0 in
  (wellFormedAcc acc -> wellFormedAcc acc')
  /\ totalOccurrences (accNodes acc')
     = totalOccurrences (accNodes acc) + mentions triple + k
  /\ length (accHypergraphs acc') = length (accHypergraphs acc) + k
  /\ hypergraphCounter (accState acc') = hypergraphCounter (accState acc) + k
  /\ (Triple.isHypergraph triple = false ->
      distinctIds (accNodes acc) -> distinctIds (accNodes acc')).
Proof.
  unfold processTriple, wellFormedAcc.
  destruct (Triple.isHypergraph triple).
  - pose proof (@hasIntermediate_last (accHypergraphs acc) (accState acc) triple)
      as Hint.
    destruct (createHypergraphStructures (accState acc) triple) as [hs st1] eqn:E.
    cbn [fst] in Hint.
    pose proof (@processHypergraphTriple_spec st1 triple (accNodes acc)
                  (accEdges acc) (accHypergraphs acc ++ hs) index Hint)
      as [Hw [Ht Ho]].
    destruct (processHypergraphTriple st1 triple (accNodes acc) (accEdges acc)
                (accHypergraphs acc ++ hs) index) as [nodes' edges'].
    cbn [fst snd accNodes accEdges accHypergraphs accState] in *.
    unfold createHypergraphStructures in E. injection E as <- <-.
    repeat split; try tauto.
    + rewrite length_app. reflexivity.
    + cbn. lia.
    + discriminate.
  - pose proof (@processSimpleTriple_spec triple (accNodes acc) (accEdges acc) index)
      as [Hw [Ht [Ho Hd]]].
    destruct (processSimpleTriple triple (accNodes acc) (accEdges acc) index)
      as [nodes' edges'].
    cbn [fst snd accNodes accEdges accHypergraphs accState] in *.
    repeat split; try tauto; lia.
Qed.

Lemma processTriples_spec (triples : list Triple) :
  forall index acc,
    let acc' := processTriples triples index acc in
    (wellFormedAcc acc -> wellFormedAcc acc')
    /\ totalOccurrences (accNodes acc')
       = totalOccurrences (accNodes acc) + totalMentions triples
         + hypergraphCount triples
    /\ length (accHypergraphs acc')
       = length (accHypergraphs acc) + hypergraphCount triples
    /\ hypergraphCounter (accState acc')
       = hypergraphCounter (accState acc) + hypergraphCount triples
    /\ (noHypergraph triples = true ->
        distinctIds (accNodes acc) -> distinctIds (accNodes acc')).
Proof.
  induction triples as [|t triples IH]; intros index acc; cbn [processTriples].
  - cbv zeta. unfold totalMentions, hypergraphCount.
    cbn [map list_sum fold_right filter length].
    split; [auto|]. split; [lia|]. split; [lia|]. split; [lia|auto].
  - destruct (@processTriple_spec acc index t) as [Hw [Ho [Hh [Hc Hd]]]].
    destruct (IH (S index) (processTriple acc index t)) as [Hw' [Ho' [Hh' [Hc' Hd']]]].
    cbv zeta. unfold totalMentions, hypergraphCount, noHypergraph, list_sum in *.
    cbn [map fold_right filter forallb].
    rewrite Ho', Hh', Hc', Ho, Hh, Hc.
    destruct (Triple.isHypergraph t); cbn [length negb andb];
      (split; [auto|]; split; [lia|]; split; [lia|]; split; [lia|]);
      [discriminate|auto].
Qed.

(** *** detectBidirectionalRelationships keeps a part of its input *)

Lemma secondPass_In (edges : list GraphEdge) :
  forall processed keys e,
    In e (secondPass edges processed keys) -> In e processed \/ In e edges.
Proof.
  induction edges as [|x edges IH]; intros processed keys e H; cbn in H; [auto|].
  destruct (hasKey keys (forwardKey x)).
  - apply IH in H as [H|H]; auto. right. now right.
  - apply IH in H as [H|H]; [|right; now right].
    apply in_app_or in H as [H|[<-|[]]]; auto. right. now left.
Qed.

Lemma secondPass_distinctIds (edges : list GraphEdge) :
  forall processed keys,
    distinctEdgeIds (processed ++ edges) ->
    distinctEdgeIds (secondPass edges processed keys).
Proof.
  unfold distinctEdgeIds.
  induction edges as [|x edges IH]; intros processed keys H; cbn.
  - now rewrite app_nil_r in H.
  - destruct (hasKey keys (forwardKey x)).
    + apply IH. rewrite map_app in *. cbn in H.
      eapply NoDup_remove_1. exact H.
    + apply IH. now rewrite <- app_assoc.
Qed.

(** X14.  In every graph the transformer builds, no two edges share an id, both
    ends of every edge are ids of nodes of the graph, and the nodes of type
    hypergraph are exactly the generated intermediate nodes. *)
Theorem transform_wellFormed (now : R) (st : State) (triples : list Triple) :
  let g := fst (transformTriplestoGraph now st triples) in
  distinctEdgeIds (GData.edges g)
  /\ anchored (GData.nodes g) (GData.edges g)
  /\ Forall typedByOrigin (GData.nodes g).
Proof.
  cbv zeta. unfold transformTriplestoGraph. cbn [fst GData.edges GData.nodes].
  destruct (@processTriples_spec triples 0 (mkAcc [] [] [] st)) as [Hw _].
  destruct Hw as [Hd [Ha Ht]].
  { repeat split; constructor. }
  split; [|split; [|assumption]].
  - apply secondPass_distinctIds. exact Hd.
  - unfold anchored in *. rewrite Forall_forall in *.
    intros e He. apply Ha.
    apply secondPass_In in He as [[]|He]. exact He.
Qed.

(** X15.  The occurrences of the nodes add up to the number of labels the triples
    mention, plus one for every intermediate node; there is one
    HypergraphStructure per hypergraph triple, and the counter of the
    transformer advances by their number. *)
Theorem transform_counts (now : R) (st : State) (triples : list Triple) :
  let g := fst (transformTriplestoGraph now st triples) in
  let st' := snd (transformTriplestoGraph now st triples) in
  totalOccurrences (GData.nodes g)
    = totalMentions triples + hypergraphCount triples
  /\ length (GData.hypergraphs g) = hypergraphCount triples
  /\ hypergraphCounter st' = hypergraphCounter st + hypergraphCount triples.
Proof.
  cbv zeta. unfold transformTriplestoGraph.
  cbn [fst snd GData.hypergraphs GData.nodes].
  destruct (@processTriples_spec triples 0 (mkAcc [] [] [] st))
    as [_ [Ho [Hh [Hc _]]]].
  cbn in Ho, Hh, Hc. auto.
Qed.

(** X16.  Without hypergraph triples no two nodes of the graph share an id. *)
Theorem transform_distinct_nodes (now : R) (st : State) (triples : list Triple) :
  noHypergraph triples = true ->
  distinctIds (GData.nodes (fst (transformTriplestoGraph now st triples))).
Proof.
  intros H. unfold transformTriplestoGraph. cbn [fst GData.nodes].
  destruct (@processTriples_spec triples 0 (mkAcc [] [] [] st))
    as [_ [_ [_ [_ Hd]]]].
  apply Hd; [assumption|constructor].
Qed.

Lemma transform_distinct_nodes_witness :
  distinctIds
    (GData.nodes
       (fst (transformTriplestoGraph 0%R GraphTransformer.initial
               (extractTriples (#"(gender Chandler M)" ++ [newline]
                                ++ #"(gender Joey M)"))))).
Proof.
  apply transform_distinct_nodes. vm_compute. reflexivity.
Defined.

End TransformerResults.

(** ** detectBidirectionalRelationships on any list of edges *)

Section DetectFacts.

Import NodeUtils GraphTransformer.

Lemma hasKey_true (keys : list str) (k : str) :
  hasKey keys k = true -> In k keys.
Proof.
  unfold hasKey. intros H.
  apply existsb_exists in H as [x [Hx Hk]].
  apply str_eqb_eq in Hk. now subst.
Qed.

Lemma hasKey_In (keys : list str) (k : str) :
  In k keys -> hasKey keys k = true.
Proof.
  intros H. unfold hasKey. apply existsb_exists.
  exists k. split; [assumption|]. now apply str_eqb_eq.
Qed.

Lemma secondPass_keys (edges : list GraphEdge) :
  forall processed,
    NoDup (map forwardKey processed) ->
    NoDup (map forwardKey
             (secondPass edges processed (map forwardKey processed)))
    /\ (forall k, In k (map forwardKey (processed ++ edges)) ->
                  In k (map forwardKey
                          (secondPass edges processed (map forwardKey processed)))).
Proof.
  induction edges as [|e edges IH]; intros processed H; cbn [secondPass].
  - rewrite app_nil_r. auto.
  - destruct (hasKey (map forwardKey processed) (forwardKey e)) eqn:E.
    + destruct (IH processed H) as [H1 H2]. split; [assumption|].
      intros k Hk. apply H2. rewrite map_app in *. cbn [map] in Hk.
      apply in_app_or in Hk as [Hk|[<-|Hk]]; apply in_or_app; auto.
      left. now apply hasKey_true.
    + assert (Hn : NoDup (map forwardKey (processed ++ [e]))).
      { rewrite map_app. cbn [map]. apply NoDup_app.
        - assumption.
        - repeat constructor. intros [].
        - intros k Hk [<-|[]]. apply hasKey_In in Hk. congruence. }
      destruct (IH (processed ++ [e]) Hn) as [H1 H2].
      replace (map forwardKey (processed ++ [e]))
        with (map forwardKey processed ++ [forwardKey e]) in H1, H2
        by (now rewrite map_app).
      split; [assumption|].
      intros k Hk. apply H2. now rewrite <- app_assoc.
Qed.

Lemma secondPass_length (edges : list GraphEdge) :
  forall processed keys,
    length (secondPass edges processed keys) <= length processed + length edges.
Proof.
  induction edges as [|e edges IH]; intros processed keys; cbn [secondPass length].
  - lia.
  - destruct (hasKey keys (forwardKey e)).
    + specialize (IH processed keys). lia.
    + specialize (IH (processed ++ [e]) (keys ++ [forwardKey e])).
      rewrite length_app in IH. cbn [length] in IH. lia.
Qed.

(** X18.  Of the edges it is given, detectBidirectionalRelationships keeps one
    per forward key and nothing else: no two edges of the result share a
    forward key, every edge of the result was given, every forward key given
    is still there, and running it again changes nothing. *)
Theorem detect_one_per_key (edges : list GraphEdge) :
  let out := detectBidirectionalRelationships edges in
  NoDup (map forwardKey out)
  /\ (forall e, In e out -> In e edges)
  /\ (forall e, In e edges -> In (forwardKey e) (map forwardKey out))
  /\ length out <= length edges
  /\ detectBidirectionalRelationships out = out.
Proof.
  cbv zeta. unfold detectBidirectionalRelationships.
  destruct (@secondPass_keys edges [] (NoDup_nil _)) as [H1 H2].
  cbn [map app] in H1, H2.
  split; [assumption|]. split; [|split; [|split]].
  - intros e He. apply secondPass_In in He as [[]|He]. exact He.
  - intros e He. apply H2. now apply in_map.
  - apply (@secondPass_length edges [] []).
  - apply (@secondPass_distinct _ [] H1).
Qed.

(** *** The set of bidirectional pairs *)

Lemma ltb_irrefl (a : str) : Str.ltb a a = false.
Proof.
  induction a as [|x a IH]; cbn [Str.ltb]; [reflexivity|].
  now rewrite Nat.ltb_irrefl.
Qed.

Lemma ltb_asym (a : str) : forall b, Str.ltb a b = true -> Str.ltb b a = false.
Proof.
  induction a as [|x a IH]; intros [|y b] H; cbn [Str.ltb] in *;
    try reflexivity; try discriminate.
  destruct (code x <? code y) eqn:E1.
  - apply Nat.ltb_lt in E1.
    destruct (code y <? code x) eqn:E2; [apply Nat.ltb_lt in E2; lia|].
    reflexivity.
  - destruct (code y <? code x) eqn:E2; [discriminate|]. auto.
Qed.

Lemma ltb_total (a : str) :
  forall b, Str.ltb a b = false -> Str.ltb b a = false -> a = b.
Proof.
  induction a as [|x a IH]; intros [|y b] H1 H2; cbn [Str.ltb] in *;
    try reflexivity; try discriminate.
  destruct (code x <? code y) eqn:E1; [discriminate|].
  destruct (code y <? code x) eqn:E2; [discriminate|].
  apply Nat.ltb_ge in E1, E2.
  assert (Hxy : x = y).
  { rewrite <- (ascii_nat_embedding x), <- (ascii_nat_embedding y).
    unfold code in *. f_equal. lia. }
  subst. f_equal. auto.
Qed.

Lemma pairKey_reverse (e1 e2 : GraphEdge) :
  reverseOf e1 e2 -> pairKey e2 = pairKey e1.
Proof.
  intros [Hs [Ht Hl]]. unfold pairKey, forwardKey, reverseKey.
  rewrite Hs, Ht, Hl.
  set (f := Edge.source e1 ++ dash ++ Edge.target e1 ++ dash ++ Edge.label e1).
  set (r := Edge.target e1 ++ dash ++ Edge.source e1 ++ dash ++ Edge.label e1).
  cbv zeta.
  destruct (Str.ltb r f) eqn:E1.
  - now rewrite (ltb_asym _ _ E1).
  - destruct (Str.ltb f r) eqn:E2; [reflexivity|].
    now rewrite (ltb_total _ _ E1 E2).
Qed.

Lemma addKey_In (keys : list str) (k k' : str) :
  In k keys \/ k = k' -> In k (addKey keys k').
Proof.
  unfold addKey. destruct (hasKey keys k') eqn:E.
  - intros [H| ->]; [assumption|]. now apply hasKey_true.
  - intros [H| ->]; apply in_or_app; [now left|right; now left].
Qed.

Lemma firstPass_grows (edges : list GraphEdge) :
  forall edgeMap pairs k,
    In k pairs -> In k (snd (firstPass edges edgeMap pairs)).
Proof.
  induction edges as [|e edges IH]; intros edgeMap pairs k H;
    cbn [firstPass snd]; [assumption|].
  cbv zeta. apply IH.
  destruct (hasKey _ (reverseKey e)); [|assumption].
  apply addKey_In. now left.
Qed.

Lemma firstPass_records (edges : list GraphEdge) :
  forall edgeMap pairs e1 e2,
    In e1 edges -> In e2 edges -> reverseOf e1 e2 ->
    In (pairKey e1) (snd (firstPass edges edgeMap pairs)).
Proof.
  assert (Hlater : forall edges edgeMap pairs e1 e2,
             In (forwardKey e1) edgeMap -> In e2 edges ->
             forwardKey e1 = reverseKey e2 ->
             In (pairKey e2) (snd (firstPass edges edgeMap pairs))).
  { induction edges0 as [|e edges0 IH]; intros edgeMap pairs e1 e2 H1 H2 Hk;
      [destruct H2|].
    cbn [firstPass]. cbv zeta. destruct H2 as [<-|H2].
    - apply firstPass_grows.
      rewrite hasKey_In by (apply addKey_In; left; now rewrite <- Hk).
      apply addKey_In. now right.
    - eapply IH; [|exact H2|exact Hk]. apply addKey_In. now left. }
  induction edges as [|e edges IH]; intros edgeMap pairs e1 e2 H1 H2 Hr;
    [destruct H1|].
  assert (Hk12 : forwardKey e1 = reverseKey e2).
  { destruct Hr as [Hs [Ht Hl]]. unfold forwardKey, reverseKey.
    now rewrite Hs, Ht, Hl. }
  assert (Hk21 : forwardKey e2 = reverseKey e1).
  { destruct Hr as [Hs [Ht Hl]]. unfold forwardKey, reverseKey.
    now rewrite Hs, Ht, Hl. }
  cbn [firstPass]. cbv zeta.
  destruct H1 as [<-|H1]; destruct H2 as [<-|H2].
  - apply firstPass_grows.
    rewrite hasKey_In by (apply addKey_In; right; now rewrite <- Hk21).
    apply addKey_In. now right.
  - rewrite <- (pairKey_reverse Hr).
    eapply Hlater; [|exact H2|exact Hk12]. apply addKey_In. now right.
  - eapply Hlater; [|exact H1|exact Hk21]. apply addKey_In. now right.
  - eapply IH; eauto.
Qed.

(** X19.  Whenever an edge and an edge in the opposite direction with the same
    label are both among the edges, the first pass records their pair key,
    whichever of the two comes first. *)
Theorem reverse_pair_recorded (edges : list GraphEdge) (e1 e2 : GraphEdge) :
  In e1 edges -> In e2 edges -> reverseOf e1 e2 ->
  In (pairKey e1) (bidirectionalPairs edges)
  /\ pairKey e2 = pairKey e1.
Proof.
  intros H1 H2 Hr. split.
  - now apply (@firstPass_records edges [] [] e1 e2).
  - now apply pairKey_reverse.
Qed.

Lemma reverse_pair_recorded_witness :
  In (pairKey (Edge.mk #"likes-a-b" #"a" #"b" #"likes" true EdgeType.relation
                 None None))
     (bidirectionalPairs
        [Edge.mk #"likes-a-b" #"a" #"b" #"likes" true EdgeType.relation None None;
         Edge.mk #"likes-b-a" #"b" #"a" #"likes" true EdgeType.relation None None])
  /\ pairKey (Edge.mk #"likes-b-a" #"b" #"a" #"likes" true EdgeType.relation
                None None)
     = pairKey (Edge.mk #"likes-a-b" #"a" #"b" #"likes" true EdgeType.relation
                  None None).
Proof.
  apply reverse_pair_recorded.
  - left. reflexivity.
  - right. left. reflexivity.
  - repeat split.
Defined.

End DetectFacts.

(** ** The engine between layouts *)

Section EngineCalls.

Import GraphEngine.

Open Scope R_scope.

(** *** Screen and world coordinates *)

Lemma screenToWorld_worldToScreen (p : Point) (transform : Transform) :
  Transform.scale transform <> 0 ->
  screenToWorld (worldToScreen p transform) transform = p.
Proof.
  intros H. destruct p as [px py].
  unfold screenToWorld, worldToScreen. cbn [Point.x Point.y].
  f_equal; field; exact H.
Qed.

(** X20.  With a scale other than zero the two coordinate transformations undo
    each other. *)
Theorem screen_world_round_trip (p : Point) (transform : Transform) :
  Transform.scale transform <> 0 ->
  screenToWorld (worldToScreen p transform) transform = p
  /\ worldToScreen (screenToWorld p transform) transform = p.
Proof.
  intros H. split; [now apply screenToWorld_worldToScreen|].
  destruct p as [px py].
  unfold screenToWorld, worldToScreen. cbn [Point.x Point.y].
  f_equal; field; exact H.
Qed.

Lemma screen_world_round_trip_witness :
  screenToWorld (worldToScreen (Point.mk 3 4) (Transform.mk 10 20 2))
    (Transform.mk 10 20 2) = Point.mk 3 4
  /\ worldToScreen (screenToWorld (Point.mk 3 4) (Transform.mk 10 20 2))
       (Transform.mk 10 20 2) = Point.mk 3 4.
Proof.
  apply screen_world_round_trip. cbn [Transform.scale]. lra.
Defined.

(** *** handleNodeDrag *)

Lemma dragFirst_ids (nodeId : str) (position : Point) (ns : list GraphNode) :
  map Node.id (dragFirst nodeId position ns) = map Node.id ns.
Proof.
  induction ns as [|n ns IH]; cbn [dragFirst map]; [reflexivity|].
  destruct (Str.eqb (Node.id n) nodeId); cbn [map]; [reflexivity|].
  now rewrite IH.
Qed.

Lemma dragFirst_absent (nodeId : str) (position : Point) (ns : list GraphNode) :
  ~ In nodeId (map Node.id ns) -> dragFirst nodeId position ns = ns.
Proof.
  induction ns as [|n ns IH]; cbn [dragFirst map]; intros H; [reflexivity|].
  destruct (Str.eqb (Node.id n) nodeId) eqn:E.
  - apply str_eqb_eq in E. exfalso. apply H. now left.
  - rewrite IH; [reflexivity|]. intros Hin. apply H. now right.
Qed.

Lemma dragFirst_first (nodeId : str) (position : Point)
    (before after : list GraphNode) (n : GraphNode) :
  ~ In nodeId (map Node.id before) -> Node.id n = nodeId ->
  dragFirst nodeId position (before ++ n :: after)
  = before ++ Node.setPosition position n :: after.
Proof.
  intros H Hn.
  induction before as [|b before IH]; cbn [dragFirst app].
  - rewrite Hn, str_eqb_refl. reflexivity.
  - destruct (Str.eqb (Node.id b) nodeId) eqn:E.
    + apply str_eqb_eq in E. exfalso. apply H. now left.
    + rewrite IH; [reflexivity|]. intros Hin. apply H. now right.
Qed.

(** X21.  handleNodeDrag moves the first node that has the id and leaves every
    other node, the ids, the edges and a running animation alone; when no
    node has the id it changes nothing. *)
Theorem handleNodeDrag_moves_first (nodeId : str) (position : Point) (e : Engine) :
  let e' := handleNodeDrag nodeId position e in
  map Node.id (nodes e') = map Node.id (nodes e)
  /\ edges e' = edges e
  /\ layoutState e' = layoutState e
  /\ frames e' = frames e
  /\ (~ In nodeId (map Node.id (nodes e)) -> e' = e)
  /\ (forall before n after,
        nodes e = before ++ n :: after ->
        ~ In nodeId (map Node.id before) -> Node.id n = nodeId ->
        nodes e' = before ++ Node.setPosition position n :: after).
Proof.
  cbv zeta. unfold handleNodeDrag. cbn [nodes edges layoutState frames].
  split; [apply dragFirst_ids|]. repeat (split; [reflexivity|]). split.
  - intros H. rewrite dragFirst_absent by assumption. now destruct e.
  - intros before n after -> H Hn. now apply dragFirst_first.
Qed.

Lemma distanceTo_self (p : Point) (n : GraphNode) :
  distanceTo p (Node.setPosition p n) = 0.
Proof.
  unfold distanceTo. destruct n; cbn.
  replace ((Point.x p - Point.x p) * (Point.x p - Point.x p)
           + (Point.y p - Point.y p) * (Point.y p - Point.y p)) with 0 by ring.
  apply sqrt_0.
Qed.

Lemma In_split_first (nodeId : str) (ns : list GraphNode) :
  In nodeId (map Node.id ns) ->
  exists before n after,
    ns = before ++ n :: after
    /\ ~ In nodeId (map Node.id before) /\ Node.id n = nodeId.
Proof.
  induction ns as [|m ns IH]; cbn [map]; intros H; [destruct H|].
  destruct (Str.eqb (Node.id m) nodeId) eqn:E.
  - apply str_eqb_eq in E. exists [], m, ns. auto.
  - apply str_eqb_neq in E. destruct H as [H|H]; [contradiction|].
    destruct (IH H) as [before [n [after [-> [Hb Hn]]]]].
    exists (m :: before), n, after. repeat split; auto.
    intros [Hm|Hm]; contradiction.
Qed.

(** X22.  Over real-number coordinates and with a scale other than zero:
    after a node was dragged to a place, a hit test at the screen point of
    that place finds a node, and the node it finds lies within the radius
    of the place. *)
Theorem dragged_node_is_hit (nodeId : str) (position : Point)
    (transform : Transform) (e : Engine) :
  Transform.scale transform <> 0 ->
  In nodeId (map Node.id (nodes e)) ->
  exists node,
    getNodeAtPosition (handleNodeDrag nodeId position e)
      (worldToScreen position transform) transform = Some node
    /\ distanceTo position node <= nodeRadius.
Proof.
  intros Hs Hin. unfold getNodeAtPosition.
  rewrite (screenToWorld_worldToScreen position transform Hs).
  pose proof (firstWithin_spec position (nodes (handleNodeDrag nodeId position e)))
    as H.
  destruct (firstWithin position (nodes (handleNodeDrag nodeId position e)))
    as [node|].
  - destruct H as [before [after [_ [Hd _]]]]. now exists node.
  - exfalso.
    destruct (In_split_first _ _ Hin) as [before [n [after [Hn [Hb Hid]]]]].
    unfold handleNodeDrag in H. cbn [nodes] in H.
    rewrite Hn, dragFirst_first in H by assumption.
    apply Forall_app in H as [_ H]. inversion H as [|? ? Hout _]; subst.
    unfold outside in Hout. rewrite distanceTo_self in Hout.
    unfold nodeRadius in Hout. lra.
Qed.

Lemma dragged_node_is_hit_witness :
  exists node,
    getNodeAtPosition
      (handleNodeDrag #"a" (Point.mk 7 7)
         (setData [nodeAt #"a" 0 0; nodeAt #"b" 50 50] [] initial))
      (worldToScreen (Point.mk 7 7) (Transform.mk 10 20 2))
      (Transform.mk 10 20 2) = Some node
    /\ distanceTo (Point.mk 7 7) node <= nodeRadius.
Proof.
  apply dragged_node_is_hit.
  - cbn [Transform.scale]. lra.
  - left. reflexivity.
Defined.

(** *** The animation *)

Lemma progress_after (start duration currentTime : R) :
  0 < duration -> start + duration <= currentTime ->
  Rmax 0 (Rmin ((currentTime - start) / duration) 1) = 1.
Proof.
  intros Hd Ht.
  assert (H : 1 <= (currentTime - start) / duration).
  { apply Rmult_le_reg_r with duration; [assumption|].
    unfold Rdiv. rewrite Rmult_assoc, Rinv_l by lra. lra. }
  rewrite Rmin_right by assumption. apply Rmax_right. lra.
Qed.

Lemma interpolate_one (a : Animation) (targets : Map Point) (node : GraphNode) :
  mapGet (Node.id node) (initialPositions a) <> None ->
  interpolate a targets 1 node = settle targets node.
Proof.
  intros H. unfold interpolate, settle.
  destruct (mapGet (Node.id node) (initialPositions a)) as [i|];
    [|contradiction].
  destruct (mapGet (Node.id node) targets) as [t|]; [|reflexivity].
  f_equal. destruct t as [tx ty]. cbn [Point.x Point.y]. f_equal; ring.
Qed.

(** X24.  Over real-number coordinates and for a duration above zero: a
    frame that runs when the duration has passed ends the animation: every
    node that had a place at the start and has a target stands on its
    target, no further frame is requested, and the engine reports progress
    1 and no animation. *)
Theorem animate_ends (a : Animation) (currentTime : R) (e : Engine) :
  0 < animDuration a ->
  animStart a + animDuration a <= currentTime ->
  let e' := animate a currentTime e in
  LState.isAnimating (layoutState e') = false
  /\ LState.progress (layoutState e') = 1
  /\ animationFrameId e' = None
  /\ targetPositions e' = []
  /\ frames e' = frames e
  /\ (forall node,
        In node (nodes e) ->
        mapGet (Node.id node) (initialPositions a) <> None ->
        In (settle (targetPositions e) node) (nodes e'))
  /\ map Node.id (nodes e') = map Node.id (nodes e).
Proof.
  intros Hd Ht. cbv zeta. unfold animate.
  rewrite (@progress_after _ _ _ Hd Ht).
  destruct (Rlt_dec 1 1) as [Hlt|_]; [lra|].
  cbn [andb nodes layoutState animationFrameId targetPositions frames
       setProgress setAnimating LState.isAnimating LState.progress].
  replace (1 - (1 - 1) ^ 3) with 1 by ring.
  repeat (split; [reflexivity|]). split.
  - intros node Hin Hi. rewrite <- (@interpolate_one a (targetPositions e) node Hi).
    now apply in_map.
  - rewrite map_map. apply map_ext. intros n. unfold interpolate.
    destruct (mapGet _ _); [|reflexivity].
    destruct (mapGet _ _); [|reflexivity]. now destruct n.
Qed.

Lemma animate_ends_witness :
  LState.isAnimating
    (layoutState
       (animate (mkAnimation 0 1500 [(#"a", Point.mk 0 0)]) 1500
          (startLayoutAnimation 0 circular [(#"a", Point.mk 9 9)] 1500
             (setData [nodeAt #"a" 0 0] [] initial)))) = false.
Proof.
  apply (@animate_ends (mkAnimation 0 1500 [(#"a", Point.mk 0 0)]) 1500
           (startLayoutAnimation 0 circular [(#"a", Point.mk 9 9)] 1500
              (setData [nodeAt #"a" 0 0] [] initial)));
    cbn [animDuration animStart]; lra.
Defined.

(** *** One callback at a time *)

Lemma cancelFrame_single (id : nat) (a : Animation) :
  cancelFrame id [(id, a)] = [].
Proof. unfold cancelFrame. cbn. now rewrite Nat.eqb_refl. Qed.

Lemma stopLayout_tidy (e : Engine) :
  tidy e ->
  tidy (stopLayout e) /\ animationFrameId (stopLayout e) = None
  /\ frames (stopLayout e) = [].
Proof.
  unfold tidy, stopLayout.
  cbn [animationFrameId layoutState frames setAnimating LState.isAnimating].
  destruct (animationFrameId e) as [id|].
  - intros [_ [a ->]]. rewrite cancelFrame_single. auto.
  - intros [_ ->]. auto.
Qed.

Lemma startLayoutAnimation_tidy (now : R) (algorithm : LayoutAlgorithm)
    (targets : Map Point) (duration : R) (e : Engine) :
  frames e = [] -> tidy (startLayoutAnimation now algorithm targets duration e).
Proof.
  intros H. unfold tidy, startLayoutAnimation, requestFrame.
  cbn [animationFrameId layoutState frames LState.isAnimating nextFrameId].
  rewrite H. split; [reflexivity|]. eexists. reflexivity.
Qed.

Lemma applyLayout_tidy (now : R) (algorithm : LayoutAlgorithm)
    (options : option LayoutOptions) (e : Engine) :
  tidy e -> tidy (applyLayout now algorithm options e).
Proof.
  intros H. destruct (@stopLayout_tidy e H) as [H1 [_ H2]].
  unfold applyLayout. cbv zeta.
  destruct (length (nodes (stopLayout e)) =? 0)%nat; [assumption|].
  now apply startLayoutAnimation_tidy.
Qed.

Lemma animate_tidy (a : Animation) (currentTime : R) (e : Engine) :
  frames e = [] -> LState.isAnimating (layoutState e) = true ->
  tidy (animate a currentTime e).
Proof.
  intros Hf Ha. unfold animate. cbv zeta.
  cbn [layoutState setProgress LState.isAnimating].
  rewrite Ha, andb_true_r.
  destruct (Rlt_dec _ 1).
  - unfold tidy, requestFrame.
    cbn [animationFrameId layoutState frames LState.isAnimating nextFrameId
         setProgress].
    rewrite Hf. split; [assumption|]. eexists. reflexivity.
  - unfold tidy.
    cbn [animationFrameId layoutState frames LState.isAnimating
         setProgress setAnimating].
    auto.
Qed.

Lemma runFrame_tidy (currentTime : R) (e : Engine) :
  tidy e -> tidy (runFrame currentTime e).
Proof.
  unfold runFrame. intros H. pose proof H as H0. unfold tidy in H.
  destruct (animationFrameId e) as [id|] eqn:E.
  - destruct H as [Ha [a Hf]]. rewrite Hf. cbn [fold_left snd].
    apply animate_tidy; [reflexivity|exact Ha].
  - destruct H as [Ha Hf]. rewrite Hf. cbn [fold_left].
    unfold tidy. cbn [animationFrameId layoutState frames]. auto.
Qed.

(** X26.  In every state the engine gets into, it reports an animation exactly
    when one callback is registered with the host; there is never a second
    one, and none is left behind when the animation has ended or was
    stopped. *)
Theorem reachable_tidy (e : Engine) : reachable e -> tidy e.
Proof.
  induction 1 as [|ns es e _ IH|now algorithm options e _ IH
                  |nodeId position e _ IH|e _ IH|currentTime e _ IH].
  - unfold tidy. cbn. auto.
  - exact IH.
  - now apply applyLayout_tidy.
  - exact IH.
  - now apply stopLayout_tidy.
  - now apply runFrame_tidy.
Qed.

Lemma reachable_tidy_witness :
  tidy (runFrame 16 (applyLayout 0 circular None
                       (setData [nodeAt #"a" 0 0; nodeAt #"b" 1 1] [] initial))).
Proof.
  apply reachable_tidy.
  apply reach_runFrame, reach_applyLayout, reach_setData, reach_initial.
Defined.

End EngineCalls.

(** ** The layouts *)

Section LayoutFacts.

Import GraphEngine.

Open Scope R_scope.

(** *** Keys of a Map *)

Lemma str_eq_dec (a b : str) : {a = b} + {a <> b}.
Proof. apply list_eq_dec, ascii_dec. Qed.

Lemma mapGet_In (V : Type) (k : str) (m : Map V) :
  mapGet k m <> None <-> In k (map fst m).
Proof.
  induction m as [|[k' v'] m IH]; cbn [mapGet map fst In].
  - split; [congruence|intros []].
  - destruct (Str.eqb k' k) eqn:E.
    + apply str_eqb_eq in E. split; [now left|congruence].
    + apply str_eqb_neq in E. rewrite IH. split; [now right|].
      intros [H|H]; [contradiction|assumption].
Qed.

Lemma mapSet_same_keys (V : Type) (k : str) (v : V) (m : Map V) :
  In k (map fst m) -> map fst (mapSet k v m) = map fst m.
Proof.
  induction m as [|[k' v'] m IH]; cbn [mapSet map fst In]; [intros []|].
  intros H. destruct (Str.eqb k' k) eqn:E; cbn [map fst]; [reflexivity|].
  apply str_eqb_neq in E. destruct H as [H|H]; [contradiction|].
  now rewrite IH.
Qed.

Lemma mapSet_In (V : Type) (k : str) (v : V) (m : Map V) (k' : str) :
  In k' (map fst (mapSet k v m)) <-> k' = k \/ In k' (map fst m).
Proof.
  destruct (in_dec str_eq_dec k (map fst m)) as [H|H].
  - rewrite mapSet_same_keys by assumption.
    split; [now right|]. now intros [->|H'].
  - rewrite mapSet_fresh by assumption. rewrite map_app, in_app_iff.
    cbn [map fst In]. intuition.
Qed.

Lemma mapSet_NoDup (V : Type) (k : str) (v : V) (m : Map V) :
  NoDup (map fst m) -> NoDup (map fst (mapSet k v m)).
Proof.
  intros Hm. destruct (in_dec str_eq_dec k (map fst m)) as [H|H].
  - now rewrite mapSet_same_keys.
  - rewrite mapSet_fresh by assumption. rewrite map_app. cbn [map fst].
    apply NoDup_app; [assumption|repeat constructor; intros []|].
    intros k' Hk' [<-|[]]. contradiction.
Qed.

Lemma fold_mapSet_nodes (V : Type) (f : GraphNode -> V) (ns : list GraphNode) :
  forall m,
    (NoDup (map fst m) ->
     NoDup (map fst (fold_left (fun m' node => mapSet (Node.id node) (f node) m')
                       ns m)))
    /\ (forall k,
          In k (map fst (fold_left
                           (fun m' node => mapSet (Node.id node) (f node) m')
                           ns m))
          <-> In k (map fst m) \/ In k (map Node.id ns)).
Proof.
  induction ns as [|n ns IH]; intros m; cbn [fold_left map In].
  - split; [auto|]. intros k. tauto.
  - destruct (IH (mapSet (Node.id n) (f n) m)) as [H1 H2]. split.
    + intros H. apply H1. now apply mapSet_NoDup.
    + intros k. rewrite H2, mapSet_In. intuition.
Qed.

Lemma centerLayoutPositions_keys (ns : list GraphNode) (positions : Map Point) :
  wellKeyed positions ->
  map fst (centerLayoutPositions ns positions) = map fst positions.
Proof.
  intros H. unfold centerLayoutPositions.
  destruct (length positions =? 0)%nat; [reflexivity|]. cbv zeta.
  rewrite (@fold_mapSet_distinct _ _ positions [] H).
  rewrite app_nil_l, map_map. reflexivity.
Qed.

Lemma centerLayoutPositions_targets (ns : list GraphNode) (positions : Map Point) :
  targetsOf ns positions -> targetsOf ns (centerLayoutPositions ns positions).
Proof.
  intros [H1 H2]. unfold targetsOf, wellKeyed.
  rewrite centerLayoutPositions_keys by assumption. auto.
Qed.

Lemma targetsOf_nonempty (ns : list GraphNode) (positions : Map Point) :
  ns <> [] -> targetsOf ns positions -> positions <> [].
Proof.
  intros Hne [_ H] ->. destruct ns as [|n ns]; [congruence|].
  apply (H (Node.id n)). now left.
Qed.

(** *** calculateForceDirectedLayout *)

Lemma addTo_keys (k : str) (dx dy : R) (m : Map Point) :
  map fst (addTo k dx dy m) = map fst m.
Proof.
  unfold addTo. destruct (mapGet k m) eqn:E; [|reflexivity].
  apply mapSet_same_keys. apply mapGet_In. congruence.
Qed.

Lemma move_keys (options : RequiredOptions) (temperature : R)
    (ns : list GraphNode) :
  forall pv,
    map fst (fst (fold_left (move options temperature) ns pv)) = map fst (fst pv).
Proof.
  induction ns as [|n ns IH]; intros pv; cbn [fold_left]; [reflexivity|].
  rewrite IH. unfold move. cbn [fst]. apply addTo_keys.
Qed.

Lemma iterate_keys (options : RequiredOptions) (ns : list GraphNode)
    (es : list GraphEdge) (cooling : R) (count : nat) :
  forall temperature pv,
    map fst (fst (iterate count options ns es cooling temperature pv))
    = map fst (fst pv).
Proof.
  induction count as [|count IH]; intros temperature pv; cbn [iterate];
    [reflexivity|].
  rewrite IH. unfold iteration. cbv zeta. now rewrite move_keys.
Qed.

Lemma force_positions_targets (options : RequiredOptions) (ns : list GraphNode)
    (es : list GraphEdge) (count : nat) (cooling temperature : R)
    (velocities : Map Point) :
  targetsOf ns
    (fst (iterate count options ns es cooling temperature
            (fold_left (fun m node => mapSet (Node.id node) (Node.position node) m)
               ns [], velocities))).
Proof.
  unfold targetsOf, wellKeyed. rewrite iterate_keys. cbn [fst].
  destruct (@fold_mapSet_nodes Point Node.position ns []) as [H1 H2].
  split; [apply H1; constructor|].
  intros k. rewrite H2. cbn [map In]. tauto.
Qed.

(** X27.  Over real-number coordinates and for a spring length other than
    zero: the force-directed layout has exactly one target for every node
    id, whatever the edges and the other options are, and the centre of its
    targets is the centre of the places the nodes have now. *)
Theorem force_directed_layout (ns : list GraphNode) (es : list GraphEdge)
    (options : RequiredOptions) :
  ns <> [] ->
  reqSpringLength options <> 0 ->
  targetsOf ns (calculateForceDirectedLayout ns es options)
  /\ centroid (map snd (calculateForceDirectedLayout ns es options))
     = centroid (map Node.position ns).
Proof.
  intros Hne _. unfold calculateForceDirectedLayout. cbv zeta.
  match goal with
  | |- context [centerLayoutPositions ns ?p] =>
      assert (H : targetsOf ns p) by apply force_positions_targets
  end.
  split; [now apply centerLayoutPositions_targets|].
  apply centerLayoutPositions_centroid; [|apply H].
  exact (targetsOf_nonempty Hne H).
Qed.

Lemma force_directed_layout_witness :
  let ns := [nodeAt #"a" 0 0; nodeAt #"b" 30 40] in
  let es :=
    [Edge.mk #"likes-a-b" #"a" #"b" #"likes" true EdgeType.relation None None] in
  targetsOf ns (calculateForceDirectedLayout ns es (withDefaults None))
  /\ centroid (map snd (calculateForceDirectedLayout ns es (withDefaults None)))
     = centroid (map Node.position ns).
Proof.
  cbv zeta.
  refine (@force_directed_layout [nodeAt #"a" 0 0; nodeAt #"b" 30 40]
            [Edge.mk #"likes-a-b" #"a" #"b" #"likes" true EdgeType.relation
               None None]
            (withDefaults None) _ _).
  - discriminate.
  - cbn [withDefaults reqSpringLength]. lra.
Defined.

(** *** calculateCircularLayout *)

Lemma addToGroup_ids (key : NodeType) (nodeId : str)
    (groups : list (NodeType * list str)) (k : str) :
  In k (concat (map snd (addToGroup key nodeId groups)))
  <-> k = nodeId \/ In k (concat (map snd groups)).
Proof.
  induction groups as [|[t ids] groups IH]; cbn [addToGroup map snd concat].
  - rewrite app_nil_r. cbn [In]. intuition.
  - destruct (NodeType.eqb t key); cbn [map snd concat];
      rewrite !in_app_iff; [cbn [In]|rewrite IH]; intuition.
Qed.

Lemma nodeGroups_ids (ns : list GraphNode) (k : str) :
  In k (concat (map snd (nodeGroups ns))) <-> In k (map Node.id ns).
Proof.
  unfold nodeGroups.
  assert (H : forall g,
             In k (concat (map snd
                             (fold_left
                                (fun g' node =>
                                   addToGroup (Node.type node) (Node.id node) g')
                                ns g)))
             <-> In k (concat (map snd g)) \/ In k (map Node.id ns)).
  { induction ns as [|n ns IH]; intros g; cbn [fold_left map In]; [tauto|].
    rewrite IH, addToGroup_ids. intuition. }
  rewrite H. cbn [map concat In]. tauto.
Qed.

Lemma placeOnCircle_keys (radius : R) (count : nat) (nodeIds : list str) (k : str) :
  forall index positions,
    In k (map fst (placeOnCircle radius count index nodeIds positions))
    <-> In k (map fst positions) \/ In k nodeIds.
Proof.
  induction nodeIds as [|n nodeIds IH]; intros index positions;
    cbn [placeOnCircle In]; [tauto|].
  cbv zeta. rewrite IH, mapSet_In. intuition.
Qed.

Lemma placeGroups_keys (groups : list (list str)) (k : str) :
  forall groupIndex positions,
    In k (map fst (placeGroups groups groupIndex positions))
    <-> In k (map fst positions) \/ In k (concat groups).
Proof.
  induction groups as [|g groups IH]; intros groupIndex positions;
    cbn [placeGroups concat In]; [tauto|].
  cbv zeta. rewrite IH, placeOnCircle_keys, in_app_iff. tauto.
Qed.

Lemma circular_targets (ns : list GraphNode) :
  targetsOf ns (calculateCircularLayout ns).
Proof.
  destruct ns as [|n1 [|n2 ns]].
  - split; [constructor|]. cbn. tauto.
  - split; [repeat constructor; intros []|]. cbn. tauto.
  - unfold calculateCircularLayout.
    apply centerLayoutPositions_targets.
    pose proof (nodeGroups_ids (n1 :: n2 :: ns)) as Hk.
    set (groups := map snd (nodeGroups (n1 :: n2 :: ns))) in *.
    destruct groups as [|g [|g' groups]]; cbv zeta; split.
    + apply placeGroups_wellKeyed. constructor.
    + intros k. rewrite placeGroups_keys, <- Hk. cbn [map In]. tauto.
    + apply placeOnCircle_wellKeyed. constructor.
    + intros k. rewrite placeOnCircle_keys, <- Hk.
      cbn [concat map In]. rewrite app_nil_r. tauto.
    + apply placeGroups_wellKeyed. constructor.
    + intros k. rewrite placeGroups_keys, <- Hk. cbn [map In]. tauto.
Qed.

(** *** calculateHierarchicalLayout *)

Lemma setHas_In (k : str) (s : list str) : setHas k s = true <-> In k s.
Proof.
  unfold setHas. rewrite existsb_exists. split.
  - intros [x [Hx Hk]]. apply str_eqb_eq in Hk. now subst.
  - intros H. exists k. split; [assumption|apply str_eqb_refl].
Qed.

Lemma setHas_not_In (k : str) (s : list str) : setHas k s = false <-> ~ In k s.
Proof.
  rewrite <- setHas_In. destruct (setHas k s); split; congruence.
Qed.

Lemma setAdd_In (k : str) (s : list str) (k' : str) :
  In k' (setAdd k s) <-> k' = k \/ In k' s.
Proof.
  unfold setAdd. destruct (setHas k s) eqn:E.
  - apply setHas_In in E. split; [now right|]. now intros [->|H].
  - rewrite in_app_iff. cbn [In]. intuition.
Qed.

Lemma setAdd_NoDup (k : str) (s : list str) : NoDup s -> NoDup (setAdd k s).
Proof.
  intros H. unfold setAdd. destruct (setHas k s) eqn:E; [assumption|].
  apply setHas_not_In in E.
  apply NoDup_app; [assumption|repeat constructor; intros []|].
  intros k' Hk' [<-|[]]. contradiction.
Qed.

Lemma enqueue_searched (pool : list str) (nodeId : str) (level : nat)
    (s : Search) :
  In nodeId pool -> searched pool s -> searched pool (enqueue nodeId level s).
Proof.
  intros Hp [H1 [H2 [H3 H4]]]. unfold searched, enqueue.
  cbn [visited levels]. split; [|split; [|split]].
  - now apply setAdd_NoDup.
  - intros k Hk. apply setAdd_In in Hk as [->|Hk]; auto.
  - now apply mapSet_NoDup.
  - intros k. rewrite mapSet_In, setAdd_In, H4. tauto.
Qed.

Lemma visitFrom_searched (pool : list str) (currentNode : str)
    (currentLevel : nat) (es : list GraphEdge) :
  incl (map Edge.target es) pool ->
  forall s,
    searched pool s ->
    searched pool (visitFrom currentNode currentLevel es s)
    /\ (length (queue (visitFrom currentNode currentLevel es s))
        + length (visited s)
        = length (queue s)
          + length (visited (visitFrom currentNode currentLevel es s)))%nat
    /\ incl (visited s) (visited (visitFrom currentNode currentLevel es s)).
Proof.
  unfold visitFrom.
  induction es as [|e es IH]; intros Hp s Hs; cbn [fold_left].
  - split; [assumption|]. split; [lia|apply incl_refl].
  - assert (Hp' : incl (map Edge.target es) pool).
    { intros k Hk. apply Hp. now right. }
    destruct (Str.eqb (Edge.source e) currentNode
              && negb (setHas (Edge.target e) (visited s))) eqn:E.
    + apply andb_true_iff in E as [_ E]. apply negb_true_iff in E.
      destruct (IH Hp' (enqueue (Edge.target e) (currentLevel + 1) s))
        as [H1 [H2 H3]].
      { apply enqueue_searched; [|assumption]. apply Hp. now left. }
      split; [assumption|]. split.
      * assert (Hq : length (queue (enqueue (Edge.target e) (currentLevel + 1) s))
                     = S (length (queue s))).
        { unfold enqueue. cbn [queue]. rewrite length_app. cbn [length]. lia. }
        assert (Hv : length (visited (enqueue (Edge.target e) (currentLevel + 1) s))
                     = S (length (visited s))).
        { unfold enqueue, setAdd. cbn [visited]. rewrite E, length_app.
          cbn [length]. lia. }
        rewrite Hq, Hv in H2. lia.
      * intros k Hk. apply H3. unfold enqueue. cbn [visited].
        apply setAdd_In. now right.
    + now apply IH.
Qed.

Lemma search_ends (pool : list str) (es : list GraphEdge) :
  NoDup pool -> incl (map Edge.target es) pool ->
  forall fuel s,
    searched pool s ->
    (length (queue s) + length pool <= fuel + length (visited s))%nat ->
    queue (search fuel es s) = []
    /\ searched pool (search fuel es s)
    /\ incl (visited s) (visited (search fuel es s)).
Proof.
  intros Hnd Hp.
  induction fuel as [|fuel IH]; intros s Hs Hlen; cbn [search].
  - pose proof Hs as [H1 [H2 _]].
    pose proof (NoDup_incl_length H1 H2) as Hle.
    split; [|split; [assumption|apply incl_refl]].
    destruct (queue s); [reflexivity|]. cbn [length] in Hlen. lia.
  - destruct (queue s) as [|currentNode rest] eqn:Eq.
    + rewrite Eq. split; [reflexivity|]. split; [assumption|apply incl_refl].
    + assert (Hs1 : searched pool (mkSearch (levels s) rest (visited s)))
        by exact Hs.
      destruct (@visitFrom_searched pool currentNode
                  (getOrZero currentNode (levels s)) es Hp _ Hs1)
        as [H1 [H2 H3]].
      cbn [queue visited] in H2, H3. cbn [length] in Hlen.
      destruct (IH _ H1) as [H4 [H5 H6]]; [lia|].
      split; [exact H4|]. split; [exact H5|].
      intros k Hk. apply H6. apply H3. exact Hk.
Qed.

Lemma search_more (es : list GraphEdge) :
  forall fuel s,
    queue (search fuel es s) = [] ->
    forall more, search (fuel + more) es s = search fuel es s.
Proof.
  induction fuel as [|fuel IH]; intros s H more.
  - cbn [search] in H. cbn [Nat.add search].
    destruct more; cbn [search]; [reflexivity|]. now rewrite H.
  - cbn [Nat.add search] in *.
    destruct (queue s); [reflexivity|]. now apply IH.
Qed.

(** The state the search starts from. *)
Lemma rootNodes_searched (inDegree : Map nat) (ns : list GraphNode) :
  searched (map Node.id ns) (rootNodes inDegree ns)
  /\ (length (queue (rootNodes inDegree ns)) <= length ns)%nat.
Proof.
  unfold rootNodes.
  assert (H : forall pool ns s,
             incl (map Node.id ns) pool -> searched pool s ->
             let s' :=
               fold_left
                 (fun s0 node =>
                    match mapGet (Node.id node) inDegree with
                    | Some O => enqueue (Node.id node) 0 s0
                    | _ => s0
                    end) ns s in
             searched pool s'
             /\ (length (queue s') <= length (queue s) + length ns)%nat).
  { clear ns. intros pool.
    induction ns as [|n ns IH]; intros s Hp Hs; cbn [fold_left length].
    - split; [assumption|lia].
    - assert (Hp' : incl (map Node.id ns) pool).
      { intros k Hk. apply Hp. now right. }
      destruct (mapGet (Node.id n) inDegree) as [[|d]|].
      + destruct (IH (enqueue (Node.id n) 0 s) Hp') as [H1 H2].
        { apply enqueue_searched; [|assumption]. apply Hp. now left. }
        split; [assumption|].
        assert (Hq : length (queue (enqueue (Node.id n) 0 s))
                     = S (length (queue s))).
        { unfold enqueue. cbn [queue]. rewrite length_app. cbn [length]. lia. }
        rewrite Hq in H2. lia.
      + destruct (IH s Hp' Hs) as [H1 H2]. split; [assumption|lia].
      + destruct (IH s Hp' Hs) as [H1 H2]. split; [assumption|lia]. }
  destruct (H (map Node.id ns) ns (mkSearch [] [] [])) as [H1 H2].
  - apply incl_refl.
  - split; [constructor|]. split; [intros k []|].
    split; [constructor|]. cbn. tauto.
  - split; [assumption|]. cbn [queue length] in H2. lia.
Qed.

Lemma busiestNode_id (outDegree : Map nat) (ns : list GraphNode) :
  busiestNode outDegree ns = [] \/ In (busiestNode outDegree ns) (map Node.id ns).
Proof.
  unfold busiestNode.
  assert (H : forall ns best,
             let r :=
               snd (fold_left
                      (fun best0 node =>
                         let degree :=
                           Z.of_nat (getOrZero (Node.id node) outDegree) in
                         if (fst best0 <? degree)%Z then (degree, Node.id node)
                         else best0) ns best) in
             r = snd best \/ In r (map Node.id ns)).
  { clear ns. induction ns as [|n ns IH]; intros best; cbn [fold_left].
    - left. reflexivity.
    - cbv zeta.
      destruct (fst best <? Z.of_nat (getOrZero (Node.id n) outDegree))%Z.
      + destruct (IH (Z.of_nat (getOrZero (Node.id n) outDegree), Node.id n))
          as [H|H]; cbn [snd] in H; right; [left|right]; auto.
      + destruct (IH best) as [H|H]; [left|right; right]; auto. }
  apply (H ns ((-1)%Z, [])).
Qed.

Lemma startNodes_searched (ns : list GraphNode) (es : list GraphEdge) :
  searched (map Node.id ns) (startNodes ns es)
  /\ (length (queue (startNodes ns es)) <= length ns)%nat.
Proof.
  unfold startNodes. cbv zeta.
  destruct (rootNodes_searched (inDegrees ns es) ns) as [H1 H2].
  destruct (length (queue (rootNodes (inDegrees ns es) ns)) =? 0)%nat eqn:E;
    [|auto].
  apply Nat.eqb_eq in E.
  destruct (length (busiestNode (outDegrees ns es) ns) =? 0)%nat eqn:E';
    cbn [negb]; [auto|].
  destruct (busiestNode_id (outDegrees ns es) ns) as [H|H].
  - rewrite H in E'. discriminate.
  - split; [now apply enqueue_searched|].
    unfold enqueue. cbn [queue]. rewrite length_app, E. cbn [length].
    destruct ns; [destruct H|]. cbn [length]. lia.
Qed.

Lemma searched_pool (pool pool' : list str) (s : Search) :
  incl pool pool' -> searched pool s -> searched pool' s.
Proof.
  intros Hi [H1 [H2 [H3 H4]]]. split; [assumption|].
  split; [|split; assumption]. intros k Hk. auto.
Qed.

(** The ids that can ever be in [visited]: those that are in it at the start
    and the targets of the edges. *)
Lemma pool_exists (start targets : list str) :
  NoDup start ->
  exists pool,
    NoDup pool /\ incl start pool /\ incl targets pool
    /\ incl pool (start ++ targets)
    /\ (length pool <= length start + length targets)%nat.
Proof.
  intros Hs.
  set (fresh := filter (fun t => negb (setHas t start))
                  (nodup str_eq_dec targets)).
  assert (Hf : forall k, In k fresh <-> In k targets /\ ~ In k start).
  { intros k. unfold fresh. rewrite filter_In, nodup_In, negb_true_iff.
    now rewrite setHas_not_In. }
  exists (start ++ fresh). split; [|split; [|split; [|split]]].
  - apply NoDup_app; [assumption| |].
    + unfold fresh. apply NoDup_filter, NoDup_nodup.
    + intros k Hk Hk'. apply Hf in Hk'. tauto.
  - apply incl_appl, incl_refl.
  - intros k Hk. apply in_or_app.
    destruct (in_dec str_eq_dec k start); [now left|right]. apply Hf. auto.
  - intros k Hk. apply in_app_or in Hk as [Hk|Hk]; apply in_or_app; auto.
    right. now apply Hf.
  - rewrite length_app. apply Nat.add_le_mono_l.
    transitivity (length (nodup str_eq_dec targets)).
    + unfold fresh. apply filter_length_le.
    + apply NoDup_incl_length; [apply NoDup_nodup|].
      intros k Hk. now apply nodup_In in Hk.
Qed.

Lemma hierarchical_search (ns : list GraphNode) (es : list GraphEdge) :
  queue (search (searchBudget ns es) es (startNodes ns es)) = []
  /\ searched (map Node.id ns ++ map Edge.target es)
       (search (searchBudget ns es) es (startNodes ns es)).
Proof.
  destruct (startNodes_searched ns es) as [Hs Hq].
  destruct (@pool_exists (visited (startNodes ns es)) (map Edge.target es))
    as [pool [P1 [P2 [P3 [P4 P5]]]]]; [apply Hs|].
  assert (Hs' : searched pool (startNodes ns es)).
  { destruct Hs as [H1 [H2 [H3 H4]]]. repeat split; auto; apply H4. }
  destruct (@search_ends pool es P1 P3 (searchBudget ns es) _ Hs')
    as [H1 [H2 _]].
  { unfold searchBudget. rewrite length_map in P5. lia. }
  split; [assumption|].
  apply (@searched_pool pool); [|assumption].
  intros k Hk. apply P4 in Hk. apply in_app_or in Hk as [Hk|Hk];
    apply in_or_app; [left|now right].
  now apply Hs.
Qed.

Lemma unvisitedNodes_keys (ns : list GraphNode) (s : Search) :
  NoDup (map fst (levels s)) ->
  NoDup (map fst (unvisitedNodes ns s))
  /\ forall k, In k (map fst (unvisitedNodes ns s))
               <-> In k (map fst (levels s))
                   \/ (In k (map Node.id ns) /\ ~ In k (visited s)).
Proof.
  unfold unvisitedNodes. generalize (levels s) as lv.
  induction ns as [|n ns IH]; intros lv Hlv; cbn [fold_left map In].
  - split; [assumption|]. intros k. tauto.
  - destruct (setHas (Node.id n) (visited s)) eqn:E.
    + apply setHas_In in E. destruct (IH lv Hlv) as [H1 H2].
      split; [assumption|]. intros k. rewrite H2.
      split; [tauto|]. intros [H|[[<-|H] H']]; tauto.
    + apply setHas_not_In in E.
      destruct (IH (mapSet (Node.id n) 0%nat lv)) as [H1 H2];
        [now apply mapSet_NoDup|].
      split; [assumption|]. intros k. rewrite H2, mapSet_In.
      split; [intros [[->|H]|H]; intuition|intuition (subst; auto)].
Qed.

Lemma addToLevel_ids (level : nat) (nodeId : str)
    (groups : list (nat * list str)) (k : str) :
  In k (concat (map snd (addToLevel level nodeId groups)))
  <-> k = nodeId \/ In k (concat (map snd groups)).
Proof.
  induction groups as [|[l ids] groups IH]; cbn [addToLevel map snd concat].
  - rewrite app_nil_r. cbn [In]. intuition.
  - destruct (l =? level)%nat; cbn [map snd concat];
      rewrite !in_app_iff; [cbn [In]|rewrite IH]; intuition.
Qed.

Lemma levelGroups_ids (lv : Map nat) (k : str) :
  In k (concat (map snd (levelGroups lv))) <-> In k (map fst lv).
Proof.
  unfold levelGroups.
  assert (H : forall g,
             In k (concat (map snd
                             (fold_left
                                (fun g' kv => addToLevel (snd kv) (fst kv) g')
                                lv g)))
             <-> In k (concat (map snd g)) \/ In k (map fst lv)).
  { induction lv as [|kv lv IH]; intros g; cbn [fold_left map In]; [tauto|].
    rewrite IH, addToLevel_ids. intuition. }
  rewrite H. cbn [map concat In]. tauto.
Qed.

Lemma placeInRow_keys (y startX : R) (nodeIds : list str) :
  forall index positions,
    (wellKeyed positions ->
     wellKeyed (placeInRow y startX index nodeIds positions))
    /\ forall k, In k (map fst (placeInRow y startX index nodeIds positions))
                 <-> In k (map fst positions) \/ In k nodeIds.
Proof.
  induction nodeIds as [|n nodeIds IH]; intros index positions;
    cbn [placeInRow In].
  - split; [auto|]. intros k. tauto.
  - destruct (IH (S index)
                (mapSet n (Point.mk (startX + INR index * 120 + 120 / 2) y)
                   positions)) as [H1 H2].
    split.
    + intros H. apply H1. now apply mapSet_wellKeyed.
    + intros k. rewrite H2, mapSet_In. intuition.
Qed.

Lemma placeLevels_keys (top : nat) (groups : list (nat * list str)) :
  wellKeyed (placeLevels top groups)
  /\ forall k, In k (map fst (placeLevels top groups))
               <-> In k (concat (map snd groups)).
Proof.
  unfold placeLevels.
  assert (H : forall positions,
             (wellKeyed positions ->
              wellKeyed
                (fold_left
                   (fun positions0 g =>
                      let y := (INR (fst g) - INR top / 2) * 170 in
                      let totalWidth := INR (length (snd g)) * 120 in
                      placeInRow y (- totalWidth / 2) 0 (snd g) positions0)
                   groups positions))
             /\ forall k,
                  In k (map fst
                          (fold_left
                             (fun positions0 g =>
                                let y := (INR (fst g) - INR top / 2) * 170 in
                                let totalWidth := INR (length (snd g)) * 120 in
                                placeInRow y (- totalWidth / 2) 0 (snd g)
                                  positions0)
                             groups positions))
                  <-> In k (map fst positions)
                      \/ In k (concat (map snd groups))).
  { induction groups as [|g groups IH]; intros positions;
      cbn [fold_left map concat].
    - split; [auto|]. intros k. cbn [In]. tauto.
    - cbv zeta.
      destruct (placeInRow_keys ((INR (fst g) - INR top / 2) * 170)
                  (- (INR (length (snd g)) * 120) / 2) (snd g) 0 positions)
        as [H1 H2].
      destruct (IH (placeInRow ((INR (fst g) - INR top / 2) * 170)
                      (- (INR (length (snd g)) * 120) / 2) 0 (snd g) positions))
        as [H3 H4].
      split; [auto|]. intros k. rewrite H4, H2, in_app_iff. tauto. }
  destruct (H []) as [H1 H2]. split; [apply H1; constructor|].
  intros k. rewrite H2. cbn [map In]. tauto.
Qed.

Lemma hierarchical_positions (ns : list GraphNode) (es : list GraphEdge) :
  let lv :=
    unvisitedNodes ns (search (searchBudget ns es) es (startNodes ns es)) in
  let positions := placeLevels (maxLevel lv) (levelGroups lv) in
  wellKeyed positions
  /\ (forall k, In k (map Node.id ns) -> In k (map fst positions))
  /\ (anchored ns es ->
      forall k, In k (map fst positions) -> In k (map Node.id ns)).
Proof.
  cbv zeta.
  destruct (hierarchical_search ns es) as [_ [Hv [Hp [Hl Hlv]]]].
  set (s := search (searchBudget ns es) es (startNodes ns es)) in *.
  destruct (unvisitedNodes_keys ns s Hl) as [Hu1 Hu2].
  set (lv := unvisitedNodes ns s) in *.
  destruct (placeLevels_keys (maxLevel lv) (levelGroups lv)) as [Hw Hk].
  split; [assumption|]. split.
  - intros k Hin. rewrite Hk, levelGroups_ids, Hu2, Hlv.
    destruct (in_dec str_eq_dec k (visited s)); tauto.
  - intros Ha k. rewrite Hk, levelGroups_ids, Hu2, Hlv.
    intros [H|[H _]]; [|assumption].
    apply Hp in H. apply in_app_or in H as [H|H]; [assumption|].
    apply in_map_iff in H as [e [<- He]].
    unfold anchored in Ha. rewrite Forall_forall in Ha. now apply Ha.
Qed.

Lemma covered_nonempty (ns : list GraphNode) (positions : Map Point) :
  ns <> [] ->
  (forall k, In k (map Node.id ns) -> In k (map fst positions)) ->
  positions <> [].
Proof.
  intros Hne H E. destruct ns as [|n ns]; [congruence|].
  specialize (H (Node.id n)). rewrite E in H. apply H. now left.
Qed.

(** X28.  The loop of the hierarchical layout ends within its budget, and
    more rounds would change nothing.  The layout has a target for every
    node and, over real-number coordinates, the centre of its targets is
    the centre of the places the nodes have now; when every edge ends at a
    node it has no other target. *)
Theorem hierarchical_layout (ns : list GraphNode) (es : list GraphEdge) :
  ns <> [] ->
  queue (search (searchBudget ns es) es (startNodes ns es)) = []
  /\ (forall more,
        search (searchBudget ns es + more) es (startNodes ns es)
        = search (searchBudget ns es) es (startNodes ns es))
  /\ wellKeyed (calculateHierarchicalLayout ns es)
  /\ (forall k, In k (map Node.id ns) ->
                In k (map fst (calculateHierarchicalLayout ns es)))
  /\ centroid (map snd (calculateHierarchicalLayout ns es))
     = centroid (map Node.position ns)
  /\ (anchored ns es -> targetsOf ns (calculateHierarchicalLayout ns es)).
Proof.
  intros Hne.
  destruct (hierarchical_search ns es) as [Hq _].
  split; [assumption|]. split; [now apply search_more|].
  destruct (hierarchical_positions ns es) as [Hw [Hall Honly]].
  unfold calculateHierarchicalLayout. cbv zeta in *.
  split; [|split; [|split]].
  - unfold wellKeyed. now rewrite centerLayoutPositions_keys.
  - intros k Hin. rewrite centerLayoutPositions_keys by assumption. auto.
  - apply centerLayoutPositions_centroid; [|assumption].
    exact (covered_nonempty Hne Hall).
  - intros Ha. apply centerLayoutPositions_targets. split; [assumption|].
    intros k. split; [now apply Honly|apply Hall].
Qed.

Lemma hierarchical_layout_witness :
  let ns := [nodeAt #"a" 0 0; nodeAt #"b" 30 40] in
  let es :=
    [Edge.mk #"likes-a-b" #"a" #"b" #"likes" true EdgeType.relation None None] in
  queue (search (searchBudget ns es) es (startNodes ns es)) = []
  /\ (forall more,
        search (searchBudget ns es + more) es (startNodes ns es)
        = search (searchBudget ns es) es (startNodes ns es))
  /\ wellKeyed (calculateHierarchicalLayout ns es)
  /\ (forall k, In k (map Node.id ns) ->
                In k (map fst (calculateHierarchicalLayout ns es)))
  /\ centroid (map snd (calculateHierarchicalLayout ns es))
     = centroid (map Node.position ns)
  /\ (anchored ns es -> targetsOf ns (calculateHierarchicalLayout ns es)).
Proof.
  cbv zeta.
  refine (@hierarchical_layout [nodeAt #"a" 0 0; nodeAt #"b" 30 40]
            [Edge.mk #"likes-a-b" #"a" #"b" #"likes" true EdgeType.relation
               None None] _).
  discriminate.
Defined.

End LayoutFacts.

(** ** A layout from the call to the last frame *)

Section LayoutRuns.

Import GraphEngine.

Open Scope R_scope.

Lemma sumX_perm (l l' : list Point) : Permutation l l' -> sumX l = sumX l'.
Proof.
  induction 1 as [|p l l' _ IH|p q l|l l' l'' _ IH1 _ IH2].
  - reflexivity.
  - rewrite !sumX_cons. now rewrite IH.
  - rewrite !sumX_cons. ring.
  - now rewrite IH1.
Qed.

Lemma sumY_perm (l l' : list Point) : Permutation l l' -> sumY l = sumY l'.
Proof.
  induction 1 as [|p l l' _ IH|p q l|l l' l'' _ IH1 _ IH2].
  - reflexivity.
  - rewrite !sumY_cons. now rewrite IH.
  - rewrite !sumY_cons. ring.
  - now rewrite IH1.
Qed.

Lemma mapGet_fresh (V : Type) (k : str) (m : Map V) :
  ~ In k (map fst m) -> mapGet k m = None.
Proof.
  intros H. destruct (mapGet k m) eqn:E; [|reflexivity].
  exfalso. apply H, mapGet_In. congruence.
Qed.

Lemma values_by_key (m : Map Point) :
  wellKeyed m -> map snd m = map (fun k => lookup k m) (map fst m).
Proof.
  unfold wellKeyed.
  induction m as [|[k v] m IH]; cbn [map fst snd]; intros H; [reflexivity|].
  inversion H as [|? ? Hk Hm]; subst. f_equal.
  - unfold lookup. cbn [mapGet]. now rewrite str_eqb_refl.
  - rewrite IH by assumption. apply map_ext_in. intros k' Hk'.
    unfold lookup. cbn [mapGet].
    destruct (Str.eqb k k') eqn:E; [|reflexivity].
    apply str_eqb_eq in E. subst. contradiction.
Qed.

Lemma settle_positions (ns : list GraphNode) (m : Map Point) :
  targetsOf ns m ->
  map Node.position (map (settle m) ns)
  = map (fun k => lookup k m) (map Node.id ns).
Proof.
  intros [_ H]. rewrite !map_map. apply map_ext_in. intros n Hn.
  unfold settle, lookup.
  destruct (mapGet (Node.id n) m) eqn:E; [now destruct n|].
  exfalso. assert (Hin : In (Node.id n) (map fst m)).
  { apply H. now apply in_map. }
  apply mapGet_In in Hin. congruence.
Qed.

Lemma settle_centroid (ns : list GraphNode) (m : Map Point) :
  distinctIds ns -> targetsOf ns m ->
  centroid (map Node.position (map (settle m) ns)) = centroid (map snd m).
Proof.
  intros Hd Ht. rewrite (settle_positions Ht).
  destruct Ht as [Hw Hk]. rewrite (values_by_key Hw).
  assert (Hp : Permutation (map Node.id ns) (map fst m)).
  { apply NoDup_Permutation; [exact Hd|exact Hw|]. intros k. now rewrite Hk. }
  pose proof (Permutation_map (fun k => lookup k m) Hp) as Hp'.
  unfold centroid. rewrite (sumX_perm Hp'), (sumY_perm Hp').
  now rewrite (Permutation_length Hp').
Qed.

Lemma settle_ids (m : Map Point) (ns : list GraphNode) :
  map Node.id (map (settle m) ns) = map Node.id ns.
Proof.
  rewrite map_map. apply map_ext. intros n. unfold settle.
  destruct (mapGet (Node.id n) m); [now destruct n|reflexivity].
Qed.

Lemma layout_targets (algorithm : LayoutAlgorithm) (options : RequiredOptions)
    (ns : list GraphNode) (es : list GraphEdge) :
  ns <> [] -> anchored ns es ->
  (algorithm = circular -> (2 <= length ns)%nat) ->
  let targets :=
    match algorithm with
    | force_directed => calculateForceDirectedLayout ns es options
    | hierarchical => calculateHierarchicalLayout ns es
    | circular => calculateCircularLayout ns
    end in
  targetsOf ns targets
  /\ centroid (map snd targets) = centroid (map Node.position ns).
Proof.
  intros Hne Ha Hc. cbv zeta. destruct algorithm.
  - unfold calculateForceDirectedLayout. cbv zeta.
    match goal with
    | |- context [centerLayoutPositions ns ?p] =>
        assert (H : targetsOf ns p) by apply force_positions_targets
    end.
    split; [now apply centerLayoutPositions_targets|].
    apply centerLayoutPositions_centroid; [|apply H].
    exact (targetsOf_nonempty Hne H).
  - destruct (hierarchical_positions ns es) as [Hw [Hall Honly]].
    unfold calculateHierarchicalLayout. cbv zeta in *. split.
    + apply centerLayoutPositions_targets. split; [assumption|].
      intros k. split; [now apply Honly|apply Hall].
    + apply centerLayoutPositions_centroid; [|assumption].
      exact (covered_nonempty Hne Hall).
  - split; [apply circular_targets|].
    apply circular_layout_centroid, Hc. reflexivity.
Qed.

Lemma animate_last (a : Animation) (currentTime : R) (e : Engine) :
  0 < animDuration a ->
  animStart a + animDuration a <= currentTime ->
  (forall n, In n (nodes e) ->
             mapGet (Node.id n) (initialPositions a) <> None) ->
  animate a currentTime e
  = mkEngine (map (settle (targetPositions e)) (nodes e)) (edges e)
      (setProgress 1
         (setAnimating false (setProgress 1 (layoutState e))))
      None [] (frames e) (nextFrameId e).
Proof.
  intros Hd Ht Hi. unfold animate.
  rewrite (@progress_after _ _ _ Hd Ht).
  destruct (Rlt_dec 1 1) as [Hlt|_]; [lra|].
  cbn [andb layoutState].
  replace (1 - (1 - 1) ^ 3) with 1 by ring.
  f_equal. apply map_ext_in. intros n Hn. apply interpolate_one. auto.
Qed.

Lemma layout_run (now currentTime : R) (algorithm : LayoutAlgorithm)
    (options : option LayoutOptions) (e : Engine) :
  tidy e ->
  distinctIds (nodes e) ->
  anchored (nodes e) (edges e) ->
  nodes e <> [] ->
  (algorithm = circular -> (2 <= length (nodes e))%nat) ->
  0 < reqAnimationDuration (withDefaults options) ->
  now + reqAnimationDuration (withDefaults options) <= currentTime ->
  let targets := layoutTargets algorithm options (nodes e) (edges e) in
  let e' := runFrame currentTime (applyLayout now algorithm options e) in
  targetsOf (nodes e) targets
  /\ nodes e' = map (settle targets) (nodes e)
  /\ centroid (map Node.position (nodes e'))
     = centroid (map Node.position (nodes e))
  /\ map Node.id (nodes e') = map Node.id (nodes e)
  /\ LState.isAnimating (layoutState e') = false
  /\ LState.progress (layoutState e') = 1
  /\ LState.algorithm (layoutState e') = algorithm
  /\ frames e' = [].
Proof.
  intros Ht Hd Ha Hne Hc Hdur Htime. cbv zeta. unfold layoutTargets.
  destruct (@stopLayout_tidy e Ht) as [_ [_ Hf]].
  unfold applyLayout. cbv zeta.
  assert (Hn : nodes (stopLayout e) = nodes e) by reflexivity.
  assert (He : edges (stopLayout e) = edges e) by reflexivity.
  rewrite Hn, He.
  destruct (length (nodes e) =? 0)%nat eqn:E.
  { apply Nat.eqb_eq in E. destruct (nodes e); [congruence|discriminate]. }
  destruct (@layout_targets algorithm (withDefaults options) (nodes e) (edges e)
              Hne Ha Hc) as [Htg Hcen].
  cbv zeta in Htg, Hcen.
  match type of Htg with targetsOf _ ?t => set (targets := t) in * end.
  unfold runFrame, startLayoutAnimation, requestFrame.
  cbn [frames nodes edges layoutState animationFrameId targetPositions
       nextFrameId].
  rewrite Hf. cbn [app fold_left snd].
  rewrite animate_last; cbn [animDuration animStart initialPositions nodes
                             targetPositions]; [|assumption|assumption|].
  - cbn [nodes layoutState frames setProgress setAnimating LState.isAnimating
         LState.progress LState.algorithm].
    rewrite Hn, settle_ids, (settle_centroid Hd Htg), Hcen.
    split; [exact Htg|]. repeat split; reflexivity.
  - rewrite Hn. intros n Hin. apply mapGet_In.
    destruct (@fold_mapSet_nodes Point Node.position (nodes e) []) as [_ H].
    apply H. right. now apply in_map.
Qed.



End LayoutRuns.

(** ** Labels that share an id, and the two colours of a string *)

Section NodeResults.

Import NodeUtils.

Lemma findIndex_same_ids (nodes nodes' : list GraphNode) (nodeId : str) :
  map Node.id nodes = map Node.id nodes' ->
  forall i, findIndex nodes nodeId i = findIndex nodes' nodeId i.
Proof.
  revert nodes'.
  induction nodes as [|n nodes IH]; intros [|n' nodes'] H i; cbn [map] in H;
    try discriminate; [reflexivity|].
  injection H as Hn H. cbn [findIndex]. rewrite Hn.
  destruct (Str.eqb (Node.id n') nodeId); [reflexivity|]. now apply IH.
Qed.

Lemma findIndex_appended (nodes : list GraphNode) (n : GraphNode) :
  ~ In (Node.id n) (map Node.id nodes) ->
  forall i, findIndex (nodes ++ [n]) (Node.id n) i = Some (i + length nodes).
Proof.
  induction nodes as [|m nodes IH]; intros H i; cbn [app findIndex length].
  - rewrite str_eqb_refl. f_equal. lia.
  - destruct (Str.eqb (Node.id m) (Node.id n)) eqn:E.
    + apply str_eqb_eq in E. exfalso. apply H. now left.
    + rewrite IH; [f_equal; lia|]. intros Hin. apply H. now right.
Qed.

(** X2.  Two labels with the same id share one node: the second call of
    createOrUpdateNode answers with the node the first call answered with,
    adds no node, and counts one more occurrence on that node, which keeps
    what the first call gave it. *)
Theorem createOrUpdateNode_reuses (nodes : list GraphNode) (l1 l2 : str)
    (p1 p2 : option Point) :
  generateNodeId l2 = generateNodeId l1 ->
  let first := createOrUpdateNode nodes l1 p1 in
  let second := createOrUpdateNode (fst first) l2 p2 in
  snd second = snd first
  /\ length (fst second) = length (fst first)
  /\ exists n,
       nth_error (fst first) (snd first) = Some n
       /\ Node.id n = generateNodeId l1
       /\ nth_error (fst second) (snd second)
          = Some (Node.setOccurrences (occurrencesOf n + 1) n).
Proof.
  intros Hid. cbv zeta.
  pose (f := fun n : GraphNode => Node.setOccurrences (occurrencesOf n + 1) n).
  destruct (findIndex nodes (generateNodeId l1) 0) as [j|] eqn:E.
  - assert (H1 : createOrUpdateNode nodes l1 p1 = (updateAt j f nodes, j)).
    { unfold createOrUpdateNode. now rewrite E. }
    assert (H2 : createOrUpdateNode (updateAt j f nodes) l2 p2
                 = (updateAt j f (updateAt j f nodes), j)).
    { unfold createOrUpdateNode. rewrite Hid.
      rewrite (@findIndex_same_ids _ nodes) by (now apply updateAt_map).
      now rewrite E. }
    rewrite H1. cbn [fst snd]. rewrite H2. cbn [fst snd].
    apply findIndex_Some in E as [_ [n [Hn Hn']]]. rewrite Nat.sub_0_r in Hn.
    split; [reflexivity|]. split; [now rewrite !updateAt_length|].
    exists (f n). split; [apply updateAt_nth; exact Hn|]. split; [exact Hn'|].
    apply (@updateAt_nth _ f). apply updateAt_nth. exact Hn.
  - pose (new := Node.mk (generateNodeId l1) l1 NodeType.entity
                   (match p1 with Some p => p | None => Point.mk 0 0 end)
                   None None None (Meta.mk None (Some 1) None)).
    assert (H1 : createOrUpdateNode nodes l1 p1 = (nodes ++ [new], length nodes)).
    { unfold createOrUpdateNode. now rewrite E. }
    apply findIndex_None in E.
    assert (H2 : createOrUpdateNode (nodes ++ [new]) l2 p2
                 = (updateAt (length nodes) f (nodes ++ [new]), length nodes)).
    { unfold createOrUpdateNode. rewrite Hid.
      change (generateNodeId l1) with (Node.id new).
      rewrite (@findIndex_appended nodes new E 0). reflexivity. }
    rewrite H1. cbn [fst snd]. rewrite H2. cbn [fst snd].
    assert (Hnew : nth_error (nodes ++ [new]) (length nodes) = Some new).
    { rewrite nth_error_app2, Nat.sub_diag by lia. reflexivity. }
    split; [reflexivity|]. split; [now rewrite updateAt_length|].
    exists new. split; [exact Hnew|]. split; [reflexivity|].
    apply (@updateAt_nth _ f). exact Hnew.
Qed.

Lemma createOrUpdateNode_reuses_witness :
  snd (createOrUpdateNode
         (fst (createOrUpdateNode [] #"Chandler" None)) #"chandler!" None)
  = snd (createOrUpdateNode [] #"Chandler" None).
Proof.
  refine (proj1 (@createOrUpdateNode_reuses [] #"Chandler" #"chandler!"
                   None None _)).
  reflexivity.
Defined.

(** X4.  The colour of a node and the colour of an edge are hsla colours whose
    hue is below 360, and for the same string the two hues are half a turn
    apart. *)
Theorem colours_half_a_turn_apart (s : str) :
  exists hue : Z,
    (0 <= hue < 360)%Z
    /\ getNodeColor s = #"hsla(" ++ ofZ hue ++ #", 65%, 70%, 0.7)"
    /\ getEdgeColor s
       = #"hsla(" ++ ofZ ((hue + 180) mod 360) ++ #", 60%, 65%, 0.6)".
Proof.
  exists (Z.abs (hashOf s) mod 360)%Z. split; [|split].
  - apply Z.mod_pos_bound. lia.
  - reflexivity.
  - unfold getEdgeColor. cbv zeta. now rewrite Zplus_mod_idemp_l.
Qed.

End NodeResults.

(** ** No relation is stored twice *)

Section EdgeKeys.

Import NodeUtils GraphTransformer.

Lemma addEdge_keyed (predicate : str) (directed : bool) (type : EdgeType)
    (sourceId targetId : str) (edges : list GraphEdge) :
  directed = match type with
             | EdgeType.relation => true
             | EdgeType.hypergraph_connection => false
             end ->
  Forall keyedEdge edges ->
  Forall keyedEdge (addEdge predicate directed type sourceId targetId edges).
Proof.
  intros Hd H. unfold addEdge. destruct (edgeExists edges _); [assumption|].
  apply Forall_app. split; [assumption|].
  constructor; [|constructor]. repeat split. exact Hd.
Qed.

Lemma createEdgesBetweenNodes_keyed (nodes : list GraphNode)
    (sourceNodes targetNodes : list nat) (triple : Triple) :
  forall edges,
    Forall keyedEdge edges ->
    Forall keyedEdge
      (createEdgesBetweenNodes nodes sourceNodes targetNodes triple edges).
Proof.
  unfold createEdgesBetweenNodes.
  induction sourceNodes as [|s sourceNodes IH]; intros edges H; cbn [fold_left];
    [assumption|].
  apply IH. clear IH. revert edges H.
  induction targetNodes as [|t targetNodes IH]; intros edges H; cbn [fold_left];
    [assumption|].
  apply IH. now apply addEdge_keyed.
Qed.

Lemma createHypergraphConnections_keyed (nodes : list GraphNode)
    (entityNodes : list nat) (intermediateNode : GraphNode) (triple : Triple) :
  forall edges,
    Forall keyedEdge edges ->
    Forall keyedEdge
      (createHypergraphConnections nodes entityNodes intermediateNode triple edges).
Proof.
  unfold createHypergraphConnections.
  induction entityNodes as [|r entityNodes IH]; intros edges H; cbn [fold_left];
    [assumption|].
  apply IH. now apply addEdge_keyed.
Qed.

Lemma processTriple_keyed (acc : Acc) (index : nat) (triple : Triple) :
  Forall keyedEdge (accEdges acc) ->
  Forall keyedEdge (accEdges (processTriple acc index triple)).
Proof.
  intros H. unfold processTriple. destruct (Triple.isHypergraph triple).
  - destruct (createHypergraphStructures (accState acc) triple) as [hs st1].
    unfold processHypergraphTriple.
    destruct (createNodes _ _ _ _) as [nodes1 entityNodes].
    destruct (hasIntermediate _); cbn [accEdges]; [|assumption].
    now apply createHypergraphConnections_keyed.
  - unfold processSimpleTriple.
    destruct (createNodes _ _ _ _) as [nodes1 subjectNodes].
    destruct (createNodes _ _ _ _) as [nodes2 objectNodes].
    cbn [accEdges]. now apply createEdgesBetweenNodes_keyed.
Qed.

Lemma processTriples_keyed (triples : list Triple) :
  forall index acc,
    Forall keyedEdge (accEdges acc) ->
    Forall keyedEdge (accEdges (processTriples triples index acc)).
Proof.
  induction triples as [|t triples IH]; intros index acc H; cbn [processTriples];
    [assumption|].
  apply IH. now apply processTriple_keyed.
Qed.

Lemma same_id_same_edge (edges : list GraphEdge) (e1 e2 : GraphEdge) :
  distinctEdgeIds edges -> In e1 edges -> In e2 edges ->
  Edge.id e1 = Edge.id e2 -> e1 = e2.
Proof.
  unfold distinctEdgeIds.
  induction edges as [|e edges IH]; cbn [map In]; intros Hd H1 H2 Hid; [tauto|].
  inversion Hd as [|? ? Hn Hd']; subst.
  destruct H1 as [<-|H1]; destruct H2 as [<-|H2]; auto.
  - exfalso. apply Hn. rewrite Hid. now apply in_map.
  - exfalso. apply Hn. rewrite <- Hid. now apply in_map.
Qed.


End EdgeKeys.

(** ** From the text to the end of a layout *)

Section TextToLayout.

Import GraphTransformer GraphEngine.

Open Scope R_scope.

Lemma parse_graph_facts (now : R) (st : Parser.State) (mettaText : str) :
  anchored (PResult.nodes (fst (Parser.parse now st mettaText)))
    (PResult.edges (fst (Parser.parse now st mettaText)))
  /\ (noHypergraph (extractTriples mettaText) = true ->
      distinctIds (PResult.nodes (fst (Parser.parse now st mettaText)))).
Proof.
  rewrite parse_nodes, parse_edges.
  destruct (@processTriples_spec (extractTriples mettaText) 0
              (mkAcc [] [] [] (Parser.graphTransformer st)))
    as [Hw [_ [_ [_ Hd]]]].
  destruct Hw as [_ [Ha _]]; [repeat split; constructor|].
  split.
  - unfold anchored in *. rewrite Forall_forall in *.
    intros e He. apply Ha.
    apply secondPass_In in He as [[]|He]. exact He.
  - intros H. apply Hd; [assumption|constructor].
Qed.

Lemma scaledNodes_ids (ns : list GraphNode) :
  map Node.id (App.scaledNodes ns) = map Node.id ns.
Proof.
  unfold App.scaledNodes. rewrite map_map. apply map_ext. now intros [].
Qed.

Lemma scaledNodes_sums (ns : list GraphNode) :
  sumX (map Node.position (App.scaledNodes ns))
  = sumX (map Node.position ns) * 2
  /\ sumY (map Node.position (App.scaledNodes ns))
     = sumY (map Node.position ns) * 2.
Proof.
  induction ns as [|n ns [IHx IHy]].
  - unfold sumX, sumY. cbn. split; ring.
  - cbn [App.scaledNodes map] in *. rewrite !sumX_cons, !sumY_cons.
    fold (App.scaledNodes ns). rewrite IHx, IHy.
    destruct n. cbn [Node.position Node.setPosition Point.x Point.y].
    unfold App.EDGE_LENGTH_SCALE. split; ring.
Qed.

Lemma parseOn_returned (stack : nat) (now : R) (st st' : Parser.State)
    (mettaText : str) (parseResult : ParseResult) :
  Parser.parseOn stack now st mettaText = Returned (parseResult, st') ->
  extractTriplesOn stack mettaText = Returned (extractTriples mettaText)
  /\ parseResult = fst (Parser.parse now st mettaText).
Proof.
  unfold Parser.parseOn.
  destruct (extractTriplesOn stack mettaText) as [ts|] eqn:E; [|discriminate].
  intros H.
  assert (H' : Parser.parse now st mettaText = (parseResult, st'))
    by congruence.
  rewrite H'. split; [|reflexivity].
  f_equal. exact (@extractTriplesOn_returned stack mettaText ts E).
Qed.



End TextToLayout.

(** ** Tokens *)

Section TokenFacts.

Lemma nonBlank_trim (s : str) :
  nonBlank s = true -> trim s <> [] /\ trim (trim s) = trim s.
Proof.
  unfold nonBlank. intros H. split; [|apply trim_idempotent].
  intros E. rewrite E in H. discriminate.
Qed.

Lemma tokStep_trimmed (st : TokState) (char : ascii) :
  Forall (fun t => t <> [] /\ trim t = t) (tokens st) ->
  Forall (fun t => t <> [] /\ trim t = t) (tokens (tokStep st char)).
Proof.
  intros H. unfold tokStep.
  destruct (Ascii.eqb char lparen); [exact H|].
  destruct (Ascii.eqb char rparen) eqn:Er.
  - cbv zeta. destruct ((parenDepth st - 1 =? 0)%Z && inToken st);
      cbn [tokens]; [|exact H].
    apply Forall_app. split; [exact H|]. constructor; [|constructor].
    apply nonBlank_trim. apply Ascii.eqb_eq in Er. subst char.
    rewrite nonBlank_snoc. change (negb (isWhite rparen)) with true.
    apply orb_true_r.
  - destruct (Ascii.eqb char space && (parenDepth st =? 0)%Z); [|exact H].
    destruct (nonBlank (current st)) eqn:En; cbn [tokens]; [|exact H].
    apply Forall_app. split; [exact H|]. constructor; [|constructor].
    now apply nonBlank_trim.
Qed.

(** X5.  No token is empty and no token has white space at either end; so an
    expression that parseExpression accepts has a predicate that is not
    empty. *)
Theorem tokens_are_trimmed (content : str) :
  Forall (fun t => t <> [] /\ trim t = t) (tokenize content)
  /\ forall parsed,
       parseExpression content = Some parsed ->
       predicateOf parsed <> []
       /\ trim (predicateOf parsed) = predicateOf parsed.
Proof.
  assert (H : forall text,
             Forall (fun t => t <> [] /\ trim t = t) (tokenize text)).
  { intros text. unfold tokenize. cbv zeta.
    assert (Hf : forall st,
               Forall (fun t => t <> [] /\ trim t = t) (tokens st) ->
               Forall (fun t => t <> [] /\ trim t = t)
                 (tokens (fold_left tokStep text st))).
    { induction text as [|c text IH]; intros st Hst; cbn [fold_left];
        [exact Hst|].
      apply IH. now apply tokStep_trimmed. }
    specialize (Hf (mkTok [] [] 0 false) (Forall_nil _)).
    destruct (nonBlank (current (fold_left tokStep text (mkTok [] [] 0 false))))
      eqn:En; [|exact Hf].
    apply Forall_app. split; [exact Hf|]. constructor; [|constructor].
    now apply nonBlank_trim. }
  split; [apply H|].
  intros parsed. unfold parseExpression. rewrite parseExpressionFuel_eq.
  destruct (negb (firstIs lparen (trim content))
            || negb (lastIs rparen (trim content))); [discriminate|].
  destruct (length (tokenize (trim (slice1 (trim content)))) <? 2);
    [discriminate|].
  specialize (H (trim (slice1 (trim content)))).
  destruct (tokenize (trim (slice1 (trim content)))) as [|predicate rest];
    [discriminate|].
  destruct (parseArgs _ rest) as [args|]; [|discriminate].
  intros E. injection E as <-. cbn [predicateOf].
  now inversion H.
Qed.

End TokenFacts.

(** ** Hit test and the frames of an animation *)

Section FrameFacts.

Import GraphEngine.

Open Scope R_scope.

(** X23.  Over real-number coordinates and with a scale other than zero:
    the hit test answers with the first node of the array that lies within
    the radius of the world point under the screen point, and with nothing
    exactly when every node lies outside it. *)
Theorem hit_test_finds_first (e : Engine) (position : Point)
    (transform : Transform) :
  Transform.scale transform <> 0 ->
  let worldPos := screenToWorld position transform in
  match getNodeAtPosition e position transform with
  | Some node =>
      exists before after,
        nodes e = before ++ node :: after
        /\ distanceTo worldPos node <= nodeRadius
        /\ Forall (outside worldPos) before
  | None => Forall (outside worldPos) (nodes e)
  end.
Proof.
  intros _. cbv zeta. unfold getNodeAtPosition.
  exact (firstWithin_spec (screenToWorld position transform) (nodes e)).
Qed.

Lemma hit_test_finds_first_witness :
  let e := setData [nodeAt #"a" 0 0; nodeAt #"b" 50 50] [] initial in
  let worldPos := screenToWorld (Point.mk 110 120) (Transform.mk 10 20 2) in
  match getNodeAtPosition e (Point.mk 110 120) (Transform.mk 10 20 2) with
  | Some node =>
      exists before after,
        nodes e = before ++ node :: after
        /\ distanceTo worldPos node <= nodeRadius
        /\ Forall (outside worldPos) before
  | None => Forall (outside worldPos) (nodes e)
  end.
Proof.
  cbv zeta.
  refine (@hit_test_finds_first
            (setData [nodeAt #"a" 0 0; nodeAt #"b" 50 50] [] initial)
            (Point.mk 110 120) (Transform.mk 10 20 2) _).
  cbn [Transform.scale]. lra.
Defined.

Lemma eased_bounds (p : R) : 0 <= p <= 1 -> 0 <= 1 - (1 - p) ^ 3 <= 1.
Proof.
  intros [H0 H1].
  assert (Ha : 0 <= (1 - p) ^ 3) by (apply pow_le; lra).
  assert (Hb : (1 - p) ^ 3 <= 1 ^ 3) by (apply pow_incr; lra).
  rewrite pow1 in Hb. lra.
Qed.

Lemma progress_bounds (x : R) : 0 <= Rmax 0 (Rmin x 1) <= 1.
Proof.
  split; [apply Rmax_l|].
  apply Rmax_lub; [lra|apply Rmin_r].
Qed.

(** X25.  Over real-number coordinates and for a duration above zero:
    whenever a frame runs, the progress the engine reports lies between 0
    and 1, and a node that has a place from the start and a target stands on
    the segment between the two: the easing never overshoots. *)
Theorem animate_stays_between (a : Animation) (currentTime : R) (e : Engine)
    (node : GraphNode) (initial target : Point) :
  0 < animDuration a ->
  In node (nodes e) ->
  mapGet (Node.id node) (initialPositions a) = Some initial ->
  mapGet (Node.id node) (targetPositions e) = Some target ->
  0 <= LState.progress (layoutState (animate a currentTime e)) <= 1
  /\ exists c,
       0 <= c <= 1
       /\ In (Node.setPosition
                (Point.mk
                   (Point.x initial + (Point.x target - Point.x initial) * c)
                   (Point.y initial + (Point.y target - Point.y initial) * c))
                node)
             (nodes (animate a currentTime e)).
Proof.
  intros _ Hin Hi Ht. unfold animate. cbv zeta.
  set (p := Rmax 0 (Rmin ((currentTime - animStart a) / animDuration a) 1)).
  pose proof (progress_bounds ((currentTime - animStart a) / animDuration a))
    as Hp. fold p in Hp.
  assert (Hnode : In (Node.setPosition
                        (Point.mk
                           (Point.x initial
                            + (Point.x target - Point.x initial)
                              * (1 - (1 - p) ^ 3))
                           (Point.y initial
                            + (Point.y target - Point.y initial)
                              * (1 - (1 - p) ^ 3)))
                        node)
                    (map (interpolate a (targetPositions e) (1 - (1 - p) ^ 3))
                       (nodes e))).
  { apply in_map_iff. exists node. split; [|assumption].
    unfold interpolate. now rewrite Hi, Ht. }
  destruct ((if Rlt_dec p 1 then true else false) && _).
  - unfold requestFrame.
    cbn [layoutState nodes setProgress LState.progress].
    split; [assumption|]. exists (1 - (1 - p) ^ 3).
    split; [now apply eased_bounds|assumption].
  - cbn [layoutState nodes setProgress LState.progress].
    split; [lra|]. exists (1 - (1 - p) ^ 3).
    split; [now apply eased_bounds|assumption].
Qed.

Lemma animate_stays_between_witness :
  0 <= LState.progress
         (layoutState
            (animate (mkAnimation 0 1500 [(#"a", Point.mk 0 0)]) 750
               (startLayoutAnimation 0 circular [(#"a", Point.mk 8 8)] 1500
                  (setData [nodeAt #"a" 0 0] [] initial)))) <= 1.
Proof.
  refine (proj1 (@animate_stays_between
                   (mkAnimation 0 1500 [(#"a", Point.mk 0 0)]) 750
                   (startLayoutAnimation 0 circular [(#"a", Point.mk 8 8)] 1500
                      (setData [nodeAt #"a" 0 0] [] initial))
                   (nodeAt #"a" 0 0) (Point.mk 0 0) (Point.mk 8 8) _ _ _ _)).
  - cbn [animDuration]. lra.
  - left. reflexivity.
  - reflexivity.
  - reflexivity.
Defined.

End FrameFacts.
